(** * Colts: the league standings engine (utils/standingsCalculator.js)

    A shallow embedding of [calculateLeagueStandings] and of the pieces it is
    made of, followed by the properties of the engine: the ranking order, the
    rugby-union award of league points and bonus points, the season gate,
    the behaviour on read and write failures, and the effect of a run on the
    standings table.

    Conventions of the embedding.
    - Row identifiers (fixture, league, team, standing ids) are the
      non-negative integers of the [int] columns of the schema: type [N].
      Scores and counters are JavaScript numbers holding integers: type [Z].
    - A JavaScript object used as a map from ids to values is an association
      list kept in ascending key order, which is the order in which
      [Object.values] enumerates integer keys.
    - A [Set] of ids is a duplicate-free list in insertion order.
    - [JSON.parse] belongs to the host, not to the repository: it is a
      parameter of the development. *)

From Stdlib Require Import List ZArith NArith String Bool Lia.
From Stdlib Require Import Sorting.Permutation Sorting.Sorted.
Import ListNotations.

Local Open Scope string_scope.
Local Open Scope Z_scope.
Local Open Scope list_scope.

(** ** JavaScript containers *)

Module JsObject.
Section WithValues.
Context {A : Type}.

(** An object whose keys are integers. *)
Definition t := list (N * A).

Definition empty : t := [].

(** [o[k]] *)
Fixpoint get (o : t) (k : N) : option A :=
  match o with
  | [] => None
  | (k', v) :: o' => if (k' =? k)%N then Some v else get o' k
  end.

(** [o[k] = v] *)
Fixpoint set (o : t) (k : N) (v : A) : t :=
  match o with
  | [] => [(k, v)]
  | (k', v') :: o' =>
      if (k =? k')%N then (k, v) :: o'
      else if (k <? k')%N then (k, v) :: (k', v') :: o'
      else (k', v') :: set o' k v
  end.

(** A mutation [o[k].field = ...] through a reference to the value stored
    under [k]: every later read of [o[k]] sees it. *)
Definition modify (o : t) (k : N) (f : A -> A) : t :=
  map (fun e => if (fst e =? k)%N then (fst e, f (snd e)) else e) o.

Definition keys (o : t) : list N := map fst o.

(** [Object.values(o)] *)
Definition values (o : t) : list A := map snd o.
End WithValues.
Arguments t : clear implicits.
End JsObject.

Module JsSet.
Definition t := list N.

Definition empty : t := [].

Definition has (s : t) (x : N) : bool := existsb (N.eqb x) s.

(** [s.add(x)] *)
Definition add (s : t) (x : N) : t := if has s x then s else s ++ [x].
End JsSet.

(** [Array.prototype.sort(cmp)]: the sort is stable, and for a comparator
    that is a total preorder the stable sorted arrangement is unique; it is
    computed here by stable insertion. *)
Section JsSort.
Context {A : Type} (cmp : A -> A -> Z).

Fixpoint js_insert (x : A) (l : list A) : list A :=
  match l with
  | [] => [x]
  | y :: l' => if cmp x y <=? 0 then x :: y :: l' else y :: js_insert x l'
  end.

Fixpoint js_sort (l : list A) : list A :=
  match l with
  | [] => []
  | x :: l' => js_insert x (js_sort l')
  end.
End JsSort.

(** [arr.forEach((x, index) => ...)] building a new array. *)
Fixpoint mapi_from {A B : Type} (i : nat) (f : nat -> A -> B) (l : list A) : list B :=
  match l with
  | [] => []
  | x :: l' => f i x :: mapi_from (S i) f l'
  end.

Definition mapi {A B : Type} (f : nat -> A -> B) (l : list A) : list B :=
  mapi_from 0 f l.

(** ** Data model: the rows of the tables *)

Module Fixture.
(** A row of [tblfixtures]; date and venue play no part in the engine. *)
Record t := mk {
  id : N;
  leagueID : N;
  homeTeam : N;
  awayTeam : N;
  status : Z
}.
End Fixture.

(** Fixture.status: Scheduled=0, Underway=1, Completed=2, Cancelled=3,
    Abandoned=4. *)
Definition Completed : Z := 2.

Module Scorer.
Record t := mk {
  playerName : string;
  scoreType : string;
  points : Z
}.
End Scorer.

(** What a stored or parsed scorer value can be: an array of scorer objects,
    or some other value (an object, a number, [null] out of [JSON.parse]) on
    which [.filter] is not callable. *)
Inductive JsonValue :=
| JArray (l : list Scorer.t)
| JOther.

(** The [homeScorers]/[awayScorers] field of a result row. *)
Inductive ScorersField :=
| FieldNull                      (* null or undefined *)
| FieldParsed (v : JsonValue)    (* already a structured value *)
| FieldString (s : string).      (* a serialized JSON string *)

Module Result.
(** A row of [tblresults]. A score is [Some z] when [parseInt] reads the
    integer [z] from it and [None] when [parseInt] gives [NaN]. *)
Record t := mk {
  id : N;
  fixtureID : N;
  homeScore : option Z;
  awayScore : option Z;
  homeScorers : ScorersField;
  awayScorers : ScorersField
}.
End Result.

Module Team.
(** The per-team accumulator of [calculateLeagueStandings]; [position] is
    absent until the ranking assigns it. *)
Record t := mk {
  teamID : N;
  played : Z;
  won : Z;
  drawn : Z;
  lost : Z;
  pointsFor : Z;
  pointsAgainst : Z;
  pointsDifference : Z;
  bonusPoints : Z;
  points : Z;
  position : option Z
}.

Definition zero (k : N) : t := mk k 0 0 0 0 0 0 0 0 0 None.

Definition set_played v (x : t) :=
  mk (teamID x) v (won x) (drawn x) (lost x) (pointsFor x) (pointsAgainst x)
     (pointsDifference x) (bonusPoints x) (points x) (position x).
Definition set_won v (x : t) :=
  mk (teamID x) (played x) v (drawn x) (lost x) (pointsFor x) (pointsAgainst x)
     (pointsDifference x) (bonusPoints x) (points x) (position x).
Definition set_drawn v (x : t) :=
  mk (teamID x) (played x) (won x) v (lost x) (pointsFor x) (pointsAgainst x)
     (pointsDifference x) (bonusPoints x) (points x) (position x).
Definition set_lost v (x : t) :=
  mk (teamID x) (played x) (won x) (drawn x) v (pointsFor x) (pointsAgainst x)
     (pointsDifference x) (bonusPoints x) (points x) (position x).
Definition set_pointsFor v (x : t) :=
  mk (teamID x) (played x) (won x) (drawn x) (lost x) v (pointsAgainst x)
     (pointsDifference x) (bonusPoints x) (points x) (position x).
Definition set_pointsAgainst v (x : t) :=
  mk (teamID x) (played x) (won x) (drawn x) (lost x) (pointsFor x) v
     (pointsDifference x) (bonusPoints x) (points x) (position x).
Definition set_pointsDifference v (x : t) :=
  mk (teamID x) (played x) (won x) (drawn x) (lost x) (pointsFor x) (pointsAgainst x)
     v (bonusPoints x) (points x) (position x).
Definition set_bonusPoints v (x : t) :=
  mk (teamID x) (played x) (won x) (drawn x) (lost x) (pointsFor x) (pointsAgainst x)
     (pointsDifference x) v (points x) (position x).
Definition set_points v (x : t) :=
  mk (teamID x) (played x) (won x) (drawn x) (lost x) (pointsFor x) (pointsAgainst x)
     (pointsDifference x) (bonusPoints x) v (position x).
Definition set_position v (x : t) :=
  mk (teamID x) (played x) (won x) (drawn x) (lost x) (pointsFor x) (pointsAgainst x)
     (pointsDifference x) (bonusPoints x) (points x) v.
End Team.

Module Standing.
(** The payload of a create or update on [tblstandings]. *)
Record data := mkData {
  leagueID : N;
  teamID : N;
  played : Z;
  won : Z;
  drawn : Z;
  lost : Z;
  pointsFor : Z;
  pointsAgainst : Z;
  pointsDifference : Z;
  bonusPoints : Z;
  points : Z
}.

(** A row of [tblstandings]: its primary key and its columns. *)
Record t := mk {
  id : N;
  fields : data
}.
End Standing.

Module League.
(** A row of [tblleagues]. *)
Record t := mk {
  id : N;
  leagueName : string;
  leagueSeason : string
}.
End League.

(** ** The authenticated requests of authHelpers.js *)

Module Auth.

(** What a [fetch] brings back once [response.json()] is awaited: the body
    with its [status_code], or a rejection (no network, a body that is no
    JSON). *)
Inductive Reply : Type :=
| Answer (status_code : Z) (data : string)
| Rejected (message : string).

(** A request given to [fetch]: the address, the method, the
    [Authorization] header and the serialised body ([None] when the body is
    left out). The [Content-Type] header is always [application/json]. *)
Record Sent : Type := mkSent {
  url : string;
  method : string;
  authorization : string;
  body : option string
}.

(** What the helpers read and write: the module variable [API_BASE_URL], the
    keys [authToken] and [user] of [localStorage], [window.location.href],
    the requests sent so far, the replies still to come and the lines of
    [console.error]. *)
Record Browser : Type := mkBrowser {
  API_BASE_URL : string;
  authToken : option string;
  user : option string;
  location : string;
  sent : list Sent;
  replies : list Reply;
  errors : list string
}.

Definition getAuthToken (b : Browser) : option string := authToken b.

(** [!!getAuthToken()]: [null] and the empty string are falsy. *)
Definition isAuthenticated (b : Browser) : bool :=
  match getAuthToken b with
  | Some token => negb (token =? "")%string
  | None => false
  end.

Definition clearAuth (b : Browser) : Browser :=
  mkBrowser (API_BASE_URL b) None None (location b) (sent b) (replies b) (errors b).

Definition redirect (href : string) (b : Browser) : Browser :=
  mkBrowser (API_BASE_URL b) (authToken b) (user b) href (sent b) (replies b)
            (errors b).

Definition console_error (line : string) (b : Browser) : Browser :=
  mkBrowser (API_BASE_URL b) (authToken b) (user b) (location b) (sent b)
            (replies b) (errors b ++ [line]).

(** [await fetch(...)] followed by [await response.json()]. *)
Definition fetch (request : Sent) (b : Browser) : Reply * Browser :=
  (hd (Answer 200 "") (replies b),
   mkBrowser (API_BASE_URL b) (authToken b) (user b) (location b)
             (sent b ++ [request]) (tl (replies b)) (errors b)).

(** The result is the parsed body, as its [status_code] and the rest; a
    thrown error is its message. *)
Definition makeAuthenticatedRequest (endpoint method : string)
    (body : option string) (b : Browser) : (Z * string + string) * Browser :=
  match getAuthToken b with
  | Some token =>
      if (token =? "")%string then
        (inr "No authentication token found", b)
      else
        let (reply, b) :=
          fetch (mkSent (String.append (API_BASE_URL b) endpoint) method
                        (String.append "Bearer " token) body) b in
        match reply with
        | Answer status_code data =>
            if status_code =? 403 then
              (inr "Session expired. Please login again.",
               console_error "Authenticated request error:"
                 (redirect "/login" (clearAuth b)))
            else
              (inl (status_code, data), b)
        | Rejected message =>
            (inr message, console_error "Authenticated request error:" b)
        end
  | None => (inr "No authentication token found", b)
  end.

Definition validOperations : list string := ["read"; "create"; "update"; "delete"].

Definition crudRequest (operation : string) (data : option string) (b : Browser)
  : (Z * string + string) * Browser :=
  if existsb (String.eqb operation) validOperations then
    makeAuthenticatedRequest (String.append "/api/crud/" operation) "POST" data b
  else
    (inr (String.append "Invalid operation: "
            (String.append operation
               (String.append ". Must be one of: "
                  (String.concat ", " validOperations)))), b).

(** A browser of the sample data: logged in, the server answers as listed. *)
Definition loggedIn (replies : list Reply) : Browser :=
  mkBrowser "http://localhost:3000" (Some "token-1") (Some "{}") "/admin" []
            replies [].

End Auth.

(** ** The computation of the standings *)

Section Engine.

(** [JSON.parse]: [None] when it throws a SyntaxError. *)
Variable JSON_parse : string -> option JsonValue.

(** [parseInt(x) || 0] *)
Definition parseIntOr0 (x : option Z) : Z :=
  match x with
  | Some z => z
  | None => 0
  end.

(** [allFixtures.filter(f => f.leagueID === leagueID && f.status === 2)] *)
Definition leagueFixtures (leagueID : N) (allFixtures : list Fixture.t) : list Fixture.t :=
  filter (fun f => (Fixture.leagueID f =? leagueID)%N && (Fixture.status f =? 2))
         allFixtures.

(** [allResults.forEach(result => { resultsMap[result.fixtureID] = result })] *)
Definition resultsMap (allResults : list Result.t) : JsObject.t Result.t :=
  fold_left (fun m result => JsObject.set m (Result.fixtureID result) result)
            allResults JsObject.empty.

(** The set of the teams of the league, collected from its fixtures. *)
Definition teamIDs (fixtures : list Fixture.t) : JsSet.t :=
  fold_left (fun s fixture =>
               JsSet.add (JsSet.add s (Fixture.homeTeam fixture))
                         (Fixture.awayTeam fixture))
            fixtures JsSet.empty.

Definition Standings := JsObject.t Team.t.

(** One zeroed accumulator per team. *)
Definition initStandings (ids : JsSet.t) : Standings :=
  fold_left (fun st teamID => JsObject.set st teamID (Team.zero teamID))
            ids JsObject.empty.

(** The increments of the body of the loop over the fixtures. *)
Definition inc_played (x : Team.t) := Team.set_played (Team.played x + 1) x.
Definition inc_won (x : Team.t) := Team.set_won (Team.won x + 1) x.
Definition inc_drawn (x : Team.t) := Team.set_drawn (Team.drawn x + 1) x.
Definition inc_lost (x : Team.t) := Team.set_lost (Team.lost x + 1) x.
Definition inc_bonusPoints (x : Team.t) := Team.set_bonusPoints (Team.bonusPoints x + 1) x.
Definition add_points (n : Z) (x : Team.t) := Team.set_points (Team.points x + n) x.
Definition add_pointsFor (n : Z) (x : Team.t) := Team.set_pointsFor (Team.pointsFor x + n) x.
Definition add_pointsAgainst (n : Z) (x : Team.t) :=
  Team.set_pointsAgainst (Team.pointsAgainst x + n) x.
Definition refresh_pointsDifference (x : Team.t) :=
  Team.set_pointsDifference (Team.pointsFor x - Team.pointsAgainst x) x.

(** [field ? (typeof field === 'string' ? JSON.parse(field) : field) : []];
    [None] when [JSON.parse] throws. The empty string is falsy. *)
Definition decodeScorers (field : ScorersField) : option JsonValue :=
  match field with
  | FieldNull => Some (JArray [])
  | FieldParsed v => Some v
  | FieldString s => if (s =? "")%string then Some (JArray []) else JSON_parse s
  end.

(** [scorers.filter(s => s.scoreType === 'try').length]; [None] when the
    value has no [filter] method (a TypeError). *)
Definition countTries (scorers : JsonValue) : option Z :=
  match scorers with
  | JArray l =>
      Some (Z.of_nat (List.length (filter (fun s => (Scorer.scoreType s =? "try")%string) l)))
  | JOther => None
  end.

(** The statements of the [try] block up to the two counts: both fields are
    decoded, then both are counted; [None] when any of the four steps
    throws, which happens before either team is touched. *)
Definition tryCounts (result : Result.t) : option (Z * Z) :=
  match decodeScorers (Result.homeScorers result) with
  | None => None
  | Some homeScorers =>
      match decodeScorers (Result.awayScorers result) with
      | None => None
      | Some awayScorers =>
          match countTries homeScorers with
          | None => None
          | Some homeTries =>
              match countTries awayScorers with
              | None => None
              | Some awayTries => Some (homeTries, awayTries)
              end
          end
      end
  end.

(** Win, draw or loss, and the losing bonus point. *)
Definition awardMatchPoints (homeTeam awayTeam : N) (homeScore awayScore : Z)
    (st : Standings) : Standings :=
  if awayScore <? homeScore then
    let st := JsObject.modify st homeTeam inc_won in
    let st := JsObject.modify st homeTeam (add_points 4) in
    let st := JsObject.modify st awayTeam inc_lost in
    if homeScore <=? awayScore + 7 then
      let st := JsObject.modify st awayTeam inc_bonusPoints in
      JsObject.modify st awayTeam (add_points 1)
    else st
  else if homeScore <? awayScore then
    let st := JsObject.modify st awayTeam inc_won in
    let st := JsObject.modify st awayTeam (add_points 4) in
    let st := JsObject.modify st homeTeam inc_lost in
    if awayScore <=? homeScore + 7 then
      let st := JsObject.modify st homeTeam inc_bonusPoints in
      JsObject.modify st homeTeam (add_points 1)
    else st
  else
    let st := JsObject.modify st homeTeam inc_drawn in
    let st := JsObject.modify st awayTeam inc_drawn in
    let st := JsObject.modify st homeTeam (add_points 2) in
    JsObject.modify st awayTeam (add_points 2).

Definition scorersError : string := "Error parsing scorers for bonus points:".

(** The 4+ tries bonus point: one [try] block around both teams; the
    [catch] logs and goes on. *)
Definition awardTryBonus (homeTeam awayTeam : N) (result : Result.t)
    (st : Standings) : Standings * list string :=
  match tryCounts result with
  | Some (homeTries, awayTries) =>
      let st :=
        if 4 <=? homeTries then
          let st := JsObject.modify st homeTeam inc_bonusPoints in
          JsObject.modify st homeTeam (add_points 1)
        else st in
      let st :=
        if 4 <=? awayTries then
          let st := JsObject.modify st awayTeam inc_bonusPoints in
          JsObject.modify st awayTeam (add_points 1)
        else st in
      (st, [])
  | None => (st, [scorersError])
  end.

(** The body of [leagueFixtures.forEach] for a fixture that has a result:
    the new accumulators and the lines written to the console. *)
Definition processFixture (standings : Standings) (fixture : Fixture.t)
    (result : Result.t) : Standings * list string :=
  let homeTeam := Fixture.homeTeam fixture in
  let awayTeam := Fixture.awayTeam fixture in
  let homeScore := parseIntOr0 (Result.homeScore result) in
  let awayScore := parseIntOr0 (Result.awayScore result) in
  let st := JsObject.modify standings homeTeam inc_played in
  let st := JsObject.modify st awayTeam inc_played in
  let st := JsObject.modify st homeTeam (add_pointsFor homeScore) in
  let st := JsObject.modify st homeTeam (add_pointsAgainst awayScore) in
  let st := JsObject.modify st awayTeam (add_pointsFor awayScore) in
  let st := JsObject.modify st awayTeam (add_pointsAgainst homeScore) in
  let st := awardMatchPoints homeTeam awayTeam homeScore awayScore st in
  let (st, logged) := awardTryBonus homeTeam awayTeam result st in
  let st := JsObject.modify st homeTeam refresh_pointsDifference in
  let st := JsObject.modify st awayTeam refresh_pointsDifference in
  (st, logged).

(** The body of [leagueFixtures.forEach]: a fixture without a result is
    skipped. *)
Definition fixtureStep (results : JsObject.t Result.t)
    (acc : Standings * list string) (fixture : Fixture.t) : Standings * list string :=
  match JsObject.get results (Fixture.id fixture) with
  | None => acc
  | Some result =>
      let (st, logged) := processFixture (fst acc) fixture result in
      (st, snd acc ++ logged)
  end.

(** The accumulators after the loop over the completed fixtures of the
    league, and what the loop wrote to the console. *)
Definition computeStandings (leagueID : N) (allFixtures : list Fixture.t)
    (allResults : list Result.t) : Standings * list string :=
  let fixtures := leagueFixtures leagueID allFixtures in
  let results := resultsMap allResults in
  let standings := initStandings (teamIDs fixtures) in
  fold_left (fixtureStep results) fixtures (standings, []).

(** The comparator of the ranking. *)
Definition compareTeams (a b : Team.t) : Z :=
  if negb (Team.points b =? Team.points a) then Team.points b - Team.points a
  else if negb (Team.pointsDifference b =? Team.pointsDifference a)
       then Team.pointsDifference b - Team.pointsDifference a
  else Team.pointsFor b - Team.pointsFor a.

(** [team.position = index + 1] *)
Definition assignPositions (teams : list Team.t) : list Team.t :=
  mapi (fun index team => Team.set_position (Some (Z.of_nat index + 1)) team) teams.

(** [Object.values(standings).sort(...)], then the positions. *)
Definition sortedTeams (standings : Standings) : list Team.t :=
  assignPositions (js_sort compareTeams (JsObject.values standings)).

(** The teams of a league in ranked order, from the tables. *)
Definition rankedTeams (leagueID : N) (allFixtures : list Fixture.t)
    (allResults : list Result.t) : list Team.t :=
  sortedTeams (fst (computeStandings leagueID allFixtures allResults)).

(** The payload written for a team. *)
Definition standingData (leagueID : N) (team : Team.t) : Standing.data :=
  Standing.mkData leagueID (Team.teamID team) (Team.played team) (Team.won team)
    (Team.drawn team) (Team.lost team) (Team.pointsFor team)
    (Team.pointsAgainst team) (Team.pointsDifference team)
    (Team.bonusPoints team) (Team.points team).


(** ** The DataStore and the requests of the engine *)

Inductive Table := tblfixtures | tblresults | tblstandings.

(** The requests that [calculateLeagueStandings] sends through
    [crudRequest]: reads of a whole table, and creates and updates of
    [tblstandings] (the only table it writes), an update carrying the
    condition [{ id }]. *)
Inductive Request :=
| Read (table : Table)
| Create (data : Standing.data)
| Update (data : Standing.data) (id : N).

(** How a request ends: a response with [status_code] 200, a response with
    another status, or a rejected promise (no token, expired session,
    network error) whose error has the given message. *)
Inductive Outcome :=
| Ok
| Fail
| Throw (message : string).

Inductive Records :=
| FixtureRows (l : list Fixture.t)
| ResultRows (l : list Result.t)
| StandingRows (l : list Standing.t)
| NoRows.

Record Response := mkResponse {
  status_code : Z;
  data : Records
}.

(** [data.records || data] at each of the three row types. *)
Definition fixture_rows (d : Records) : list Fixture.t :=
  match d with FixtureRows l => l | _ => [] end.
Definition result_rows (d : Records) : list Result.t :=
  match d with ResultRows l => l | _ => [] end.
Definition standing_rows (d : Records) : list Standing.t :=
  match d with StandingRows l => l | _ => [] end.

(** The world the engine runs in: the configured season, the three tables,
    the outcomes of the requests to come (in order; [Ok] once the list is
    used up), the requests sent so far with their outcomes, and the lines
    written to the console. *)
Record World := mkWorld {
  CURRENT_SEASON : string;
  fixturesTable : list Fixture.t;
  resultsTable : list Result.t;
  standingsTable : list Standing.t;
  pending : list Outcome;
  trace : list (Request * Outcome);
  console : list string
}.

Definition with_standings (rows : list Standing.t) (w : World) : World :=
  mkWorld (CURRENT_SEASON w) (fixturesTable w) (resultsTable w) rows
          (pending w) (trace w) (console w).

Definition with_console (lines : list string) (w : World) : World :=
  mkWorld (CURRENT_SEASON w) (fixturesTable w) (resultsTable w) (standingsTable w)
          (pending w) (trace w) lines.

Definition record_request (req : Request) (o : Outcome) (w : World) : World :=
  mkWorld (CURRENT_SEASON w) (fixturesTable w) (resultsTable w) (standingsTable w)
          (tl (pending w)) (trace w ++ [(req, o)]) (console w).

(** The id given to a created row ([AUTO_INCREMENT]): one not in use. *)
Definition fresh_id (rows : list Standing.t) : N :=
  N.succ (fold_right N.max 0%N (map Standing.id rows)).

Definition update_rows (id : N) (d : Standing.data) (rows : list Standing.t)
    : list Standing.t :=
  map (fun s => if (Standing.id s =? id)%N then Standing.mk (Standing.id s) d else s)
      rows.

(** Modelled from the spec: the DataStore behind [crudRequest] is the REST
    backend, which is not part of the sources. A successful [read] returns
    all the rows of the table, a successful [create] adds one row with the
    record as its columns, a successful [update] overwrites the columns of
    the rows matching the condition. *)
Definition serve (req : Request) (w : World) : Response * World :=
  match req with
  | Read tblfixtures => (mkResponse 200 (FixtureRows (fixturesTable w)), w)
  | Read tblresults => (mkResponse 200 (ResultRows (resultsTable w)), w)
  | Read tblstandings => (mkResponse 200 (StandingRows (standingsTable w)), w)
  | Create d =>
      (mkResponse 200 NoRows,
       with_standings
         (standingsTable w ++ [Standing.mk (fresh_id (standingsTable w)) d]) w)
  | Update d id =>
      (mkResponse 200 NoRows, with_standings (update_rows id d (standingsTable w)) w)
  end.

(** ** Asynchronous code: state and exceptions *)

(** A computation runs in a world and either returns a value or throws an
    [Error] with a message. *)
Definition M (A : Type) : Type := World -> (A + string) * World.

Definition ret {A : Type} (a : A) : M A := fun w => (inl a, w).

Definition throw {A : Type} (message : string) : M A := fun w => (inr message, w).

Definition bind {A B : Type} (m : M A) (k : A -> M B) : M B :=
  fun w =>
    match m w with
    | (inl a, w') => k a w'
    | (inr e, w') => (inr e, w')
    end.

Definition try_catch {A : Type} (m : M A) (handler : string -> M A) : M A :=
  fun w =>
    match m w with
    | (inl a, w') => (inl a, w')
    | (inr e, w') => handler e w'
    end.

Notation "x <- m ;; k" := (bind m (fun x => k))
  (at level 61, m at next level, right associativity).
Notation "m ;; k" := (bind m (fun _ => k))
  (at level 61, right associativity).

(** [console.log], [console.error] *)
Definition console_write (line : string) : M unit :=
  fun w => (inl tt, with_console (console w ++ [line]) w).

Fixpoint console_write_all (lines : list string) : M unit :=
  match lines with
  | [] => ret tt
  | line :: lines' => console_write line ;; console_write_all lines'
  end.

Definition getCurrentSeason : M string := fun w => (inl (CURRENT_SEASON w), w).

(** [crudRequest(operation, data)]: the request is sent; a rejected promise
    throws, a failure status leaves the store as it is. *)
Definition crudRequest (req : Request) : M Response :=
  fun w =>
    let o := hd Ok (pending w) in
    let w := record_request req o w in
    match o with
    | Ok => let (response, w) := serve req w in (inl response, w)
    | Fail => (inl (mkResponse 500 NoRows), w)
    | Throw message => (inr message, w)
    end.

(** [for (const x of xs) { await body(x) }] *)
Fixpoint forEachM {A : Type} (body : A -> M unit) (xs : list A) : M unit :=
  match xs with
  | [] => ret tt
  | x :: xs' => body x ;; forEachM body xs'
  end.

(** ** calculateLeagueStandings *)

Record CalcResult := mkResult {
  success : bool;
  message : string
}.

(** [s => s.leagueID === leagueID && s.teamID === team.teamID] *)
Definition isStandingOf (leagueID teamID : N) (s : Standing.t) : bool :=
  (Standing.leagueID (Standing.fields s) =? leagueID)%N
  && (Standing.teamID (Standing.fields s) =? teamID)%N.

(** The body of the loop over the ranked teams. *)
Definition persistTeam (leagueID : N) (team : Team.t) : M unit :=
  existingResult <- crudRequest (Read tblstandings) ;;
  let existingStandings :=
    if status_code existingResult =? 200
    then standing_rows (data existingResult)
    else [] in
  let existing := find (isStandingOf leagueID (Team.teamID team)) existingStandings in
  let standingData := standingData leagueID team in
  match existing with
  | Some existing =>
      crudRequest (Update standingData (Standing.id existing)) ;; ret tt
  | None =>
      crudRequest (Create standingData) ;; ret tt
  end.

Definition skipLine (leagueSeason : string) : string :=
  String.append "Skipping standings calculation for "
                (String.append leagueSeason " (not current season)").

Definition calculateLeagueStandings (leagueID : N) (leagueSeason : string)
    : M CalcResult :=
  try_catch
    (current <- getCurrentSeason ;;
     if negb (leagueSeason =? current)%string then
       console_write (skipLine leagueSeason) ;;
       ret (mkResult true "Not current season")
     else
       fixturesResult <- crudRequest (Read tblfixtures) ;;
       if negb (status_code fixturesResult =? 200) then
         throw "Failed to fetch fixtures"
       else
         let allFixtures := fixture_rows (data fixturesResult) in
         resultsResult <- crudRequest (Read tblresults) ;;
         if negb (status_code resultsResult =? 200) then
           throw "Failed to fetch results"
         else
           let allResults := result_rows (data resultsResult) in
           let (standings, logged) :=
             computeStandings leagueID allFixtures allResults in
           console_write_all logged ;;
           forEachM (persistTeam leagueID) (sortedTeams standings) ;;
           ret (mkResult true "Standings updated successfully"))
    (fun message =>
       console_write "Error calculating standings:" ;;
       ret (mkResult false message)).

(** ** Vocabulary of the properties *)

(** [a] may stand directly above [b] in the table. *)
Definition rankedAbove (a b : Team.t) : Prop :=
  Team.points a > Team.points b
  \/ (Team.points a = Team.points b
      /\ Team.pointsDifference a > Team.pointsDifference b)
  \/ (Team.points a = Team.points b
      /\ Team.pointsDifference a = Team.pointsDifference b
      /\ Team.pointsFor a >= Team.pointsFor b).

(** League points of a win, a draw and a loss, for a team that scored [own]
    against [other]. *)
Definition outcomePoints (own other : Z) : Z :=
  if other <? own then 4 else if own <? other then 0 else 2.

(** The losing bonus: a defeat by 7 points or fewer. *)
Definition losingBonus (own other : Z) : Z :=
  if (own <? other) && (other <=? own + 7) then 1 else 0.

(** The 4+ tries bonus, from the count of tries when the [try] block got as
    far as counting. *)
Definition tryBonus (tries : option Z) : Z :=
  match tries with
  | Some n => if 4 <=? n then 1 else 0
  | None => 0
  end.

Definition homeTries (result : Result.t) : option Z := option_map fst (tryCounts result).
Definition awayTries (result : Result.t) : option Z := option_map snd (tryCounts result).

(** What one fixture adds to the accumulator [before] of a team that scored
    [own] against [other] and whose tries were counted as [tries]. *)
Definition creditedWith (own other : Z) (tries : option Z) (before after : Team.t) : Prop :=
  Team.teamID after = Team.teamID before
  /\ Team.played after = Team.played before + 1
  /\ Team.won after = Team.won before + (if other <? own then 1 else 0)
  /\ Team.drawn after
     = Team.drawn before + (if (own <? other) || (other <? own) then 0 else 1)
  /\ Team.lost after = Team.lost before + (if own <? other then 1 else 0)
  /\ Team.pointsFor after = Team.pointsFor before + own
  /\ Team.pointsAgainst after = Team.pointsAgainst before + other
  /\ Team.pointsDifference after = Team.pointsFor after - Team.pointsAgainst after
  /\ Team.bonusPoints after
     = Team.bonusPoints before + losingBonus own other + tryBonus tries
  /\ Team.points after
     = Team.points before + outcomePoints own other + losingBonus own other
       + tryBonus tries.


(** The payloads written by the requests of a trace, in order. *)
Definition writes (tr : list (Request * Outcome)) : list Standing.data :=
  flat_map (fun e =>
              match fst e with
              | Read _ => []
              | Create d => [d]
              | Update d _ => [d]
              end) tr.

Definition noThrow (o : Outcome) : Prop :=
  match o with
  | Throw _ => False
  | _ => True
  end.

(** The primary key of [tblstandings]. *)
Definition primaryKey (rows : list Standing.t) : Prop :=
  NoDup (map Standing.id rows).

Definition standingKey (s : Standing.t) : N * N :=
  (Standing.leagueID (Standing.fields s), Standing.teamID (Standing.fields s)).

(** At most one row per (leagueID, teamID). *)
Definition uniqueStandings (rows : list Standing.t) : Prop :=
  NoDup (map standingKey rows).

(** The table after the read, the search and the write of [persistTeam]
    when both requests succeed. *)
Definition upsert (leagueID : N) (rows : list Standing.t) (team : Team.t)
    : list Standing.t :=
  match find (isStandingOf leagueID (Team.teamID team)) rows with
  | Some existing =>
      update_rows (Standing.id existing) (standingData leagueID team) rows
  | None =>
      rows ++ [Standing.mk (fresh_id rows) (standingData leagueID team)]
  end.

(** A row of the league whose team is one of [teams]. *)
Definition concerns (leagueID : N) (teams : JsSet.t) (s : Standing.t) : bool :=
  (Standing.leagueID (Standing.fields s) =? leagueID)%N
  && JsSet.has teams (Standing.teamID (Standing.fields s)).

(** The world after the two table reads succeeded and the scorer errors
    were logged. *)
Definition afterReads (logged : list string) (w : World) : World :=
  with_console (console w ++ logged)
    (record_request (Read tblresults) Ok
       (record_request (Read tblfixtures) Ok w)).

Definition failed (message : string) (w : World) : (CalcResult + string) * World :=
  (inl (mkResult false message),
   with_console (console w ++ ["Error calculating standings:"]) w).

(** Every accumulator is stored under its own team id. *)
Definition wellKeyed (st : Standings) : Prop :=
  Forall (fun e => Team.teamID (snd e) = fst e) st.

(** The effect of a served write on the rows of [tblstandings]. *)
Definition apply_write (req : Request) (rows : list Standing.t) : list Standing.t :=
  match req with
  | Read _ => rows
  | Create d => rows ++ [Standing.mk (fresh_id rows) d]
  | Update d id => update_rows id d rows
  end.

(** What the loop over the fixtures keeps of the accumulators: their keys,
    and the team id stored in each. *)
Definition sameTeams (st st' : Standings) : Prop :=
  JsObject.keys st' = JsObject.keys st /\ (wellKeyed st -> wellKeyed st').

(** The row of a team is in the table with the computed columns, and it is
    the row that the search of [persistTeam] finds. *)
Definition settled (leagueID : N) (rows : list Standing.t) (team : Team.t) : Prop :=
  exists e,
    find (isStandingOf leagueID (Team.teamID team)) rows = Some e
    /\ Standing.fields e = standingData leagueID team.

(** The request that [persistTeam] sends after its read, from the rows
    that the read made visible. *)
Definition writeRequest (leagueID : N) (team : Team.t) (visible : list Standing.t)
    : Request :=
  match find (isStandingOf leagueID (Team.teamID team)) visible with
  | Some existing => Update (standingData leagueID team) (Standing.id existing)
  | None => Create (standingData leagueID team)
  end.

(** The rows that a read of [tblstandings] makes visible to the engine. *)
Definition visibleRows (o : Outcome) (rows : list Standing.t) : list Standing.t :=
  match o with
  | Ok => rows
  | _ => []
  end.

(** Team [k] is the home or the away team of a completed fixture of the
    league. *)
Definition inCompletedFixture (leagueID : N) (fixtures : list Fixture.t) (k : N) : Prop :=
  exists f,
    In f fixtures
    /\ Fixture.leagueID f = leagueID
    /\ Fixture.status f = Completed
    /\ (Fixture.homeTeam f = k \/ Fixture.awayTeam f = k).

(** The rows that a run for [leagueID] must leave alone, given the teams it
    persists. *)
Definition untouchable (leagueID : N) (teams : JsSet.t) (s : Standing.t) : bool :=
  negb (concerns leagueID teams s).

(** What a step of the persistence loop for a team of [teams] keeps, with
    respect to the world [w] in which the run started. *)
Definition framed (leagueID : N) (teams : JsSet.t) (w w' : World) : Prop :=
  primaryKey (standingsTable w')
  /\ filter (untouchable leagueID teams) (standingsTable w')
     = filter (untouchable leagueID teams) (standingsTable w)
  /\ fixturesTable w' = fixturesTable w
  /\ resultsTable w' = resultsTable w
  /\ exists new,
       trace w' = trace w ++ new
       /\ Forall (fun d => Standing.leagueID d = leagueID
                           /\ In (Standing.teamID d) teams) (writes new).

(** A read of [tblstandings] in a trace came back with status 200. *)
Definition standingsReadOk (e : Request * Outcome) : Prop :=
  fst e = Read tblstandings -> snd e = Ok.

(** What a run keeps of a table with unique ids and at most one row per
    (leagueID, teamID), as long as its reads of [tblstandings] succeed;
    [w] is the world in which the run started. *)
Definition uniqueWhileReadsOk (w w' : World) : Prop :=
  exists new,
    trace w' = trace w ++ new
    /\ (Forall standingsReadOk new ->
        primaryKey (standingsTable w') /\ uniqueStandings (standingsTable w')).

(** The requests of a run, [new], end with one that threw the error [e];
    none before it threw. *)
Definition endsWithThrow (new : list (Request * Outcome)) (e : string) : Prop :=
  exists before req,
    new = before ++ [(req, Throw e)] /\ Forall noThrow (map snd before).

(** How the requests [new] of a computation relate to its result: it
    returns when none threw, and throws the error of the request that
    threw, which is then its last request. *)
Definition throwsLast {A : Type} (res : A + string) (new : list (Request * Outcome))
    : Prop :=
  match res with
  | inl _ => Forall noThrow (map snd new)
  | inr e => endsWithThrow new e
  end.

(** ** Sample data *)

(** A stand-in for [JSON.parse] on the strings of the examples: the empty
    array is read, the other strings are rejected. *)
Definition sampleParse (s : string) : option JsonValue :=
  if (s =? "[]")%string then Some (JArray []) else None.

Definition aTry : Scorer.t := Scorer.mk "J. Smith" "try" 5.
Definition fourTries : ScorersField := FieldParsed (JArray [aTry; aTry; aTry; aTry]).
Definition malformed : ScorersField := FieldString "[{scoreType:".

(** League 1: team 1 at home to team 2, completed. *)
Definition fixture12 : Fixture.t := Fixture.mk 10 1 1 2 Completed.

Definition twoTeams : Standings :=
  [(1%N, Team.zero 1); (2%N, Team.zero 2)].

(** Team 1 beats team 2 by 20 to 13, no scorers recorded. *)
Definition result2013 : Result.t :=
  Result.mk 1 10 (Some 20) (Some 13) FieldNull FieldNull.

(** Team 1 beats team 2 by 27 to 20; team 2 scored four tries. *)
Definition result2720 : Result.t :=
  Result.mk 1 10 (Some 27) (Some 20) FieldNull fourTries.


(** Team 1 beats team 2 by 30 to 20 and scored four tries; the scorers of
    team 2 are not valid JSON. *)
Definition result3020tries : Result.t :=
  Result.mk 1 10 (Some 30) (Some 20) fourTries malformed.

(** The row of team 1 in league 1, before any match. *)
Definition row1 : Standing.t := Standing.mk 1 (standingData 1 (Team.zero 1)).

(** A world with the given tables and request outcomes. *)
Definition worldOf (fixtures : list Fixture.t) (results : list Result.t)
    (standings : list Standing.t) (outcomes : list Outcome) : World :=
  mkWorld "2025-26" fixtures results standings outcomes [] [].

(** The leagues table of the sample data: league 1 runs in the current
    season, league 2 ran in the season before. *)
Definition sampleLeagues : list League.t :=
  [League.mk 1 "Colts East" "2025-26"; League.mk 2 "Colts West" "2024-25"].

(** A row of team 1 in league 2. *)
Definition rowOther : Standing.t := Standing.mk 2 (standingData 2 (Team.zero 1)).

(*SPECDEFS*)
(** ** Vocabulary of the league table *)

(** The sum of a counter over a list of teams. *)
Definition total (g : Team.t -> Z) (teams : list Team.t) : Z :=
  fold_right (fun x acc => g x + acc) 0 teams.

(** The counters of an accumulator agree with each other. *)
Definition consistent (x : Team.t) : Prop :=
  Team.played x = Team.won x + Team.drawn x + Team.lost x
  /\ Team.points x = 4 * Team.won x + 2 * Team.drawn x + Team.bonusPoints x
  /\ Team.pointsDifference x = Team.pointsFor x - Team.pointsAgainst x
  /\ 0 <= Team.won x
  /\ 0 <= Team.drawn x
  /\ 0 <= Team.lost x
  /\ 0 <= Team.bonusPoints x <= 2 * Team.played x.

(** Points for less points against, and wins less defeats. *)
Definition netScore (x : Team.t) : Z := Team.pointsFor x - Team.pointsAgainst x.
Definition netWins (x : Team.t) : Z := Team.won x - Team.lost x.

(** [1] for a win of [own] over [other], [-1] for a defeat, [0] for a draw. *)
Definition winSign (own other : Z) : Z :=
  (if other <? own then 1 else 0) - (if own <? other then 1 else 0).

(** The function that [JsObject.modify st k f] applies to every entry. *)
Definition onKey (k : N) (f : Team.t -> Team.t) (e : N * Team.t) : N * Team.t :=
  if (fst e =? k)%N then (fst e, f (snd e)) else e.

(** All the counters of an accumulator are still zero. *)
Definition untouched (x : Team.t) : Prop :=
  Team.played x = 0 /\ Team.won x = 0 /\ Team.drawn x = 0 /\ Team.lost x = 0
  /\ Team.pointsFor x = 0 /\ Team.pointsAgainst x = 0
  /\ Team.pointsDifference x = 0 /\ Team.bonusPoints x = 0 /\ Team.points x = 0.

(** The counters of a payload agree with each other. *)
Definition consistentData (d : Standing.data) : Prop :=
  Standing.played d = Standing.won d + Standing.drawn d + Standing.lost d
  /\ Standing.points d
     = 4 * Standing.won d + 2 * Standing.drawn d + Standing.bonusPoints d
  /\ Standing.pointsDifference d = Standing.pointsFor d - Standing.pointsAgainst d.

(** What the loop over the fixtures keeps of the accumulators: distinct
    keys, counters in agreement, and league-wide as many points for as
    against and as many wins as defeats. *)
Definition balanced (st : Standings) : Prop :=
  NoDup (JsObject.keys st)
  /\ Forall (fun e => consistent (snd e)) st
  /\ total netScore (JsObject.values st) = 0
  /\ total netWins (JsObject.values st) = 0.

(** [a] may stand directly above [b], and when the comparator sees no
    difference between them [a] is the team with the smaller id. *)
Definition tieOrder (a b : Team.t) : Prop :=
  compareTeams a b <= 0
  /\ (compareTeams a b = 0 -> (Team.teamID a < Team.teamID b)%N).

(** ** updateStandingsForFixture and the recalculation of all the leagues *)

Definition consume_outcome (w : World) : World :=
  mkWorld (CURRENT_SEASON w) (fixturesTable w) (resultsTable w) (standingsTable w)
          (tl (pending w)) (trace w) (console w).

(** [crudRequest('read', { table: 'tblleagues' })], as the status code and
    [data.records || data]. The callers of the engine read [tblleagues] and
    never write it: its rows are a parameter of the run. The read takes the
    next outcome like every other request; the trace of the world keeps the
    requests on the three tables of the engine only. *)
Definition readLeagues (leagues : list League.t) : M (Z * list League.t) :=
  fun w =>
    let o := hd Ok (pending w) in
    let w := consume_outcome w in
    match o with
    | Ok => (inl (200, leagues), w)
    | Fail => (inl (500, []), w)
    | Throw message => (inr message, w)
    end.

(** [updateStandingsForFixture(fixtureID)] *)
Definition updateStandingsForFixture (leagues : list League.t) (fixtureID : N)
    : M CalcResult :=
  try_catch
    (fixturesResult <- crudRequest (Read tblfixtures) ;;
     if negb (status_code fixturesResult =? 200) then
       throw "Failed to fetch fixture"
     else
       let fixtures := fixture_rows (data fixturesResult) in
       match find (fun f => (Fixture.id f =? fixtureID)%N) fixtures with
       | None => throw "Fixture not found"
       | Some fixture =>
           leaguesResult <- readLeagues leagues ;;
           if negb (fst leaguesResult =? 200) then
             throw "Failed to fetch leagues"
           else
             match find (fun l => (League.id l =? Fixture.leagueID fixture)%N)
                        (snd leaguesResult) with
             | None => throw "League not found"
             | Some league =>
                 calculateLeagueStandings (Fixture.leagueID fixture)
                                          (League.leagueSeason league)
             end
       end)
    (fun message =>
       console_write "Error updating standings for fixture:" ;;
       ret (mkResult false message)).

(** The counters of [recalculateAll] (pages/RecalculateStandings). *)
Record Tally := mkTally {
  successCount : nat;
  skipCount : nat;
  currentSeasonProcessed : option string
}.

Definition recalculatingLine (league : League.t) : string :=
  String.append "Recalculating standings for "
    (String.append (League.leagueName league)
       (String.append " ("
          (String.append (League.leagueSeason league) ")..."))).

(** The body of the loop over the leagues. *)
Definition tallyLeague (acc : Tally) (league : League.t) : M Tally :=
  console_write (recalculatingLine league) ;;
  result <- calculateLeagueStandings (League.id league) (League.leagueSeason league) ;;
  ret (if success result then
         if (message result =? "Not current season")%string then
           mkTally (successCount acc) (S (skipCount acc)) (currentSeasonProcessed acc)
         else
           mkTally (S (successCount acc)) (skipCount acc)
                   (Some (League.leagueSeason league))
       else acc).

Fixpoint tallyLeagues (acc : Tally) (leagues : list League.t) : M Tally :=
  match leagues with
  | [] => ret acc
  | league :: leagues' =>
      acc' <- tallyLeague acc league ;; tallyLeagues acc' leagues'
  end.

(** How [recalculateAll] ends: with the counters of its message and, when
    it calls [sendStandingsNotifications], the season it passes; or with the
    text it hands to [setError]. *)
Inductive Recalculation :=
| Recalculated (updated skipped : nat) (notified : option string)
| RecalculationFailed (error : string).

(** [successCount > 0 && currentSeasonProcessed]: the season when the
    notifications are to be sent ([null] and the empty string are falsy). *)
Definition notifiedSeason (tally : Tally) : option string :=
  match currentSeasonProcessed tally with
  | Some season =>
      if (0 <? successCount tally)%nat && negb (season =? "")%string
      then Some season else None
  | None => None
  end.

(** [recalculateAll], up to the decision to send the notifications: the
    read of the leagues, the loop, and the outcome shown to the user. The
    mails themselves are sent by [sendStandingsNotifications]. *)
Definition recalculateAll (leagues : list League.t) : M Recalculation :=
  try_catch
    (leaguesResult <- readLeagues leagues ;;
     if negb (fst leaguesResult =? 200) then
       throw "Failed to fetch leagues"
     else
       tally <- tallyLeagues (mkTally 0 0 None) (snd leaguesResult) ;;
       ret (Recalculated (successCount tally) (skipCount tally)
                         (notifiedSeason tally)))
    (fun message =>
       console_write "Error recalculating standings:" ;;
       ret (RecalculationFailed
              (String.append "Failed to recalculate standings: " message))).

(** The leagues of the current season, and the others. *)
Definition inSeason (season : string) (league : League.t) : bool :=
  (League.leagueSeason league =? season)%string.

(** How [updateStandingsForFixture] ends when it does not reach the
    recalculation. *)
Definition failedUpdate (message : string) (w : World) : (CalcResult + string) * World :=
  (inl (mkResult false message),
   with_console (console w ++ ["Error updating standings for fixture:"]) w).

(** The world in which [updateStandingsForFixture] starts the recalculation:
    after its read of the fixtures and its read of the leagues. *)
Definition afterLookups (w : World) : World :=
  consume_outcome (record_request (Read tblfixtures) Ok w).

(** ** Vocabulary of the scorer fields *)

(** The number of entries of a scorer list with score type "try". *)
Definition triesIn (scorers : list Scorer.t) : Z :=
  Z.of_nat (List.length (filter (fun s => (Scorer.scoreType s =? "try")%string) scorers)).

(** The scorer field of a result row holds the list [scorers]: the field is
    absent or the empty string and the list is empty, or it is that list
    already, or it is a string that [JSON.parse] reads as that list. *)
Definition holdsScorers (field : ScorersField) (scorers : list Scorer.t) : Prop :=
  match field with
  | FieldNull => scorers = []
  | FieldParsed v => v = JArray scorers
  | FieldString s =>
      if (s =? "")%string then scorers = [] else JSON_parse s = Some (JArray scorers)
  end.

(** The scorer field of a result row holds no list: it is a string that
    [JSON.parse] rejects, or a value, stored or parsed, that is no array. *)
Definition unreadableScorers (field : ScorersField) : Prop :=
  match field with
  | FieldNull => False
  | FieldParsed v => v = JOther
  | FieldString s =>
      s <> "" /\ (JSON_parse s = None \/ JSON_parse s = Some JOther)
  end.

(** * Properties *)

(** ** The ranking *)

Lemma compareTeams_rankedAbove (a b : Team.t) :
  compareTeams a b <= 0 <-> rankedAbove a b.
Proof.
  unfold compareTeams, rankedAbove.
  destruct (Team.points b =? Team.points a) eqn:Hp; simpl.
  - apply Z.eqb_eq in Hp.
    destruct (Team.pointsDifference b =? Team.pointsDifference a) eqn:Hd; simpl.
    + apply Z.eqb_eq in Hd. lia.
    + apply Z.eqb_neq in Hd. lia.
  - apply Z.eqb_neq in Hp. lia.
Qed.

Lemma compareTeams_total (a b : Team.t) :
  0 < compareTeams a b -> compareTeams b a <= 0.
Proof.
  unfold compareTeams.
  rewrite (Z.eqb_sym (Team.points a) (Team.points b)).
  rewrite (Z.eqb_sym (Team.pointsDifference a) (Team.pointsDifference b)).
  destruct (Team.points b =? Team.points a); simpl; [| lia].
  destruct (Team.pointsDifference b =? Team.pointsDifference a); simpl; lia.
Qed.

Section SortFacts.
Context {A : Type} (cmp : A -> A -> Z).
Hypothesis cmp_total : forall x y, 0 < cmp x y -> cmp y x <= 0.

Let before (x y : A) : Prop := cmp x y <= 0.

Lemma js_insert_perm (x : A) (l : list A) : Permutation (x :: l) (js_insert cmp x l).
Proof.
  induction l as [| y l IH]; simpl.
  - apply Permutation_refl.
  - destruct (cmp x y <=? 0).
    + apply Permutation_refl.
    + eapply perm_trans; [apply perm_swap |].
      apply perm_skip, IH.
Qed.

Lemma js_sort_perm (l : list A) : Permutation l (js_sort cmp l).
Proof.
  induction l as [| x l IH]; simpl.
  - apply perm_nil.
  - eapply perm_trans; [apply perm_skip, IH | apply js_insert_perm].
Qed.

Lemma js_insert_hd (x y : A) (l : list A) :
  before y x -> HdRel before y l -> HdRel before y (js_insert cmp x l).
Proof.
  intros Hyx Hhd. destruct l as [| z l]; simpl.
  - now constructor.
  - destruct (cmp x z <=? 0); constructor; auto.
    now apply HdRel_inv in Hhd.
Qed.

Lemma js_insert_sorted (x : A) (l : list A) :
  Sorted before l -> Sorted before (js_insert cmp x l).
Proof.
  induction 1 as [| y l Hs IH Hhd]; simpl.
  - repeat constructor.
  - destruct (cmp x y <=? 0) eqn:Hxy.
    + apply Z.leb_le in Hxy. repeat constructor; auto.
    + apply Z.leb_gt in Hxy. constructor; [exact IH |].
      apply js_insert_hd; [| exact Hhd].
      apply cmp_total, Hxy.
Qed.

Lemma js_sort_sorted (l : list A) : Sorted before (js_sort cmp l).
Proof.
  induction l as [| x l IH]; simpl.
  - constructor.
  - now apply js_insert_sorted.
Qed.
End SortFacts.

Lemma Sorted_adjacent {A : Type} (R : A -> A -> Prop) (l : list A) :
  Sorted R l ->
  forall i a b, nth_error l i = Some a -> nth_error l (S i) = Some b -> R a b.
Proof.
  induction 1 as [| x l Hs IH Hhd]; intros i a b Ha Hb.
  - destruct i; discriminate.
  - destruct i as [| i]; simpl in *.
    + injection Ha as <-. destruct l as [| y l]; [discriminate |].
      simpl in Hb. injection Hb as <-. now apply HdRel_inv in Hhd.
    + eapply IH; eauto.
Qed.

Lemma nth_error_mapi_from {A B : Type} (f : nat -> A -> B) (l : list A) :
  forall k i, nth_error (mapi_from k f l) i = option_map (f (k + i)%nat) (nth_error l i).
Proof.
  induction l as [| x l IH]; intros k i; simpl.
  - now destruct i.
  - destruct i as [| i]; simpl.
    + now rewrite Nat.add_0_r.
    + rewrite IH. now rewrite Nat.add_succ_r.
Qed.

Lemma nth_error_assignPositions (teams : list Team.t) (i : nat) :
  nth_error (assignPositions teams) i
  = option_map (Team.set_position (Some (Z.of_nat i + 1))) (nth_error teams i).
Proof.
  unfold assignPositions, mapi. now rewrite nth_error_mapi_from.
Qed.

Lemma rankedAbove_set_position (p q : option Z) (a b : Team.t) :
  rankedAbove a b -> rankedAbove (Team.set_position p a) (Team.set_position q b).
Proof. unfold rankedAbove. simpl. auto. Qed.

(** The ranked list is a rearrangement of the accumulators: the positions
    apart, no team is lost, added or changed by the ranking. *)
Lemma sortedTeams_perm (standings : Standings) :
  Permutation (map (Team.set_position None) (JsObject.values standings))
              (map (Team.set_position None) (sortedTeams standings)).
Proof.
  unfold sortedTeams, assignPositions, mapi.
  eapply perm_trans.
  - apply Permutation_map, (js_sort_perm compareTeams).
  - generalize (js_sort compareTeams (JsObject.values standings)) 0%nat.
    induction l as [| x l IH]; intro k; simpl.
    + apply perm_nil.
    + apply perm_skip, IH.
Qed.

(** C1. In the list of teams that [calculateLeagueStandings] ranks, any team
    placed directly above another has more league points, or as many and a
    larger points difference, or as many of both and at least as many points
    for; and the position of each team is its 1-based index in that list. *)
Theorem ranking_invariant (leagueID : N) (allFixtures : list Fixture.t)
    (allResults : list Result.t) :
  let ranked := rankedTeams leagueID allFixtures allResults in
  (forall i a b,
      nth_error ranked i = Some a -> nth_error ranked (S i) = Some b ->
      rankedAbove a b)
  /\ (forall i a,
      nth_error ranked i = Some a -> Team.position a = Some (Z.of_nat i + 1)).
Proof.
  intro ranked. subst ranked. unfold rankedTeams, sortedTeams.
  set (sorted := js_sort compareTeams _).
  assert (Hsorted : Sorted (fun a b => compareTeams a b <= 0) sorted)
    by (apply js_sort_sorted, compareTeams_total).
  split.
  - intros i a b Ha Hb.
    rewrite nth_error_assignPositions in Ha, Hb.
    destruct (nth_error sorted i) as [a0 |] eqn:Ha0; [| discriminate].
    destruct (nth_error sorted (S i)) as [b0 |] eqn:Hb0; [| discriminate].
    simpl in Ha, Hb. injection Ha as <-. injection Hb as <-.
    apply rankedAbove_set_position, compareTeams_rankedAbove.
    exact (Sorted_adjacent _ _ Hsorted i a0 b0 Ha0 Hb0).
  - intros i a Ha.
    rewrite nth_error_assignPositions in Ha.
    destruct (nth_error sorted i); [| discriminate].
    simpl in Ha. now injection Ha as <-.
Qed.

(** ** One fixture *)

Lemma get_modify {A : Type} (o : JsObject.t A) (k k' : N) (f : A -> A) :
  JsObject.get (JsObject.modify o k f) k'
  = if (k' =? k)%N then option_map f (JsObject.get o k') else JsObject.get o k'.
Proof.
  induction o as [| [k0 v] o IH]; simpl.
  - now destruct (k' =? k)%N.
  - destruct (k0 =? k)%N eqn:Hk0; simpl.
    + destruct (k0 =? k')%N eqn:Hk0'; simpl.
      * apply N.eqb_eq in Hk0, Hk0'. subst.
        now rewrite N.eqb_refl.
      * exact IH.
    + destruct (k0 =? k')%N eqn:Hk0'; simpl.
      * apply N.eqb_eq in Hk0'. subst k0. now rewrite Hk0.
      * exact IH.
Qed.

Lemma keys_modify {A : Type} (o : JsObject.t A) (k : N) (f : A -> A) :
  JsObject.keys (JsObject.modify o k f) = JsObject.keys o.
Proof.
  unfold JsObject.keys, JsObject.modify. rewrite map_map.
  apply map_ext. intros [k0 v]. simpl. now destruct (k0 =? k)%N.
Qed.

Lemma get_modify_same {A : Type} (o : JsObject.t A) (k : N) (f : A -> A) :
  JsObject.get (JsObject.modify o k f) k = option_map f (JsObject.get o k).
Proof. rewrite get_modify. now rewrite N.eqb_refl. Qed.

Lemma get_modify_other {A : Type} (o : JsObject.t A) (k k' : N) (f : A -> A) :
  k' <> k -> JsObject.get (JsObject.modify o k f) k' = JsObject.get o k'.
Proof. intro Hne. rewrite get_modify. apply N.eqb_neq in Hne. now rewrite Hne. Qed.

(** Reading a team back after the statements of the loop body. *)
Ltac read_back Hne Hne' :=
  repeat first [ rewrite get_modify_same
               | rewrite (get_modify_other _ _ _ _ Hne)
               | rewrite (get_modify_other _ _ _ _ Hne') ].

(** What [processFixture] does to the two teams of a fixture between
    different teams. *)
Lemma processFixture_credits (st : Standings) (fixture : Fixture.t)
    (result : Result.t) (h a : Team.t) :
  Fixture.homeTeam fixture <> Fixture.awayTeam fixture ->
  JsObject.get st (Fixture.homeTeam fixture) = Some h ->
  JsObject.get st (Fixture.awayTeam fixture) = Some a ->
  let homeScore := parseIntOr0 (Result.homeScore result) in
  let awayScore := parseIntOr0 (Result.awayScore result) in
  let st' := fst (processFixture st fixture result) in
  exists h' a',
    JsObject.get st' (Fixture.homeTeam fixture) = Some h'
    /\ JsObject.get st' (Fixture.awayTeam fixture) = Some a'
    /\ creditedWith homeScore awayScore (homeTries result) h h'
    /\ creditedWith awayScore homeScore (awayTries result) a a'.
Proof.
  intros Hne Hh Ha.
  assert (Hne' : Fixture.awayTeam fixture <> Fixture.homeTeam fixture) by congruence.
  unfold processFixture, awardTryBonus, awardMatchPoints.
  unfold homeTries, awayTries, creditedWith, losingBonus, outcomePoints, tryBonus.
  generalize (parseIntOr0 (Result.homeScore result)) as homeScore.
  generalize (parseIntOr0 (Result.awayScore result)) as awayScore.
  intros awayScore homeScore. cbv zeta.
  destruct (tryCounts result) as [[ht at_] |]; cbn [option_map fst snd];
    [destruct (4 <=? ht); destruct (4 <=? at_) |];
    destruct (awayScore <? homeScore) eqn:H1;
    destruct (homeScore <? awayScore) eqn:H3;
    destruct (homeScore <=? awayScore + 7) eqn:H2;
    destruct (awayScore <=? homeScore + 7) eqn:H4;
    cbn [fst snd andb orb];
    try (exfalso;
         rewrite ?Z.ltb_lt, ?Z.ltb_ge, ?Z.leb_le, ?Z.leb_gt in *; lia);
    (eexists; eexists; split; [read_back Hne Hne'; rewrite Hh; reflexivity |];
     split; [read_back Hne Hne'; rewrite Ha; reflexivity |]);
    cbn; repeat split; lia.
Qed.

(** C3 (amended). In a completed fixture between two different teams that
    the winner takes by exactly 7 points, the loser is credited with one
    defeat, no win, and exactly 1 bonus point and 1 league point for the
    narrow defeat; when the margin is 8 or more the defeat brings 0 bonus
    points and 0 league points; the winner is credited with one win and 4
    league points in both cases. Each team that earns the 4-try bonus in the
    fixture receives its 1 bonus point and 1 league point on top of these. *)
Theorem losing_bonus_boundary (st : Standings) (fixture : Fixture.t)
    (result : Result.t) (h a : Team.t) :
  Fixture.homeTeam fixture <> Fixture.awayTeam fixture ->
  JsObject.get st (Fixture.homeTeam fixture) = Some h ->
  JsObject.get st (Fixture.awayTeam fixture) = Some a ->
  let homeScore := parseIntOr0 (Result.homeScore result) in
  let awayScore := parseIntOr0 (Result.awayScore result) in
  let st' := fst (processFixture st fixture result) in
  exists h' a',
    JsObject.get st' (Fixture.homeTeam fixture) = Some h'
    /\ JsObject.get st' (Fixture.awayTeam fixture) = Some a'
    /\ (awayScore + 7 <= homeScore ->
        Team.won h' = Team.won h + 1
        /\ Team.points h' = Team.points h + 4 + tryBonus (homeTries result)
        /\ Team.won a' = Team.won a
        /\ Team.lost a' = Team.lost a + 1
        /\ (homeScore = awayScore + 7 ->
            Team.bonusPoints a' = Team.bonusPoints a + 1 + tryBonus (awayTries result)
            /\ Team.points a' = Team.points a + 1 + tryBonus (awayTries result))
        /\ (awayScore + 8 <= homeScore ->
            Team.bonusPoints a' = Team.bonusPoints a + 0 + tryBonus (awayTries result)
            /\ Team.points a' = Team.points a + 0 + tryBonus (awayTries result)))
    /\ (homeScore + 7 <= awayScore ->
        Team.won a' = Team.won a + 1
        /\ Team.points a' = Team.points a + 4 + tryBonus (awayTries result)
        /\ Team.won h' = Team.won h
        /\ Team.lost h' = Team.lost h + 1
        /\ (awayScore = homeScore + 7 ->
            Team.bonusPoints h' = Team.bonusPoints h + 1 + tryBonus (homeTries result)
            /\ Team.points h' = Team.points h + 1 + tryBonus (homeTries result))
        /\ (homeScore + 8 <= awayScore ->
            Team.bonusPoints h' = Team.bonusPoints h + 0 + tryBonus (homeTries result)
            /\ Team.points h' = Team.points h + 0 + tryBonus (homeTries result))).
Proof.
  intros Hne Hh Ha homeScore awayScore st'.
  destruct (processFixture_credits st fixture result h a Hne Hh Ha)
    as (h' & a' & Hh' & Ha' & Ch & Ca).
  exists h', a'. split; [exact Hh' |]. split; [exact Ha' |].
  fold homeScore awayScore in Ch, Ca.
  unfold creditedWith, losingBonus, outcomePoints in Ch, Ca.
  destruct Ch as (_ & _ & Hw & _ & Hl & _ & _ & _ & Hb & Hp).
  destruct Ca as (_ & _ & Hw' & _ & Hl' & _ & _ & _ & Hb' & Hp').
  destruct (awayScore <? homeScore) eqn:H1;
    destruct (homeScore <? awayScore) eqn:H2;
    destruct (homeScore <=? awayScore + 7) eqn:H3;
    destruct (awayScore <=? homeScore + 7) eqn:H4;
    cbn [andb] in *;
    rewrite ?Z.ltb_lt, ?Z.ltb_ge, ?Z.leb_le, ?Z.leb_gt in *;
    repeat split; intros; try lia.
Qed.

Lemma holdsScorers_decode (field : ScorersField) (scorers : list Scorer.t) :
  holdsScorers field scorers -> decodeScorers field = Some (JArray scorers).
Proof.
  destruct field as [| v | s]; simpl.
  - now intros ->.
  - now intros ->.
  - destruct (s =? "")%string; [now intros -> | auto].
Qed.

Lemma tryCounts_lists (result : Result.t) (homeList awayList : list Scorer.t) :
  holdsScorers (Result.homeScorers result) homeList ->
  holdsScorers (Result.awayScorers result) awayList ->
  tryCounts result = Some (triesIn homeList, triesIn awayList).
Proof.
  intros Hh Ha. unfold tryCounts.
  rewrite (holdsScorers_decode _ _ Hh), (holdsScorers_decode _ _ Ha). reflexivity.
Qed.

Lemma unreadableScorers_decode (field : ScorersField) :
  unreadableScorers field ->
  decodeScorers field = None \/ decodeScorers field = Some JOther.
Proof.
  destruct field as [| v | s]; simpl.
  - intros [].
  - intros ->. now right.
  - intros [Hs Hparse]. apply String.eqb_neq in Hs. rewrite Hs.
    destruct Hparse as [-> | ->]; auto.
Qed.

Lemma tryCounts_unreadable (result : Result.t) :
  unreadableScorers (Result.homeScorers result)
  \/ unreadableScorers (Result.awayScorers result) ->
  tryCounts result = None.
Proof.
  unfold tryCounts.
  intros [H | H]; apply unreadableScorers_decode in H; destruct H as [H | H];
    rewrite H.
  - reflexivity.
  - now destruct (decodeScorers (Result.awayScorers result)).
  - now destruct (decodeScorers (Result.homeScorers result)).
  - destruct (decodeScorers (Result.homeScorers result)) as [v |]; [| reflexivity].
    now destruct (countTries v).
Qed.

(** C9 (amended). For a completed fixture with a result between two
    different teams: when both scorer fields hold lists, the 4-try bonus of
    a team is counted from its own list and added whatever the outcome of
    the match, so that a team's bonus points grow by its losing bonus plus
    its try bonus and its league points by its win/draw/loss points plus
    both bonuses; a winner with 4 or more tries receives 4 + 1 = 5 league
    points and 1 bonus point, and a team beaten by 7 or fewer that scores 4
    or more tries receives 2 bonus points and 2 league points. When either
    scorer field holds no list, neither team receives a try bonus from the
    fixture, whatever the other list holds: the win/draw/loss points and the
    losing bonus are all that is added. *)
Theorem bonus_independence (st : Standings) (fixture : Fixture.t)
    (result : Result.t) (h a : Team.t) :
  Fixture.homeTeam fixture <> Fixture.awayTeam fixture ->
  JsObject.get st (Fixture.homeTeam fixture) = Some h ->
  JsObject.get st (Fixture.awayTeam fixture) = Some a ->
  let homeScore := parseIntOr0 (Result.homeScore result) in
  let awayScore := parseIntOr0 (Result.awayScore result) in
  let st' := fst (processFixture st fixture result) in
  exists h' a',
    JsObject.get st' (Fixture.homeTeam fixture) = Some h'
    /\ JsObject.get st' (Fixture.awayTeam fixture) = Some a'
    /\ (forall homeList awayList,
           holdsScorers (Result.homeScorers result) homeList ->
           holdsScorers (Result.awayScorers result) awayList ->
           let homeCount := triesIn homeList in
           let awayCount := triesIn awayList in
           Team.bonusPoints h'
           = Team.bonusPoints h + losingBonus homeScore awayScore
             + (if 4 <=? homeCount then 1 else 0)
           /\ Team.points h'
              = Team.points h + outcomePoints homeScore awayScore
                + losingBonus homeScore awayScore
                + (if 4 <=? homeCount then 1 else 0)
           /\ Team.bonusPoints a'
              = Team.bonusPoints a + losingBonus awayScore homeScore
                + (if 4 <=? awayCount then 1 else 0)
           /\ Team.points a'
              = Team.points a + outcomePoints awayScore homeScore
                + losingBonus awayScore homeScore
                + (if 4 <=? awayCount then 1 else 0)
           /\ (awayScore < homeScore -> 4 <= homeCount ->
               Team.points h' = Team.points h + 5
               /\ Team.bonusPoints h' = Team.bonusPoints h + 1)
           /\ (homeScore < awayScore -> 4 <= awayCount ->
               Team.points a' = Team.points a + 5
               /\ Team.bonusPoints a' = Team.bonusPoints a + 1)
           /\ (awayScore < homeScore <= awayScore + 7 -> 4 <= awayCount ->
               Team.points a' = Team.points a + 2
               /\ Team.bonusPoints a' = Team.bonusPoints a + 2)
           /\ (homeScore < awayScore <= homeScore + 7 -> 4 <= homeCount ->
               Team.points h' = Team.points h + 2
               /\ Team.bonusPoints h' = Team.bonusPoints h + 2))
    /\ (unreadableScorers (Result.homeScorers result)
        \/ unreadableScorers (Result.awayScorers result) ->
        Team.bonusPoints h' = Team.bonusPoints h + losingBonus homeScore awayScore
        /\ Team.points h'
           = Team.points h + outcomePoints homeScore awayScore
             + losingBonus homeScore awayScore
        /\ Team.bonusPoints a' = Team.bonusPoints a + losingBonus awayScore homeScore
        /\ Team.points a'
           = Team.points a + outcomePoints awayScore homeScore
             + losingBonus awayScore homeScore).
Proof.
  intros Hne Hh Ha homeScore awayScore st'.
  destruct (processFixture_credits st fixture result h a Hne Hh Ha)
    as (h' & a' & Hh' & Ha' & Ch & Ca).
  exists h', a'. split; [exact Hh' |]. split; [exact Ha' |].
  fold homeScore awayScore in Ch, Ca.
  unfold creditedWith, homeTries, awayTries, tryBonus in Ch, Ca.
  destruct Ch as (_ & _ & _ & _ & _ & _ & _ & _ & Hb & Hp).
  destruct Ca as (_ & _ & _ & _ & _ & _ & _ & _ & Hb' & Hp').
  split.
  - intros homeList awayList Hhome Haway homeCount awayCount.
    rewrite (tryCounts_lists result homeList awayList Hhome Haway) in Hb, Hp, Hb', Hp'.
    cbn [option_map fst snd] in Hb, Hp, Hb', Hp'.
    fold homeCount awayCount in Hb, Hp, Hb', Hp'.
    repeat (split; [assumption |]).
    rewrite Hb, Hp, Hb', Hp'. unfold losingBonus, outcomePoints.
    destruct (4 <=? homeCount) eqn:T1; destruct (4 <=? awayCount) eqn:T2;
      destruct (awayScore <? homeScore) eqn:H1;
      destruct (homeScore <? awayScore) eqn:H2;
      destruct (homeScore <=? awayScore + 7) eqn:H3;
      destruct (awayScore <=? homeScore + 7) eqn:H4;
      cbn [andb];
      rewrite ?Z.ltb_lt, ?Z.ltb_ge, ?Z.leb_le, ?Z.leb_gt in *;
      repeat split; intros; lia.
  - intro Hbad.
    rewrite (tryCounts_unreadable result Hbad) in Hb, Hp, Hb', Hp'.
    cbn [option_map] in Hb, Hp, Hb', Hp'.
    repeat split; lia.
Qed.

(** ** Running the engine *)

Lemma with_console_same (w : World) : with_console (console w) w = w.
Proof. now destruct w. Qed.

Lemma console_write_all_run (lines : list string) (w : World) :
  console_write_all lines w = (inl tt, with_console (console w ++ lines) w).
Proof.
  revert w. induction lines as [| line lines IH]; intro w; simpl.
  - rewrite app_nil_r, with_console_same. reflexivity.
  - unfold bind, console_write. rewrite IH. simpl.
    unfold with_console. simpl. now rewrite <- app_assoc.
Qed.

Lemma calc_skip (leagueID : N) (leagueSeason : string) (w : World) :
  leagueSeason <> CURRENT_SEASON w ->
  calculateLeagueStandings leagueID leagueSeason w
  = (inl (mkResult true "Not current season"),
     with_console (console w ++ [skipLine leagueSeason]) w).
Proof.
  intro Hne. apply String.eqb_neq in Hne.
  unfold calculateLeagueStandings, try_catch, bind, getCurrentSeason.
  rewrite Hne. reflexivity.
Qed.

Lemma calc_fixtures_fail (leagueID : N) (w : World) :
  hd Ok (pending w) = Fail ->
  calculateLeagueStandings leagueID (CURRENT_SEASON w) w
  = failed "Failed to fetch fixtures" (record_request (Read tblfixtures) Fail w).
Proof.
  intro Ho.
  unfold calculateLeagueStandings, try_catch, bind, getCurrentSeason, crudRequest.
  rewrite String.eqb_refl. cbv beta iota zeta. cbn [negb].
  rewrite Ho. reflexivity.
Qed.

Lemma calc_fixtures_throw (leagueID : N) (w : World) (e : string) :
  hd Ok (pending w) = Throw e ->
  calculateLeagueStandings leagueID (CURRENT_SEASON w) w
  = failed e (record_request (Read tblfixtures) (Throw e) w).
Proof.
  intro Ho.
  unfold calculateLeagueStandings, try_catch, bind, getCurrentSeason, crudRequest.
  rewrite String.eqb_refl. cbv beta iota zeta. cbn [negb].
  rewrite Ho. reflexivity.
Qed.

Lemma calc_results_fail (leagueID : N) (w : World) :
  hd Ok (pending w) = Ok -> hd Ok (tl (pending w)) = Fail ->
  calculateLeagueStandings leagueID (CURRENT_SEASON w) w
  = failed "Failed to fetch results"
      (record_request (Read tblresults) Fail
         (record_request (Read tblfixtures) Ok w)).
Proof.
  intros Ho1 Ho2.
  unfold calculateLeagueStandings, try_catch, bind, getCurrentSeason, crudRequest.
  rewrite String.eqb_refl. cbv beta iota zeta. cbn [negb].
  rewrite Ho1. simpl. rewrite Ho2. reflexivity.
Qed.

Lemma calc_results_throw (leagueID : N) (w : World) (e : string) :
  hd Ok (pending w) = Ok -> hd Ok (tl (pending w)) = Throw e ->
  calculateLeagueStandings leagueID (CURRENT_SEASON w) w
  = failed e
      (record_request (Read tblresults) (Throw e)
         (record_request (Read tblfixtures) Ok w)).
Proof.
  intros Ho1 Ho2.
  unfold calculateLeagueStandings, try_catch, bind, getCurrentSeason, crudRequest.
  rewrite String.eqb_refl. cbv beta iota zeta. cbn [negb].
  rewrite Ho1. simpl. rewrite Ho2. reflexivity.
Qed.

Lemma calc_main (leagueID : N) (w : World) :
  hd Ok (pending w) = Ok -> hd Ok (tl (pending w)) = Ok ->
  calculateLeagueStandings leagueID (CURRENT_SEASON w) w
  = let computed := computeStandings leagueID (fixturesTable w) (resultsTable w) in
    match forEachM (persistTeam leagueID) (sortedTeams (fst computed))
                   (afterReads (snd computed) w) with
    | (inl _, w') => (inl (mkResult true "Standings updated successfully"), w')
    | (inr e, w') => failed e w'
    end.
Proof.
  intros Ho1 Ho2.
  unfold calculateLeagueStandings, try_catch, bind, getCurrentSeason, crudRequest.
  rewrite String.eqb_refl. cbv beta iota zeta. cbn [negb].
  rewrite Ho1. simpl. rewrite Ho2. simpl.
  destruct (computeStandings leagueID (fixturesTable w) (resultsTable w))
    as [standings logged].
  rewrite console_write_all_run. simpl.
  unfold afterReads.
  destruct (forEachM _ _ _) as [[[] | e] w']; reflexivity.
Qed.

(** ** The teams of the computed standings *)

Lemma keys_set {A : Type} (o : JsObject.t A) (k : N) (v : A) (k' : N) :
  In k' (JsObject.keys (JsObject.set o k v)) <-> k' = k \/ In k' (JsObject.keys o).
Proof.
  induction o as [| [k0 v0] o IH]; simpl.
  - intuition.
  - destruct (k =? k0)%N eqn:E; [apply N.eqb_eq in E; subst; simpl; intuition |].
    destruct (k <? k0)%N; simpl; [intuition |].
    rewrite IH. intuition.
Qed.

Lemma HdRel_keys_set {A : Type} (o : JsObject.t A) (k : N) (v : A) (k0 : N) :
  (k0 < k)%N -> HdRel N.lt k0 (JsObject.keys o) ->
  HdRel N.lt k0 (JsObject.keys (JsObject.set o k v)).
Proof.
  intros Hlt Hhd. destruct o as [| [k1 v1] o]; simpl.
  - now constructor.
  - apply HdRel_inv in Hhd.
    destruct (k =? k1)%N; [now constructor |].
    destruct (k <? k1)%N; now constructor.
Qed.

Lemma sorted_keys_set {A : Type} (o : JsObject.t A) (k : N) (v : A) :
  Sorted N.lt (JsObject.keys o) -> Sorted N.lt (JsObject.keys (JsObject.set o k v)).
Proof.
  induction o as [| [k0 v0] o IH]; simpl; intro Hs.
  - repeat constructor.
  - apply Sorted_inv in Hs. destruct Hs as [Hs Hhd].
    destruct (k =? k0)%N eqn:E.
    + apply N.eqb_eq in E. subst. now constructor.
    + destruct (k <? k0)%N eqn:L.
      * apply N.ltb_lt in L. repeat constructor; auto.
      * apply N.ltb_ge in L. apply N.eqb_neq in E.
        simpl. constructor; [now apply IH |].
        apply HdRel_keys_set; [lia | exact Hhd].
Qed.

Lemma sorted_lt_NoDup (l : list N) : Sorted N.lt l -> NoDup l.
Proof.
  intro Hs. apply Sorted_StronglySorted in Hs; [| exact N.lt_trans].
  induction Hs as [| x l Hs IH Hall]; constructor; auto.
  intro Hin. rewrite Forall_forall in Hall. specialize (Hall x Hin). lia.
Qed.

Lemma wellKeyed_set (st : Standings) (k : N) (v : Team.t) :
  Team.teamID v = k -> wellKeyed st -> wellKeyed (JsObject.set st k v).
Proof.
  intros Hv. unfold wellKeyed.
  induction st as [| [k0 v0] st IH]; simpl; intro Hw.
  - now repeat constructor.
  - apply Forall_cons_iff in Hw. destruct Hw as [H0 Hrest].
    destruct (k =? k0)%N; [now constructor |].
    destruct (k <? k0)%N; [now repeat constructor |].
    constructor; auto.
Qed.

Lemma wellKeyed_modify (st : Standings) (k : N) (f : Team.t -> Team.t) :
  (forall x, Team.teamID (f x) = Team.teamID x) ->
  wellKeyed st -> wellKeyed (JsObject.modify st k f).
Proof.
  intros Hf Hw. unfold wellKeyed, JsObject.modify in *.
  rewrite Forall_map. eapply Forall_impl; [| exact Hw].
  intros [k0 v0] H0. simpl in *. destruct (k0 =? k)%N; simpl; [| exact H0].
  now rewrite Hf.
Qed.

Lemma wellKeyed_values (st : Standings) :
  wellKeyed st -> map Team.teamID (JsObject.values st) = JsObject.keys st.
Proof.
  unfold wellKeyed, JsObject.values, JsObject.keys. rewrite map_map.
  induction 1 as [| e st He _ IH]; simpl; congruence.
Qed.

Lemma sameTeams_refl (st : Standings) : sameTeams st st.
Proof. split; auto. Qed.

Lemma sameTeams_trans (st1 st2 st3 : Standings) :
  sameTeams st1 st2 -> sameTeams st2 st3 -> sameTeams st1 st3.
Proof. intros [K1 W1] [K2 W2]. split; [congruence | auto]. Qed.

Lemma sameTeams_modify (st : Standings) (k : N) (f : Team.t -> Team.t) :
  (forall x, Team.teamID (f x) = Team.teamID x) ->
  sameTeams st (JsObject.modify st k f).
Proof.
  intro Hf. split; [apply keys_modify | now apply wellKeyed_modify].
Qed.

Ltac same_teams :=
  repeat first
    [ apply sameTeams_refl
    | match goal with
      | |- sameTeams _ (if ?c then _ else _) => destruct c
      | |- sameTeams ?st (JsObject.modify ?st' _ _) =>
          apply (sameTeams_trans st st' _);
          [| apply sameTeams_modify; reflexivity]
      end ].

Lemma sameTeams_processFixture (st : Standings) (fixture : Fixture.t)
    (result : Result.t) :
  sameTeams st (fst (processFixture st fixture result)).
Proof.
  unfold processFixture, awardTryBonus, awardMatchPoints.
  destruct (tryCounts result) as [[homeCount awayCount] |]; cbn [fst snd];
    cbv zeta; same_teams.
Qed.

Lemma sameTeams_fixtureStep (results : JsObject.t Result.t)
    (acc : Standings * list string) (fixture : Fixture.t) :
  sameTeams (fst acc) (fst (fixtureStep results acc fixture)).
Proof.
  unfold fixtureStep.
  destruct (JsObject.get results (Fixture.id fixture)) as [result |].
  - pose proof (sameTeams_processFixture (fst acc) fixture result) as H.
    destruct (processFixture (fst acc) fixture result). exact H.
  - apply sameTeams_refl.
Qed.

Lemma sameTeams_fold (results : JsObject.t Result.t) (fixtures : list Fixture.t) :
  forall acc, sameTeams (fst acc) (fst (fold_left (fixtureStep results) fixtures acc)).
Proof.
  induction fixtures as [| f fixtures IH]; intro acc; simpl.
  - apply sameTeams_refl.
  - eapply sameTeams_trans; [apply sameTeams_fixtureStep | apply IH].
Qed.

Lemma initStandings_teams (ids : JsSet.t) :
  let st := initStandings ids in
  wellKeyed st /\ Sorted N.lt (JsObject.keys st)
  /\ (forall k, In k (JsObject.keys st) <-> In k ids).
Proof.
  unfold initStandings.
  assert (G : forall (l : JsSet.t) (st0 : Standings),
             wellKeyed st0 -> Sorted N.lt (JsObject.keys st0) ->
             let st := fold_left (fun st teamID => JsObject.set st teamID (Team.zero teamID))
                                 l st0 in
             wellKeyed st /\ Sorted N.lt (JsObject.keys st)
             /\ (forall k, In k (JsObject.keys st) <-> In k l \/ In k (JsObject.keys st0))).
  { induction l as [| x l IH]; intros st0 Hw Hs; simpl.
    - intuition.
    - destruct (IH (JsObject.set st0 x (Team.zero x))) as (W & S & K).
      + now apply wellKeyed_set.
      + now apply sorted_keys_set.
      + split; [exact W |]. split; [exact S |].
        intro k. rewrite K, keys_set. intuition. }
  destruct (G ids JsObject.empty) as (W & S & K).
  - constructor.
  - constructor.
  - split; [exact W |]. split; [exact S |].
    intro k. rewrite K. simpl. intuition.
Qed.

Lemma JsSet_add_In (s : JsSet.t) (x k : N) :
  In k (JsSet.add s x) <-> k = x \/ In k s.
Proof.
  unfold JsSet.add, JsSet.has.
  destruct (existsb (N.eqb x) s) eqn:E.
  - split; [auto |]. intros [-> | H]; [| exact H].
    apply existsb_exists in E. destruct E as (y & Hy & Exy).
    apply N.eqb_eq in Exy. now subst.
  - rewrite in_app_iff. simpl. intuition.
Qed.

Lemma teamIDs_In (fixtures : list Fixture.t) (k : N) :
  In k (teamIDs fixtures)
  <-> exists f, In f fixtures /\ (Fixture.homeTeam f = k \/ Fixture.awayTeam f = k).
Proof.
  unfold teamIDs.
  assert (G : forall (l : list Fixture.t) (s : JsSet.t),
             In k (fold_left (fun s fixture =>
                                JsSet.add (JsSet.add s (Fixture.homeTeam fixture))
                                          (Fixture.awayTeam fixture)) l s)
             <-> In k s
                 \/ exists f, In f l /\ (Fixture.homeTeam f = k \/ Fixture.awayTeam f = k)).
  { induction l as [| f l IH]; intro s; simpl.
    - split; [auto |]. intros [H | (f & [] & _)]. exact H.
    - rewrite IH, !JsSet_add_In. split.
      + intros [[-> | [-> | H]] | (f' & Hf' & H')]; eauto 6.
      + intros [H | (f' & [<- | Hf'] & H')]; [auto | | eauto 6].
        destruct H' as [<- | <-]; auto. }
  rewrite G. simpl. intuition.
Qed.

(** The accumulators after the loop: one per team of the completed fixtures
    of the league, each under its own id, the ids in ascending order. *)
Lemma computeStandings_teams (leagueID : N) (allFixtures : list Fixture.t)
    (allResults : list Result.t) :
  let st := fst (computeStandings leagueID allFixtures allResults) in
  wellKeyed st /\ Sorted N.lt (JsObject.keys st)
  /\ (forall k, In k (JsObject.keys st)
                <-> In k (teamIDs (leagueFixtures leagueID allFixtures))).
Proof.
  unfold computeStandings. cbv zeta.
  set (fixtures := leagueFixtures leagueID allFixtures).
  destruct (initStandings_teams (teamIDs fixtures)) as (W & S & K).
  destruct (sameTeams_fold (resultsMap allResults) fixtures
                           (initStandings (teamIDs fixtures), [])) as [Hk Hw].
  cbn [fst] in Hk, Hw. rewrite Hk. auto.
Qed.

Lemma get_keys {A : Type} (o : JsObject.t A) (k : N) :
  In k (JsObject.keys o) -> JsObject.get o k <> None.
Proof.
  induction o as [| [k0 v] o IH]; simpl; [tauto |].
  intros [-> | H]; [now rewrite N.eqb_refl |].
  destruct (k0 =? k)%N; [discriminate | auto].
Qed.

(** Throughout the loop over the fixtures, the two teams of each fixture
    have their accumulators: [standings[fixture.homeTeam]] and
    [standings[fixture.awayTeam]] are never [undefined]. *)
Lemma accumulators_present (results : JsObject.t Result.t)
    (fixtures done : list Fixture.t) (f : Fixture.t) :
  In f fixtures ->
  let st := fst (fold_left (fixtureStep results) done
                           (initStandings (teamIDs fixtures), [])) in
  JsObject.get st (Fixture.homeTeam f) <> None
  /\ JsObject.get st (Fixture.awayTeam f) <> None.
Proof.
  intros Hf st.
  destruct (initStandings_teams (teamIDs fixtures)) as (_ & _ & K).
  destruct (sameTeams_fold results done (initStandings (teamIDs fixtures), []))
    as [Hk _].
  cbn [fst] in Hk. fold st in Hk.
  split; apply get_keys; rewrite Hk; apply K, teamIDs_In; exists f; auto.
Qed.

Lemma js_sort_teamIDs (teams : list Team.t) :
  Permutation (map Team.teamID teams) (map Team.teamID (js_sort compareTeams teams)).
Proof. apply Permutation_map, js_sort_perm. Qed.

Lemma assignPositions_teamIDs (teams : list Team.t) :
  map Team.teamID (assignPositions teams) = map Team.teamID teams.
Proof.
  unfold assignPositions, mapi. generalize 0%nat.
  induction teams as [| x teams IH]; intro k; simpl; [reflexivity |].
  now rewrite IH.
Qed.

(** The ranked teams are the teams of the completed fixtures of the league,
    each once. *)
Lemma rankedTeams_teamIDs (leagueID : N) (allFixtures : list Fixture.t)
    (allResults : list Result.t) :
  let ranked := rankedTeams leagueID allFixtures allResults in
  NoDup (map Team.teamID ranked)
  /\ (forall k, In k (map Team.teamID ranked)
                <-> In k (teamIDs (leagueFixtures leagueID allFixtures))).
Proof.
  unfold rankedTeams, sortedTeams. cbv zeta.
  destruct (computeStandings_teams leagueID allFixtures allResults) as (W & S & K).
  set (st := fst (computeStandings leagueID allFixtures allResults)) in *.
  rewrite assignPositions_teamIDs.
  pose proof (js_sort_teamIDs (JsObject.values st)) as P.
  rewrite (wellKeyed_values st W) in P.
  split.
  - eapply Permutation_NoDup; [exact P |]. now apply sorted_lt_NoDup.
  - intro k. rewrite <- K. split; intro H.
    + eapply Permutation_in; [apply Permutation_sym, P | exact H].
    + eapply Permutation_in; [exact P | exact H].
Qed.

(** ** One team of the persistence loop *)

Lemma persistTeam_run (leagueID : N) (team : Team.t) (w : World) :
  let o1 := hd Ok (pending w) in
  let w1 := record_request (Read tblstandings) o1 w in
  let req := writeRequest leagueID team (visibleRows o1 (standingsTable w)) in
  let o2 := hd Ok (pending w1) in
  let w2 := record_request req o2 w1 in
  persistTeam leagueID team w
  = match o1 with
    | Throw e => (inr e, w1)
    | _ =>
        match o2 with
        | Ok => (inl tt, with_standings (apply_write req (standingsTable w)) w2)
        | Fail => (inl tt, w2)
        | Throw e => (inr e, w2)
        end
    end.
Proof.
  cbv zeta. unfold persistTeam, bind, crudRequest, writeRequest, visibleRows.
  destruct (hd Ok (pending w)) as [| | e] eqn:Ho1; simpl; [| | reflexivity].
  - destruct (find _ (standingsTable w)) as [existing |]; simpl;
      destruct (hd Ok (tl (pending w))) as [| | e2]; reflexivity.
  - destruct (hd Ok (tl (pending w))) as [| | e2]; reflexivity.
Qed.

(** ** The rows of the standings table *)

Lemma ids_update_rows (i : N) (d : Standing.data) (rows : list Standing.t) :
  map Standing.id (update_rows i d rows) = map Standing.id rows.
Proof.
  unfold update_rows. rewrite map_map. apply map_ext.
  intro s. now destruct (Standing.id s =? i)%N.
Qed.

Lemma ids_below_fresh (rows : list Standing.t) (i : N) :
  In i (map Standing.id rows) -> (i < fresh_id rows)%N.
Proof.
  unfold fresh_id. induction rows as [| s rows IH]; simpl; [tauto |].
  intros [<- | H]; [lia |]. specialize (IH H). lia.
Qed.

Lemma primaryKey_apply_write (req : Request) (rows : list Standing.t) :
  primaryKey rows -> primaryKey (apply_write req rows).
Proof.
  unfold primaryKey. intro Hk. destruct req as [t | d | d i]; simpl.
  - exact Hk.
  - rewrite map_app. simpl.
    apply NoDup_app; [exact Hk | repeat constructor; simpl; tauto |].
    intros x Hx [<- | []]. apply ids_below_fresh in Hx. lia.
  - now rewrite ids_update_rows.
Qed.

Lemma primaryKey_inj (rows : list Standing.t) (a b : Standing.t) :
  primaryKey rows -> In a rows -> In b rows -> Standing.id a = Standing.id b -> a = b.
Proof.
  unfold primaryKey. induction rows as [| s rows IH]; simpl; [tauto |].
  intros Hk Ha Hb Hid. apply NoDup_cons_iff in Hk. destruct Hk as [Hs Hk].
  destruct Ha as [<- | Ha], Hb as [<- | Hb]; auto.
  - exfalso. apply Hs. rewrite Hid. now apply in_map.
  - exfalso. apply Hs. rewrite <- Hid. now apply in_map.
Qed.

Lemma find_update_rows (p : Standing.t -> bool) (i : N) (d : Standing.data)
    (rows : list Standing.t) :
  (forall s, In s rows -> Standing.id s = i -> p s = p (Standing.mk i d)) ->
  find p (update_rows i d rows)
  = option_map (fun s => if (Standing.id s =? i)%N then Standing.mk (Standing.id s) d else s)
               (find p rows).
Proof.
  induction rows as [| s rows IH]; simpl; intro Hp; [reflexivity |].
  destruct (Standing.id s =? i)%N eqn:E.
  - apply N.eqb_eq in E. rewrite E. rewrite <- (Hp s (or_introl eq_refl) E).
    destruct (p s); simpl.
    + now rewrite E, N.eqb_refl.
    + apply IH. intros s' Hs'. apply Hp. now right.
  - destruct (p s); simpl.
    + now rewrite E.
    + apply IH. intros s' Hs'. apply Hp. now right.
Qed.

Lemma update_rows_same (rows : list Standing.t) (e : Standing.t) :
  primaryKey rows -> In e rows ->
  update_rows (Standing.id e) (Standing.fields e) rows = rows.
Proof.
  intros Hk He. unfold update_rows.
  rewrite <- (map_id rows) at 2. apply map_ext_in.
  intros s Hs. destruct (Standing.id s =? Standing.id e)%N eqn:E; [| reflexivity].
  apply N.eqb_eq in E. rewrite (primaryKey_inj rows s e Hk Hs He E).
  now destruct e.
Qed.

Lemma filter_update_rows (p : Standing.t -> bool) (i : N) (d : Standing.data)
    (rows : list Standing.t) :
  p (Standing.mk i d) = false ->
  (forall s, In s rows -> Standing.id s = i -> p s = false) ->
  filter p (update_rows i d rows) = filter p rows.
Proof.
  intro Hnew. induction rows as [| s rows IH]; simpl; intro Hp; [reflexivity |].
  rewrite IH by (intros s' Hs'; apply Hp; now right).
  destruct (Standing.id s =? i)%N eqn:E; [| reflexivity].
  apply N.eqb_eq in E. rewrite E, Hnew. now rewrite (Hp s (or_introl eq_refl) E).
Qed.

Lemma find_app {A : Type} (p : A -> bool) (l l' : list A) :
  find p (l ++ l') = match find p l with Some x => Some x | None => find p l' end.
Proof.
  induction l as [| x l IH]; simpl; [reflexivity |]. now destruct (p x).
Qed.

Lemma isStandingOf_data (leagueID k : N) (i : N) (team : Team.t) :
  isStandingOf leagueID k (Standing.mk i (standingData leagueID team))
  = (Team.teamID team =? k)%N.
Proof. unfold isStandingOf. simpl. now rewrite N.eqb_refl. Qed.

Lemma isStandingOf_other (leagueID k k' : N) (s : Standing.t) :
  isStandingOf leagueID k s = true -> k <> k' -> isStandingOf leagueID k' s = false.
Proof.
  unfold isStandingOf. intros H Hne.
  apply andb_true_iff in H. destruct H as [_ H]. apply N.eqb_eq in H.
  apply andb_false_iff. right. apply N.eqb_neq. congruence.
Qed.

(** ** The upsert of one team *)

Lemma upsert_apply_write (leagueID : N) (rows : list Standing.t) (team : Team.t) :
  upsert leagueID rows team = apply_write (writeRequest leagueID team rows) rows.
Proof.
  unfold upsert, writeRequest.
  now destruct (find (isStandingOf leagueID (Team.teamID team)) rows).
Qed.

Lemma primaryKey_upsert (leagueID : N) (rows : list Standing.t) (team : Team.t) :
  primaryKey rows -> primaryKey (upsert leagueID rows team).
Proof. rewrite upsert_apply_write. apply primaryKey_apply_write. Qed.

(** A row that already holds the computed columns is written back as it is. *)
Lemma upsert_settled (leagueID : N) (rows : list Standing.t) (team : Team.t) :
  primaryKey rows -> settled leagueID rows team -> upsert leagueID rows team = rows.
Proof.
  intros Hk (e & Hfind & Hfields). unfold upsert. rewrite Hfind, <- Hfields.
  apply update_rows_same; [exact Hk |].
  now apply find_some in Hfind.
Qed.

Lemma upsert_settles (leagueID : N) (rows : list Standing.t) (team : Team.t) :
  primaryKey rows -> settled leagueID (upsert leagueID rows team) team.
Proof.
  intro Hk. unfold upsert, settled.
  destruct (find (isStandingOf leagueID (Team.teamID team)) rows) as [e |] eqn:Hfind.
  - destruct (find_some _ _ Hfind) as [He Hp].
    rewrite find_update_rows.
    + rewrite Hfind. simpl. rewrite N.eqb_refl. eexists. split; reflexivity.
    + intros s Hs Hid.
      rewrite (primaryKey_inj rows s e Hk Hs He Hid), Hp.
      now rewrite isStandingOf_data, N.eqb_refl.
  - rewrite find_app, Hfind. simpl.
    rewrite isStandingOf_data, N.eqb_refl. eexists. split; reflexivity.
Qed.

Lemma upsert_keeps (leagueID : N) (rows : list Standing.t) (team other : Team.t) :
  primaryKey rows -> Team.teamID team <> Team.teamID other ->
  settled leagueID rows other -> settled leagueID (upsert leagueID rows team) other.
Proof.
  intros Hk Hne (e0 & Hfind0 & Hfields0). unfold upsert, settled.
  destruct (find_some _ _ Hfind0) as [He0 Hp0].
  destruct (find (isStandingOf leagueID (Team.teamID team)) rows) as [e |] eqn:Hfind.
  - destruct (find_some _ _ Hfind) as [He Hp].
    assert (Hpe : isStandingOf leagueID (Team.teamID other) e = false)
      by (eapply isStandingOf_other; eauto).
    rewrite find_update_rows.
    + rewrite Hfind0. simpl.
      destruct (Standing.id e0 =? Standing.id e)%N eqn:E.
      * apply N.eqb_eq in E.
        rewrite (primaryKey_inj rows e0 e Hk He0 He E) in Hp0. congruence.
      * exists e0. auto.
    + intros s Hs Hid.
      rewrite (primaryKey_inj rows s e Hk Hs He Hid), Hpe.
      rewrite isStandingOf_data. symmetry. now apply N.eqb_neq.
  - rewrite find_app, Hfind0. exists e0. auto.
Qed.

(** After the rows of a list of distinct teams were upserted, each of them
    is settled. *)
Lemma upsert_all_settles (leagueID : N) (teams : list Team.t) :
  NoDup (map Team.teamID teams) ->
  forall rows,
    primaryKey rows ->
    let rows' := fold_left (upsert leagueID) teams rows in
    primaryKey rows'
    /\ (forall team, In team teams -> settled leagueID rows' team)
    /\ (forall other, ~ In (Team.teamID other) (map Team.teamID teams) ->
                      settled leagueID rows other -> settled leagueID rows' other).
Proof.
  induction teams as [| team teams IH]; intros Hnd rows Hk; simpl.
  - repeat split; [exact Hk | tauto | auto].
  - simpl in Hnd. apply NoDup_cons_iff in Hnd. destruct Hnd as [Hnotin Hnd].
    destruct (IH Hnd (upsert leagueID rows team) (primaryKey_upsert _ _ _ Hk))
      as (Hk' & Hin & Hout).
    split; [exact Hk' |]. split.
    + intros t [<- | Ht]; [| now apply Hin].
      apply Hout; [exact Hnotin | now apply upsert_settles].
    + intros other Hother Hs. apply Hout; [tauto |].
      apply upsert_keeps; auto.
Qed.

Lemma upsert_all_settled (leagueID : N) (teams : list Team.t) (rows : list Standing.t) :
  primaryKey rows ->
  (forall team, In team teams -> settled leagueID rows team) ->
  fold_left (upsert leagueID) teams rows = rows.
Proof.
  intros Hk. induction teams as [| team teams IH]; intro Hs; simpl; [reflexivity |].
  rewrite upsert_settled; [| exact Hk | apply Hs; now left].
  apply IH. intros t Ht. apply Hs. now right.
Qed.

(** ** The persistence loop when every request succeeds *)

Lemma persist_all_ok (leagueID : N) (teams : list Team.t) :
  forall w,
    pending w = [] ->
    exists w',
      forEachM (persistTeam leagueID) teams w = (inl tt, w')
      /\ standingsTable w' = fold_left (upsert leagueID) teams (standingsTable w)
      /\ pending w' = []
      /\ CURRENT_SEASON w' = CURRENT_SEASON w
      /\ fixturesTable w' = fixturesTable w
      /\ resultsTable w' = resultsTable w.
Proof.
  induction teams as [| team teams IH]; intros w Hp; simpl.
  - exists w. now repeat split.
  - unfold bind. rewrite persistTeam_run. cbv zeta. simpl.
    rewrite Hp. simpl.
    set (w1 := with_standings _ _).
    assert (Hp1 : pending w1 = []) by (subst w1; simpl; now rewrite Hp).
    destruct (IH w1 Hp1) as (w' & Hrun & Hrows & Hp' & Hs & Hf & Hr).
    exists w'. rewrite Hrun. split; [reflexivity |].
    subst w1. simpl in *. rewrite Hrows, upsert_apply_write. auto.
Qed.

(** C2 (amended). When every request to the DataStore succeeds and row ids
    are unique, a second run of [calculateLeagueStandings] for the same league and
    season, on the tables that the first run left, leaves the standings
    table exactly as the first run left it: each team's row is found again
    and overwritten with the same freshly computed totals, and no row is
    added. The fixtures and results tables are the same for both runs. *)
Theorem recalculation_idempotent (leagueID : N) (leagueSeason : string) (w : World) :
  primaryKey (standingsTable w) ->
  pending w = [] ->
  let w1 := snd (calculateLeagueStandings leagueID leagueSeason w) in
  let w2 := snd (calculateLeagueStandings leagueID leagueSeason w1) in
  fixturesTable w1 = fixturesTable w
  /\ resultsTable w1 = resultsTable w
  /\ standingsTable w2 = standingsTable w1
  /\ fst (calculateLeagueStandings leagueID leagueSeason w1)
     = fst (calculateLeagueStandings leagueID leagueSeason w).
Proof.
  intros Hk Hp. cbv zeta.
  destruct (string_dec leagueSeason (CURRENT_SEASON w)) as [-> | Hne].
  - rewrite (calc_main leagueID w) by (rewrite Hp; reflexivity).
    cbv zeta.
    set (teams := sortedTeams (fst (computeStandings leagueID (fixturesTable w)
                                                     (resultsTable w)))).
    destruct (persist_all_ok leagueID teams
                (afterReads (snd (computeStandings leagueID (fixturesTable w)
                                                   (resultsTable w))) w))
      as (w1 & Hrun & Hrows & Hp1 & Hs1 & Hf1 & Hr1).
    { simpl. now rewrite Hp. }
    rewrite Hrun. cbn [fst snd]. simpl in Hrows, Hs1, Hf1, Hr1.
    rewrite <- Hs1.
    rewrite (calc_main leagueID w1) by (rewrite Hp1; reflexivity).
    cbv zeta. rewrite Hf1, Hr1. fold teams.
    destruct (persist_all_ok leagueID teams
                (afterReads (snd (computeStandings leagueID (fixturesTable w)
                                                   (resultsTable w))) w1))
      as (w2 & Hrun2 & Hrows2 & _).
    { simpl. now rewrite Hp1. }
    rewrite Hrun2. cbn [fst snd]. simpl in Hrows2.
    repeat split; auto.
    rewrite Hrows2.
    destruct (rankedTeams_teamIDs leagueID (fixturesTable w) (resultsTable w))
      as [Hnd _].
    destruct (upsert_all_settles leagueID teams Hnd (standingsTable w) Hk)
      as (Hk1 & Hsettled & _).
    rewrite <- Hrows in Hk1, Hsettled.
    now apply upsert_all_settled.
  - rewrite (calc_skip leagueID leagueSeason w Hne). cbn [fst snd].
    rewrite calc_skip by exact Hne. cbn [fst snd]. simpl. auto.
Qed.

(** ** The season gate and the table reads *)

(** C5. Called with a season other than the configured current season,
    [calculateLeagueStandings] returns success with the message
    "Not current season" and sends no request at all: the three tables, the
    trace of requests and the outcomes still to come are as before; only a
    line is written to the console. *)
Theorem season_gate (leagueID : N) (leagueSeason : string) (w : World) :
  leagueSeason <> CURRENT_SEASON w ->
  exists w',
    calculateLeagueStandings leagueID leagueSeason w
    = (inl (mkResult true "Not current season"), w')
    /\ fixturesTable w' = fixturesTable w
    /\ resultsTable w' = resultsTable w
    /\ standingsTable w' = standingsTable w
    /\ trace w' = trace w
    /\ pending w' = pending w
    /\ console w' = console w ++ [skipLine leagueSeason].
Proof.
  intro Hne. rewrite (calc_skip leagueID leagueSeason w Hne).
  eexists. split; [reflexivity |]. simpl. now repeat split.
Qed.

(** C6. In the current season, when the read of the fixtures or the read of
    the results comes back with an unsuccessful status, the run stops at
    that request: it returns [success = false] with the message of the error
    raised for that read ("Failed to fetch fixtures", "Failed to fetch
    results"), no later request is sent, no create or update is sent, and
    the standings table is as before. *)
Theorem read_failure_aborts (leagueID : N) (w : World) :
  hd Ok (pending w) = Fail
  \/ (hd Ok (pending w) = Ok /\ hd Ok (tl (pending w)) = Fail) ->
  exists message w',
    calculateLeagueStandings leagueID (CURRENT_SEASON w) w
    = (inl (mkResult false message), w')
    /\ (hd Ok (pending w) = Fail ->
        message = "Failed to fetch fixtures"
        /\ trace w' = trace w ++ [(Read tblfixtures, Fail)])
    /\ (hd Ok (pending w) = Ok ->
        message = "Failed to fetch results"
        /\ trace w' = trace w ++ [(Read tblfixtures, Ok); (Read tblresults, Fail)])
    /\ writes (trace w') = writes (trace w)
    /\ standingsTable w' = standingsTable w
    /\ fixturesTable w' = fixturesTable w
    /\ resultsTable w' = resultsTable w.
Proof.
  intros [H1 | [H1 H2]].
  - rewrite (calc_fixtures_fail leagueID w H1). unfold failed.
    do 2 eexists. split; [reflexivity |]. simpl.
    split; [auto |]. split; [congruence |].
    unfold writes. rewrite flat_map_app. simpl. now rewrite app_nil_r.
  - rewrite (calc_results_fail leagueID w H1 H2). unfold failed.
    do 2 eexists. split; [reflexivity |]. simpl.
    split; [congruence |]. split; [now rewrite <- app_assoc |].
    unfold writes. rewrite !flat_map_app. simpl. now rewrite !app_nil_r.
Qed.

(** ** The persistence loop when no request throws *)

Lemma writes_app (tr tr' : list (Request * Outcome)) :
  writes (tr ++ tr') = writes tr ++ writes tr'.
Proof. unfold writes. apply flat_map_app. Qed.

Lemma writes_writeRequest (leagueID : N) (team : Team.t) (visible : list Standing.t)
    (o1 o2 : Outcome) :
  writes [(Read tblstandings, o1); (writeRequest leagueID team visible, o2)]
  = [standingData leagueID team].
Proof.
  unfold writes, writeRequest. simpl.
  now destruct (find (isStandingOf leagueID (Team.teamID team)) visible).
Qed.

Lemma noThrow_hd (l : list Outcome) : Forall noThrow l -> noThrow (hd Ok l).
Proof. intro H. destruct H; simpl; auto. Qed.

Lemma noThrow_tl (l : list Outcome) : Forall noThrow l -> Forall noThrow (tl l).
Proof. intro H. destruct H; simpl; auto. Qed.

Lemma persistTeam_noThrow (leagueID : N) (team : Team.t) (w : World) :
  Forall noThrow (pending w) ->
  exists w' new,
    persistTeam leagueID team w = (inl tt, w')
    /\ trace w' = trace w ++ new
    /\ writes new = [standingData leagueID team]
    /\ console w' = console w
    /\ Forall noThrow (pending w').
Proof.
  intro Hnt. rewrite persistTeam_run. cbv zeta.
  pose proof (noThrow_hd _ Hnt) as H1.
  pose proof (noThrow_hd _ (noThrow_tl _ Hnt)) as H2.
  pose proof (noThrow_tl _ (noThrow_tl _ Hnt)) as H3.
  simpl pending.
  destruct (hd Ok (pending w)) as [| | e1]; [| | contradiction];
    (destruct (hd Ok (tl (pending w))) as [| | e2]; [| | contradiction]);
    do 2 eexists; (split; [reflexivity |]); simpl;
    rewrite <- app_assoc; (split; [reflexivity |]);
    (split; [apply writes_writeRequest |]); auto.
Qed.

Lemma persist_all_noThrow (leagueID : N) (teams : list Team.t) :
  forall w,
    Forall noThrow (pending w) ->
    exists w' new,
      forEachM (persistTeam leagueID) teams w = (inl tt, w')
      /\ trace w' = trace w ++ new
      /\ writes new = map (standingData leagueID) teams
      /\ console w' = console w.
Proof.
  induction teams as [| team teams IH]; intros w Hnt; simpl.
  - exists w, []. rewrite app_nil_r. now repeat split.
  - destruct (persistTeam_noThrow leagueID team w Hnt)
      as (w1 & new1 & Hrun1 & Htr1 & Hw1 & Hc1 & Hnt1).
    destruct (IH w1 Hnt1) as (w' & new & Hrun & Htr & Hw & Hc).
    exists w', (new1 ++ new). unfold bind. rewrite Hrun1, Hrun.
    split; [reflexivity |].
    rewrite Htr, Htr1, <- app_assoc, writes_app, Hw1, Hw, Hc, Hc1.
    now repeat split.
Qed.

Lemma endsWithThrow_not_noThrow (new : list (Request * Outcome)) (e : string) :
  endsWithThrow new e -> ~ Forall noThrow (map snd new).
Proof.
  intros (before & req & -> & _) Hall.
  rewrite map_app, Forall_app in Hall. destruct Hall as [_ Hall].
  apply Forall_cons_iff in Hall. simpl in Hall. tauto.
Qed.

Lemma endsWithThrow_app (before new : list (Request * Outcome)) (e : string) :
  Forall noThrow (map snd before) -> endsWithThrow new e ->
  endsWithThrow (before ++ new) e.
Proof.
  intros Hb (mid & req & -> & Hmid).
  exists (before ++ mid), req. rewrite app_assoc. split; [reflexivity |].
  rewrite map_app. apply Forall_app. auto.
Qed.

Lemma persistTeam_throwsLast (leagueID : N) (team : Team.t) (w : World) :
  exists new,
    trace (snd (persistTeam leagueID team w)) = trace w ++ new
    /\ throwsLast (fst (persistTeam leagueID team w)) new.
Proof.
  rewrite persistTeam_run. cbv zeta. cbn [pending record_request].
  destruct (hd Ok (pending w)) as [| | e1];
    [destruct (hd Ok (tl (pending w))) as [| | e2]
    |destruct (hd Ok (tl (pending w))) as [| | e2]
    |];
    cbn [fst snd trace record_request with_standings throwsLast];
    rewrite <- ?app_assoc; cbn [app];
    eexists; (split; [reflexivity |]);
    try (repeat constructor; fail).
  - eexists [_], _. split; [reflexivity | repeat constructor].
  - eexists [_], _. split; [reflexivity | repeat constructor].
  - eexists [], _. split; [reflexivity | constructor].
Qed.

Lemma persist_all_throwsLast (leagueID : N) (teams : list Team.t) :
  forall w,
  exists new,
    trace (snd (forEachM (persistTeam leagueID) teams w)) = trace w ++ new
    /\ throwsLast (fst (forEachM (persistTeam leagueID) teams w)) new.
Proof.
  induction teams as [| team teams IH]; intro w; simpl.
  - exists []. rewrite app_nil_r. split; [reflexivity | constructor].
  - unfold bind.
    destruct (persistTeam_throwsLast leagueID team w) as (new1 & Htr1 & H1).
    destruct (persistTeam leagueID team w) as [[[] | e] w1]; simpl in *.
    + destruct (IH w1) as (new & Htr & H).
      exists (new1 ++ new). rewrite Htr, Htr1, app_assoc. split; [reflexivity |].
      destruct (fst (forEachM (persistTeam leagueID) teams w1)); simpl in *.
      * rewrite map_app. apply Forall_app. auto.
      * now apply endsWithThrow_app.
    + exists new1. auto.
Qed.

(** A request that throws is the last request of the run, and the run
    returns [success = false] with the message of its error. *)
Lemma throw_aborts (leagueID : N) (leagueSeason : string) (w : World)
    (new : list (Request * Outcome)) (e : string) :
  trace (snd (calculateLeagueStandings leagueID leagueSeason w)) = trace w ++ new ->
  endsWithThrow new e ->
  fst (calculateLeagueStandings leagueID leagueSeason w) = inl (mkResult false e).
Proof.
  intros Htr Hthrow.
  pose proof (endsWithThrow_not_noThrow new e Hthrow) as Hnot.
  assert (Hsame : forall new', trace w ++ new' = trace w ++ new -> new = new')
    by (intros new' H; now apply app_inv_head in H).
  assert (Hlast : forall init req e',
             new = init ++ [(req, Throw e')] -> e' = e).
  { intros init req e' ->. destruct Hthrow as (before & req0 & Heq & _).
    apply app_inj_tail in Heq. destruct Heq as [_ Heq]. congruence. }
  destruct (string_dec leagueSeason (CURRENT_SEASON w)) as [-> | Hne].
  - destruct (hd Ok (pending w)) as [| | e1] eqn:H1.
    + destruct (hd Ok (tl (pending w))) as [| | e2] eqn:H2.
      * rewrite (calc_main leagueID w H1 H2) in *. cbv zeta in *.
        set (computed := computeStandings leagueID (fixturesTable w) (resultsTable w)) in *.
        destruct (persist_all_throwsLast leagueID (sortedTeams (fst computed))
                                         (afterReads (snd computed) w))
          as (new' & Htr' & Hres).
        destruct (forEachM _ _ _) as [[[] | e'] w']; simpl in *;
          rewrite Htr', <- !app_assoc in Htr; simpl in Htr;
          apply Hsame in Htr.
        -- exfalso. apply Hnot. rewrite Htr. simpl. repeat constructor. exact Hres.
        -- destruct Hres as (before' & req' & -> & _).
           rewrite (Hlast ((Read tblfixtures, Ok) :: (Read tblresults, Ok) :: before')
                          req' e' Htr).
           reflexivity.
      * rewrite (calc_results_fail leagueID w H1 H2) in *. simpl in *.
        rewrite <- !app_assoc in Htr. simpl in Htr. apply Hsame in Htr.
        exfalso. apply Hnot. rewrite Htr. repeat constructor.
      * rewrite (calc_results_throw leagueID w e2 H1 H2) in *. simpl in *.
        rewrite <- !app_assoc in Htr. simpl in Htr. apply Hsame in Htr.
        now rewrite (Hlast [(Read tblfixtures, Ok)] (Read tblresults) e2 Htr).
    + rewrite (calc_fixtures_fail leagueID w H1) in *. simpl in *.
      apply Hsame in Htr.
      exfalso. apply Hnot. rewrite Htr. repeat constructor.
    + rewrite (calc_fixtures_throw leagueID w e1 H1) in *. simpl in *.
      apply Hsame in Htr.
      now rewrite (Hlast [] (Read tblfixtures) e1 Htr).
  - rewrite (calc_skip leagueID leagueSeason w Hne) in *. simpl in *.
    rewrite <- (app_nil_r (trace w)) in Htr at 1. apply Hsame in Htr.
    exfalso. apply Hnot. rewrite Htr. constructor.
Qed.

(** C7 (amended). Once the fixtures and the results were read, a create or
    update that comes back with a failure status does not stop the
    persistence loop: as long as no request throws, every ranked team gets
    its write request, in ranking order, nothing is written to the console
    about a failed write, and the run returns [success = true] with
    "Standings updated successfully". A request that throws is not caught
    per team: it is the last request of the run, which returns
    [success = false] with the message of the error. *)
Theorem write_failures_ignored (leagueID : N) (w : World) :
  (hd Ok (pending w) = Ok ->
   hd Ok (tl (pending w)) = Ok ->
   Forall noThrow (pending w) ->
   exists w' new,
     calculateLeagueStandings leagueID (CURRENT_SEASON w) w
     = (inl (mkResult true "Standings updated successfully"), w')
     /\ trace w'
        = trace w ++ [(Read tblfixtures, Ok); (Read tblresults, Ok)] ++ new
     /\ writes new
        = map (standingData leagueID)
              (rankedTeams leagueID (fixturesTable w) (resultsTable w))
     /\ console w'
        = console w ++ snd (computeStandings leagueID (fixturesTable w) (resultsTable w)))
  /\ (forall new e,
         trace (snd (calculateLeagueStandings leagueID (CURRENT_SEASON w) w))
         = trace w ++ new ->
         endsWithThrow new e ->
         fst (calculateLeagueStandings leagueID (CURRENT_SEASON w) w)
         = inl (mkResult false e)).
Proof.
  split; [| intros new e; apply throw_aborts].
  intros H1 H2 Hnt. rewrite (calc_main leagueID w H1 H2). cbv zeta.
  set (computed := computeStandings leagueID (fixturesTable w) (resultsTable w)).
  destruct (persist_all_noThrow leagueID (sortedTeams (fst computed))
                                (afterReads (snd computed) w))
    as (w' & new & Hrun & Htr & Hw & Hc).
  { simpl. now apply noThrow_tl, noThrow_tl. }
  exists w', new. rewrite Hrun. split; [reflexivity |].
  simpl in Htr, Hc. rewrite Htr, Hc, <- !app_assoc. simpl.
  split; [reflexivity |]. split; [exact Hw | reflexivity].
Qed.

(** ** Malformed scorer data *)


(** The outer [try]/[catch]: a run always returns a result, it never throws. *)
Lemma calc_total (leagueID : N) (leagueSeason : string) (w : World) :
  exists result w', calculateLeagueStandings leagueID leagueSeason w = (inl result, w').
Proof.
  unfold calculateLeagueStandings, try_catch.
  match goal with |- context [match ?m w with _ => _ end] => destruct (m w) as [[r | e] w'] end.
  - eauto.
  - unfold bind, console_write, ret. eauto.
Qed.


(** ** The frame of a run *)

Lemma forEachM_preserves {A : Type} (I : World -> Prop) (body : A -> M unit)
    (xs : list A) :
  (forall x w, In x xs -> I w -> I (snd (body x w))) ->
  forall w, I w -> I (snd (forEachM body xs w)).
Proof.
  induction xs as [| x xs IH]; intros Hstep w Hw; simpl; [exact Hw |].
  unfold bind.
  pose proof (Hstep x w (or_introl eq_refl) Hw) as H1.
  destruct (body x w) as [[[] | e] w1]; simpl in *; [| exact H1].
  apply IH; [| exact H1]. intros y w0 Hy. apply Hstep. now right.
Qed.

(** A property of the world that the console and the table reads do not
    disturb, and that every step of the persistence loop keeps, is kept by
    the run. *)
Lemma calc_preserves (I : World -> Prop) (leagueID : N) (leagueSeason : string)
    (w : World) :
  (forall w0 lines, I w0 -> I (with_console lines w0)) ->
  (forall w0 table o, I w0 -> I (record_request (Read table) o w0)) ->
  (forall team w0,
      In team (rankedTeams leagueID (fixturesTable w) (resultsTable w)) ->
      I w0 -> I (snd (persistTeam leagueID team w0))) ->
  I w -> I (snd (calculateLeagueStandings leagueID leagueSeason w)).
Proof.
  intros Hconsole Hread Hstep Hw.
  destruct (string_dec leagueSeason (CURRENT_SEASON w)) as [-> | Hne].
  - destruct (hd Ok (pending w)) as [| | e1] eqn:H1.
    + destruct (hd Ok (tl (pending w))) as [| | e2] eqn:H2.
      * rewrite (calc_main leagueID w H1 H2). cbv zeta.
        pose proof (forEachM_preserves I (persistTeam leagueID)
                      (rankedTeams leagueID (fixturesTable w) (resultsTable w))
                      Hstep) as Hloop.
        unfold rankedTeams in Hloop.
        specialize (Hloop (afterReads (snd (computeStandings leagueID (fixturesTable w)
                                                           (resultsTable w))) w)).
        destruct (forEachM _ _ _) as [[[] | e] w']; simpl in *.
        -- apply Hloop. unfold afterReads. auto.
        -- apply Hconsole, Hloop. unfold afterReads. auto.
      * rewrite (calc_results_fail leagueID w H1 H2). simpl. auto.
      * rewrite (calc_results_throw leagueID w e2 H1 H2). simpl. auto.
    + rewrite (calc_fixtures_fail leagueID w H1). simpl. auto.
    + rewrite (calc_fixtures_throw leagueID w e1 H1). simpl. auto.
  - rewrite (calc_skip leagueID leagueSeason w Hne). simpl. auto.
Qed.

Lemma teamIDs_completed (leagueID : N) (fixtures : list Fixture.t) (k : N) :
  In k (teamIDs (leagueFixtures leagueID fixtures))
  <-> inCompletedFixture leagueID fixtures k.
Proof.
  rewrite teamIDs_In. unfold inCompletedFixture, leagueFixtures, Completed.
  split; intros (f & Hf & Hk); exists f.
  - apply filter_In in Hf. destruct Hf as [Hf Hc].
    apply andb_true_iff in Hc. destruct Hc as [Hl Hs].
    apply N.eqb_eq in Hl. apply Z.eqb_eq in Hs. auto.
  - destruct Hk as (Hl & Hs & Hk). split; [| exact Hk].
    apply filter_In. split; [exact Hf |].
    apply andb_true_iff. split; [now apply N.eqb_eq | now apply Z.eqb_eq].
Qed.

Lemma JsSet_has_In (s : JsSet.t) (k : N) : JsSet.has s k = true <-> In k s.
Proof.
  unfold JsSet.has. rewrite existsb_exists. split.
  - intros (y & Hy & E). apply N.eqb_eq in E. now subst.
  - intro H. exists k. split; [exact H | apply N.eqb_refl].
Qed.

Lemma untouchable_data (leagueID : N) (teams : JsSet.t) (team : Team.t) (i : N) :
  In (Team.teamID team) teams ->
  untouchable leagueID teams (Standing.mk i (standingData leagueID team)) = false.
Proof.
  intro Hin. unfold untouchable, concerns. simpl.
  rewrite N.eqb_refl. apply JsSet_has_In in Hin. now rewrite Hin.
Qed.

Lemma untouchable_found (leagueID : N) (teams : JsSet.t) (k : N) (s : Standing.t) :
  In k teams -> isStandingOf leagueID k s = true ->
  untouchable leagueID teams s = false.
Proof.
  intros Hin Hs. unfold isStandingOf in Hs. apply andb_true_iff in Hs.
  destruct Hs as [Hl Ht]. apply N.eqb_eq in Ht.
  unfold untouchable, concerns. rewrite Hl, Ht.
  apply JsSet_has_In in Hin. now rewrite Hin.
Qed.

Lemma untouched_apply_write (leagueID : N) (teams : JsSet.t) (team : Team.t)
    (o : Outcome) (rows : list Standing.t) :
  primaryKey rows -> In (Team.teamID team) teams ->
  filter (untouchable leagueID teams)
         (apply_write (writeRequest leagueID team (visibleRows o rows)) rows)
  = filter (untouchable leagueID teams) rows.
Proof.
  intros Hk Hin. unfold writeRequest.
  destruct (find _ (visibleRows o rows)) as [e |] eqn:Hfind; simpl.
  - assert (Hvis : visibleRows o rows = rows).
    { destruct o; simpl in *; try discriminate; reflexivity. }
    rewrite Hvis in Hfind. destruct (find_some _ _ Hfind) as [He Hp].
    apply filter_update_rows.
    + now apply untouchable_data.
    + intros s Hs Hid. rewrite (primaryKey_inj rows s e Hk Hs He Hid).
      eapply untouchable_found; eauto.
  - rewrite filter_app. simpl.
    rewrite untouchable_data by exact Hin. apply app_nil_r.
Qed.

(** The world after one step of the persistence loop. *)
Lemma persistTeam_effect (leagueID : N) (team : Team.t) (w0 : World) :
  let w' := snd (persistTeam leagueID team w0) in
  fixturesTable w' = fixturesTable w0
  /\ resultsTable w' = resultsTable w0
  /\ exists o1 o2,
       let req := writeRequest leagueID team (visibleRows o1 (standingsTable w0)) in
       (trace w' = trace w0 ++ [(Read tblstandings, o1)]
        /\ standingsTable w' = standingsTable w0)
       \/ (trace w' = trace w0 ++ [(Read tblstandings, o1); (req, o2)]
           /\ (standingsTable w' = standingsTable w0
               \/ standingsTable w' = apply_write req (standingsTable w0))).
Proof.
  rewrite persistTeam_run. cbv zeta.
  cbn [pending record_request].
  split; [| split; [| exists (hd Ok (pending w0)), (hd Ok (tl (pending w0)))]];
  destruct (hd Ok (pending w0)) as [| | e1];
    destruct (hd Ok (tl (pending w0))) as [| | e2];
    cbn [snd fixturesTable resultsTable standingsTable trace record_request
         with_standings];
    rewrite <- ?app_assoc; cbn [app]; auto 6.
Qed.

Lemma framed_persistTeam (leagueID : N) (teams : JsSet.t) (team : Team.t)
    (w w0 : World) :
  In (Team.teamID team) teams ->
  framed leagueID teams w w0 ->
  framed leagueID teams w (snd (persistTeam leagueID team w0)).
Proof.
  intros Hin (Hk & Hrows & Hf & Hr & new & Htr & Hnew).
  destruct (persistTeam_effect leagueID team w0) as (Hf' & Hr' & o1 & o2 & Heff).
  cbv zeta in Heff. unfold framed.
  rewrite Hf', Hr'.
  destruct Heff as [[Htr' Hrows'] | [Htr' Hrows']].
  - rewrite Hrows', Htr', Htr. repeat split; auto.
    exists (new ++ [(Read tblstandings, o1)]).
    rewrite <- app_assoc, writes_app. split; [reflexivity |].
    apply Forall_app. split; [exact Hnew | constructor].
  - assert (Hnew' : exists new',
               trace (snd (persistTeam leagueID team w0)) = trace w ++ new'
               /\ Forall (fun d => Standing.leagueID d = leagueID
                                   /\ In (Standing.teamID d) teams) (writes new')).
    { eexists. rewrite Htr', Htr, <- app_assoc. split; [reflexivity |].
      rewrite writes_app, writes_writeRequest.
      apply Forall_app. split; [exact Hnew |]. now repeat constructor. }
    destruct Hrows' as [-> | ->].
    + repeat split; auto.
    + repeat split; auto.
      * now apply primaryKey_apply_write.
      * now rewrite untouched_apply_write.
Qed.

(** C10. Whatever the outcomes of the requests, a run for [leagueID] on a
    standings table with unique row ids sends creates and updates only for
    the league itself and for teams that are the home or the away team of a
    fixture of that league whose status is 2 (Completed); a row of another
    league, or of a team that is in no completed fixture of the league, is
    in the table after the run exactly as before, no such row is added, and
    the fixtures and results tables are not written. *)
Theorem standings_frame (leagueID : N) (leagueSeason : string) (w : World) :
  primaryKey (standingsTable w) ->
  let w' := snd (calculateLeagueStandings leagueID leagueSeason w) in
  let teams := teamIDs (leagueFixtures leagueID (fixturesTable w)) in
  (exists new,
      trace w' = trace w ++ new
      /\ forall d, In d (writes new) ->
                   Standing.leagueID d = leagueID
                   /\ inCompletedFixture leagueID (fixturesTable w) (Standing.teamID d))
  /\ (forall row,
         In row (standingsTable w) ->
         Standing.leagueID (Standing.fields row) <> leagueID
         \/ ~ inCompletedFixture leagueID (fixturesTable w)
                                 (Standing.teamID (Standing.fields row)) ->
         In row (standingsTable w'))
  /\ filter (untouchable leagueID teams) (standingsTable w')
     = filter (untouchable leagueID teams) (standingsTable w)
  /\ fixturesTable w' = fixturesTable w
  /\ resultsTable w' = resultsTable w.
Proof.
  intros Hk w' teams.
  assert (Hframed : framed leagueID teams w w').
  { subst w'. apply calc_preserves.
    - intros w0 lines H. exact H.
    - intros w0 table o (Hk0 & Hrows & Hf & Hr & new & Htr & Hnew).
      unfold framed. simpl. repeat split; auto.
      exists (new ++ [(Read table, o)]).
      rewrite Htr, <- app_assoc, writes_app. split; [reflexivity |].
      apply Forall_app. split; [exact Hnew | constructor].
    - intros team w0 Hteam. apply framed_persistTeam.
      destruct (rankedTeams_teamIDs leagueID (fixturesTable w) (resultsTable w))
        as [_ Hids].
      apply Hids. now apply in_map.
    - unfold framed. repeat split; auto.
      exists []. rewrite app_nil_r. split; [reflexivity | constructor]. }
  destruct Hframed as (_ & Hrows & Hf & Hr & new & Htr & Hnew).
  split; [| split; [| auto]].
  - exists new. split; [exact Htr |].
    intros d Hd. rewrite Forall_forall in Hnew.
    destruct (Hnew d Hd) as [Hl Ht]. split; [exact Hl |].
    now apply teamIDs_completed.
  - intros row Hrow Hother.
    assert (Hu : untouchable leagueID teams row = true).
    { unfold untouchable, concerns. apply negb_true_iff, andb_false_iff.
      destruct Hother as [Hl | Ht].
      - left. now apply N.eqb_neq.
      - right. apply not_true_iff_false. intro Hhas. apply Ht.
        apply teamIDs_completed. now apply JsSet_has_In. }
    assert (Hin : In row (filter (untouchable leagueID teams) (standingsTable w)))
      by (apply filter_In; auto).
    rewrite <- Hrows in Hin. now apply filter_In in Hin.
Qed.

(** ** Uniqueness of the rows while the reads of the standings succeed *)

Lemma keys_update_rows (leagueID : N) (team : Team.t) (rows : list Standing.t)
    (e : Standing.t) :
  primaryKey rows -> In e rows ->
  isStandingOf leagueID (Team.teamID team) e = true ->
  map standingKey (update_rows (Standing.id e) (standingData leagueID team) rows)
  = map standingKey rows.
Proof.
  intros Hk He Hp. unfold update_rows. rewrite map_map. apply map_ext_in.
  intros s Hs. destruct (Standing.id s =? Standing.id e)%N eqn:E; [| reflexivity].
  apply N.eqb_eq in E. rewrite (primaryKey_inj rows s e Hk Hs He E).
  unfold isStandingOf in Hp. apply andb_true_iff in Hp. destruct Hp as [Hl Ht].
  apply N.eqb_eq in Hl, Ht. unfold standingKey. simpl. congruence.
Qed.

Lemma find_none_key (leagueID k : N) (rows : list Standing.t) :
  find (isStandingOf leagueID k) rows = None ->
  ~ In (leagueID, k) (map standingKey rows).
Proof.
  intros Hfind Hin. apply in_map_iff in Hin. destruct Hin as (s & Hkey & Hs).
  pose proof (find_none _ _ Hfind s Hs) as Hp.
  unfold standingKey in Hkey. injection Hkey as Hl Ht.
  unfold isStandingOf in Hp. now rewrite Hl, Ht, !N.eqb_refl in Hp.
Qed.

Lemma uniqueStandings_upsert (leagueID : N) (rows : list Standing.t) (team : Team.t) :
  primaryKey rows -> uniqueStandings rows ->
  uniqueStandings (upsert leagueID rows team).
Proof.
  intros Hk Hu. unfold upsert, uniqueStandings in *.
  destruct (find (isStandingOf leagueID (Team.teamID team)) rows) as [e |] eqn:Hfind.
  - destruct (find_some _ _ Hfind) as [He Hp].
    now rewrite keys_update_rows.
  - rewrite map_app. simpl.
    apply NoDup_app; [exact Hu | repeat constructor; simpl; tauto |].
    intros x Hx [<- | []]. revert Hx. now apply find_none_key.
Qed.

Lemma uniqueWhileReadsOk_persistTeam (leagueID : N) (team : Team.t) (w w0 : World) :
  uniqueWhileReadsOk w w0 ->
  uniqueWhileReadsOk w (snd (persistTeam leagueID team w0)).
Proof.
  intros (new & Htr & Hinv).
  destruct (persistTeam_effect leagueID team w0) as (_ & _ & o1 & o2 & Heff).
  cbv zeta in Heff. unfold uniqueWhileReadsOk.
  destruct Heff as [[Htr' Hrows'] | [Htr' Hrows']].
  - exists (new ++ [(Read tblstandings, o1)]).
    rewrite Htr', Htr, <- app_assoc, Hrows'. split; [reflexivity |].
    intro Hok. apply Forall_app in Hok. tauto.
  - eexists. rewrite Htr', Htr, <- app_assoc. split; [reflexivity |].
    intro Hok. apply Forall_app in Hok. destruct Hok as [Hok Hread].
    destruct (Hinv Hok) as [Hk Hu].
    destruct Hrows' as [-> | ->]; [auto |].
    apply Forall_cons_iff in Hread. destruct Hread as [Hread _].
    pose proof (Hread eq_refl) as Ho1. simpl in Ho1. subst o1. simpl visibleRows.
    rewrite <- upsert_apply_write.
    split; [now apply primaryKey_upsert | now apply uniqueStandings_upsert].
Qed.

(** A run in which every read of the standings table succeeds keeps the
    table at one row per (leagueID, teamID) at most. *)
Lemma unique_while_reads_succeed (leagueID : N) (leagueSeason : string)
    (w : World) (new : list (Request * Outcome)) :
  primaryKey (standingsTable w) ->
  uniqueStandings (standingsTable w) ->
  trace (snd (calculateLeagueStandings leagueID leagueSeason w)) = trace w ++ new ->
  Forall standingsReadOk new ->
  uniqueStandings (standingsTable (snd (calculateLeagueStandings leagueID leagueSeason w))).
Proof.
  intros Hk Hu Htr Hok.
  assert (H : uniqueWhileReadsOk w (snd (calculateLeagueStandings leagueID leagueSeason w))).
  { apply calc_preserves.
    - intros w0 lines H. exact H.
    - intros w0 table o (new0 & Htr0 & Hinv).
      exists (new0 ++ [(Read table, o)]). simpl.
      rewrite Htr0, <- app_assoc. split; [reflexivity |].
      intro H. apply Forall_app in H. tauto.
    - intros team w0 _. apply uniqueWhileReadsOk_persistTeam.
    - exists []. rewrite app_nil_r. auto. }
  destruct H as (new0 & Htr0 & Hinv).
  rewrite Htr in Htr0. apply app_inv_head in Htr0. subst new0.
  now apply Hinv.
Qed.

(** ** The loop body entry by entry *)

Lemma modify_onKey (st : Standings) (k : N) (f : Team.t -> Team.t) :
  JsObject.modify st k f = map (onKey k f) st.
Proof. reflexivity. Qed.

(** Reading the fields of an accumulator through the updates of the loop. *)
Ltac team_fields :=
  cbv beta iota delta
    [Team.teamID Team.played Team.won Team.drawn Team.lost Team.pointsFor
     Team.pointsAgainst Team.pointsDifference Team.bonusPoints Team.points
     Team.position Team.set_played Team.set_won Team.set_drawn Team.set_lost
     Team.set_pointsFor Team.set_pointsAgainst Team.set_pointsDifference
     Team.set_bonusPoints Team.set_points Team.set_position
     inc_played inc_won inc_drawn inc_lost inc_bonusPoints add_points
     add_pointsFor add_pointsAgainst refresh_pointsDifference].

Lemma onKey_pair (k k' : N) (f : Team.t -> Team.t) (v : Team.t) :
  onKey k f (k', v) = (k', if (k' =? k)%N then f v else v).
Proof. unfold onKey. simpl. now destruct (k' =? k)%N. Qed.

(** One fixture acts on the accumulators entry by entry: it keeps each key
    and team id, keeps the counters of each accumulator in agreement, and
    credits the home and the away entries with opposite net scores and
    opposite net wins. *)
Lemma processFixture_entrywise (fixture : Fixture.t) (result : Result.t) :
  let home := Fixture.homeTeam fixture in
  let away := Fixture.awayTeam fixture in
  let homeScore := parseIntOr0 (Result.homeScore result) in
  let awayScore := parseIntOr0 (Result.awayScore result) in
  exists step : N * Team.t -> N * Team.t,
    (forall st, fst (processFixture st fixture result) = map step st)
    /\ forall k v,
         fst (step (k, v)) = k
         /\ Team.teamID (snd (step (k, v))) = Team.teamID v
         /\ (consistent v -> consistent (snd (step (k, v))))
         /\ netScore (snd (step (k, v)))
            = netScore v
              + (if (k =? home)%N then homeScore - awayScore else 0)
              + (if (k =? away)%N then awayScore - homeScore else 0)
         /\ netWins (snd (step (k, v)))
            = netWins v
              + (if (k =? home)%N then winSign homeScore awayScore else 0)
              + (if (k =? away)%N then winSign awayScore homeScore else 0).
Proof.
  cbv zeta. unfold processFixture, awardTryBonus, awardMatchPoints, winSign.
  generalize (parseIntOr0 (Result.homeScore result)) as homeScore.
  generalize (parseIntOr0 (Result.awayScore result)) as awayScore.
  intros awayScore homeScore.
  destruct (tryCounts result) as [[homeCount awayCount] |];
    [destruct (4 <=? homeCount); destruct (4 <=? awayCount) |];
    (destruct (awayScore <? homeScore) eqn:H1;
     [destruct (homeScore <=? awayScore + 7) eqn:H2
     |destruct (homeScore <? awayScore) eqn:H3;
      [destruct (awayScore <=? homeScore + 7) eqn:H4 |]]);
    (eexists; split;
     [intro st; cbn [fst snd]; rewrite !modify_onKey, !map_map; reflexivity |]);
    intros k v;
    destruct (k =? Fixture.homeTeam fixture)%N eqn:Eh;
    destruct (k =? Fixture.awayTeam fixture)%N eqn:Ea;
    repeat (rewrite onKey_pair, ?Eh, ?Ea);
    cbn [fst snd];
    (split; [reflexivity |]); (split; [reflexivity |]);
    unfold consistent, netScore, netWins; team_fields;
    rewrite ?Z.ltb_lt, ?Z.ltb_ge, ?Z.leb_le, ?Z.leb_gt in *;
    (split; [intros (P1 & P2 & P3 & P4 & P5 & P6 & P7 & P8); repeat split; lia |]);
    destruct (homeScore <? awayScore) eqn:H5;
    rewrite ?Z.ltb_lt, ?Z.ltb_ge in *;
    split; lia.
Qed.

(** ** Invariants of the league table *)

Lemma winSign_opposite (x y : Z) : winSign x y + winSign y x = 0.
Proof.
  unfold winSign. destruct (y <? x) eqn:H1; destruct (x <? y) eqn:H2;
    rewrite ?Z.ltb_lt, ?Z.ltb_ge in *; lia.
Qed.

Lemma total_app (g : Team.t -> Z) (l l' : list Team.t) :
  total g (l ++ l') = total g l + total g l'.
Proof. induction l as [| x l IH]; simpl; [reflexivity | rewrite IH; lia]. Qed.

Lemma total_perm (g : Team.t -> Z) (l l' : list Team.t) :
  Permutation l l' -> total g l = total g l'.
Proof. induction 1; simpl; lia. Qed.

Lemma total_map (g : Team.t -> Z) (f : Team.t -> Team.t) (l : list Team.t) :
  (forall x, g (f x) = g x) -> total g (map f l) = total g l.
Proof.
  intro Hf. induction l as [| x l IH]; simpl; [reflexivity |].
  now rewrite Hf, IH.
Qed.

(** A step that moves [d1] to the entry of [h] and [d2] to the entry of [a],
    with [d1 + d2 = 0], keeps the total when both entries exist once. *)
Lemma total_shift (g : Team.t -> Z) (step : N * Team.t -> N * Team.t)
    (h a : N) (d1 d2 : Z) (st : Standings) :
  (forall k v,
      g (snd (step (k, v)))
      = g v + (if (k =? h)%N then d1 else 0) + (if (k =? a)%N then d2 else 0)) ->
  d1 + d2 = 0 ->
  NoDup (JsObject.keys st) ->
  In h (JsObject.keys st) -> In a (JsObject.keys st) ->
  total g (JsObject.values (map step st)) = total g (JsObject.values st).
Proof.
  intros Hstep Hd Hnd Hh Ha.
  assert (G : forall st : Standings,
             total g (JsObject.values (map step st))
             = total g (JsObject.values st)
               + d1 * Z.of_nat (count_occ N.eq_dec (JsObject.keys st) h)
               + d2 * Z.of_nat (count_occ N.eq_dec (JsObject.keys st) a)).
  { clear Hnd Hh Ha. induction st0 as [| [k v] st0 IH]; [simpl; lia |].
    cbn [map JsObject.values JsObject.keys total fold_right fst snd count_occ].
    unfold JsObject.values, JsObject.keys, total in IH. rewrite IH, Hstep.
    destruct (N.eq_dec k h) as [Eh | Nh]; destruct (N.eq_dec k a) as [Ea | Na];
      try rewrite (proj2 (N.eqb_eq k h) Eh);
      try rewrite (proj2 (N.eqb_neq k h) Nh);
      try rewrite (proj2 (N.eqb_eq k a) Ea);
      try rewrite (proj2 (N.eqb_neq k a) Na);
      lia. }
  rewrite G.
  pose proof (proj1 (NoDup_count_occ' N.eq_dec (JsObject.keys st)) Hnd) as Hone.
  rewrite (Hone h Hh), (Hone a Ha). lia.
Qed.

Lemma keys_map_step (step : N * Team.t -> N * Team.t) (st : Standings) :
  (forall k v, fst (step (k, v)) = k) ->
  JsObject.keys (map step st) = JsObject.keys st.
Proof.
  intro Hk. unfold JsObject.keys. rewrite map_map. apply map_ext.
  intros [k v]. apply Hk.
Qed.

Lemma balanced_processFixture (st : Standings) (fixture : Fixture.t)
    (result : Result.t) :
  In (Fixture.homeTeam fixture) (JsObject.keys st) ->
  In (Fixture.awayTeam fixture) (JsObject.keys st) ->
  balanced st -> balanced (fst (processFixture st fixture result)).
Proof.
  intros Hh Ha (Hnd & Hc & Hs & Hw).
  destruct (processFixture_entrywise fixture result) as (step & Hmap & Hstep).
  rewrite Hmap. unfold balanced.
  rewrite keys_map_step by (intros k v; apply Hstep).
  split; [exact Hnd |]. split; [| split].
  - rewrite Forall_map. eapply Forall_impl; [| exact Hc].
    intros [k v] Hv. now apply Hstep.
  - rewrite <- Hs.
    apply (total_shift netScore step
             (Fixture.homeTeam fixture) (Fixture.awayTeam fixture)
             (parseIntOr0 (Result.homeScore result)
              - parseIntOr0 (Result.awayScore result))
             (parseIntOr0 (Result.awayScore result)
              - parseIntOr0 (Result.homeScore result)));
      auto; [| lia].
    intros k v. apply Hstep.
  - rewrite <- Hw.
    apply (total_shift netWins step
             (Fixture.homeTeam fixture) (Fixture.awayTeam fixture)
             (winSign (parseIntOr0 (Result.homeScore result))
                      (parseIntOr0 (Result.awayScore result)))
             (winSign (parseIntOr0 (Result.awayScore result))
                      (parseIntOr0 (Result.homeScore result))));
      auto; [| apply winSign_opposite].
    intros k v. apply Hstep.
Qed.

Lemma balanced_fold (results : JsObject.t Result.t) (fixtures : list Fixture.t) :
  forall acc : Standings * list string,
    (forall f, In f fixtures ->
               In (Fixture.homeTeam f) (JsObject.keys (fst acc))
               /\ In (Fixture.awayTeam f) (JsObject.keys (fst acc))) ->
    balanced (fst acc) ->
    balanced (fst (fold_left (fixtureStep results) fixtures acc)).
Proof.
  induction fixtures as [| f fixtures IH]; intros acc Hin Hb; cbn [fold_left];
    [exact Hb |].
  destruct (sameTeams_fixtureStep results acc f) as [Hkeys _].
  apply IH.
  - intros f' Hf'. rewrite Hkeys. apply Hin. now right.
  - unfold fixtureStep.
    destruct (JsObject.get results (Fixture.id f)) as [result |]; [| exact Hb].
    pose proof (balanced_processFixture (fst acc) f result
                  (proj1 (Hin f (or_introl eq_refl)))
                  (proj2 (Hin f (or_introl eq_refl))) Hb) as H.
    now destruct (processFixture (fst acc) f result).
Qed.

Lemma initStandings_zero (ids : JsSet.t) :
  Forall (fun e => snd e = Team.zero (fst e)) (initStandings ids).
Proof.
  unfold initStandings.
  assert (G : forall (l : JsSet.t) (st : Standings),
             Forall (fun e => snd e = Team.zero (fst e)) st ->
             Forall (fun e => snd e = Team.zero (fst e))
                    (fold_left (fun st teamID => JsObject.set st teamID (Team.zero teamID))
                               l st)).
  { induction l as [| x l IH]; intros st Hst; simpl; [exact Hst |].
    apply IH. clear IH.
    induction st as [| [k0 v0] st IHst]; simpl.
    - now repeat constructor.
    - apply Forall_cons_iff in Hst. destruct Hst as [H0 Hst].
      destruct (x =? k0)%N; [now constructor |].
      destruct (x <? k0)%N; [now repeat constructor |].
      constructor; auto. }
  apply G. constructor.
Qed.

Lemma total_zero (g : Team.t -> Z) (st : Standings) :
  (forall k, g (Team.zero k) = 0) ->
  Forall (fun e => snd e = Team.zero (fst e)) st ->
  total g (JsObject.values st) = 0.
Proof.
  intros Hg Hz. induction Hz as [| [k v] st Hv _ IH]; [reflexivity |].
  simpl in Hv. subst v.
  change (g (Team.zero k) + total g (JsObject.values st) = 0).
  now rewrite Hg, IH.
Qed.

Lemma balanced_initStandings (ids : JsSet.t) : balanced (initStandings ids).
Proof.
  destruct (initStandings_teams ids) as (_ & Hs & _).
  pose proof (initStandings_zero ids) as Hz.
  split; [now apply sorted_lt_NoDup |].
  split; [| split].
  - eapply Forall_impl; [| exact Hz]. intros [k v] Hv. simpl in *. subst v.
    unfold consistent. simpl. lia.
  - now apply total_zero.
  - now apply total_zero.
Qed.

(** The accumulators after the loop are balanced. *)
Lemma balanced_computeStandings (leagueID : N) (allFixtures : list Fixture.t)
    (allResults : list Result.t) :
  balanced (fst (computeStandings leagueID allFixtures allResults)).
Proof.
  unfold computeStandings. cbv zeta.
  apply balanced_fold; [| apply balanced_initStandings].
  intros f Hf. cbn [fst].
  destruct (initStandings_teams (teamIDs (leagueFixtures leagueID allFixtures)))
    as (_ & _ & K).
  split; apply K, teamIDs_In; exists f; auto.
Qed.

Lemma sortedTeams_from (standings : Standings) (team : Team.t) :
  In team (sortedTeams standings) ->
  exists x, In x (JsObject.values standings)
            /\ Team.set_position None x = Team.set_position None team.
Proof.
  intro Hin.
  assert (H : In (Team.set_position None team)
                 (map (Team.set_position None) (sortedTeams standings)))
    by now apply in_map.
  eapply Permutation_in in H; [| apply Permutation_sym, sortedTeams_perm].
  apply in_map_iff in H. destruct H as (x & Hx & Hin'). eauto.
Qed.

Lemma consistent_position (x y : Team.t) :
  Team.set_position None x = Team.set_position None y ->
  consistent x -> consistent y.
Proof.
  destruct x, y. unfold Team.set_position, consistent. simpl.
  intro H. injection H as -> -> -> -> -> -> -> -> -> ->. auto.
Qed.

(** Every ranked team has its counters in agreement. *)
Lemma ranked_consistent (leagueID : N) (allFixtures : list Fixture.t)
    (allResults : list Result.t) (team : Team.t) :
  In team (rankedTeams leagueID allFixtures allResults) -> consistent team.
Proof.
  intro Hin. apply sortedTeams_from in Hin. destruct Hin as (x & Hx & Heq).
  apply (consistent_position x team Heq).
  destruct (balanced_computeStandings leagueID allFixtures allResults)
    as (_ & Hc & _).
  unfold JsObject.values in Hx. apply in_map_iff in Hx.
  destruct Hx as ([k v] & <- & He).
  rewrite Forall_forall in Hc. exact (Hc (k, v) He).
Qed.

Lemma ranked_total (g : Team.t -> Z) (standings : Standings) :
  (forall p x, g (Team.set_position p x) = g x) ->
  total g (sortedTeams standings) = total g (JsObject.values standings).
Proof.
  intro Hg.
  rewrite <- (total_map g (Team.set_position None) (sortedTeams standings))
    by (intro x; apply Hg).
  rewrite <- (total_map g (Team.set_position None) (JsObject.values standings))
    by (intro x; apply Hg).
  symmetry. apply total_perm, sortedTeams_perm.
Qed.

Lemma total_sub (g h : Team.t -> Z) (l : list Team.t) :
  total (fun x => g x - h x) l = total g l - total h l.
Proof. induction l as [| x l IH]; simpl; [reflexivity | rewrite IH; lia]. Qed.

Lemma total_ext_in (g h : Team.t -> Z) (l : list Team.t) :
  (forall x, In x l -> g x = h x) -> total g l = total h l.
Proof.
  induction l as [| x l IH]; simpl; intro H; [reflexivity |].
  rewrite (H x (or_introl eq_refl)), IH; [reflexivity |].
  intros y Hy. apply H. now right.
Qed.

(** X1. For every team of the ranked list, whatever the fixtures and the
    results (a team playing itself and malformed scorer data included), the
    matches played are the wins, the draws and the defeats together, and
    none of these counts is negative. *)
Theorem ranked_matches_add_up (leagueID : N) (allFixtures : list Fixture.t)
    (allResults : list Result.t) (team : Team.t) :
  In team (rankedTeams leagueID allFixtures allResults) ->
  Team.played team = Team.won team + Team.drawn team + Team.lost team
  /\ 0 <= Team.won team /\ 0 <= Team.drawn team /\ 0 <= Team.lost team.
Proof.
  intro Hin. destruct (ranked_consistent _ _ _ _ Hin) as (H1 & _ & _ & H4 & H5 & H6 & _).
  auto.
Qed.

(** X2. For every team of the ranked list, the league points are 4 per win,
    2 per draw and 1 per bonus point, and the bonus points lie between 0 and
    twice the matches played. *)
Theorem ranked_points_formula (leagueID : N) (allFixtures : list Fixture.t)
    (allResults : list Result.t) (team : Team.t) :
  In team (rankedTeams leagueID allFixtures allResults) ->
  Team.points team = 4 * Team.won team + 2 * Team.drawn team + Team.bonusPoints team
  /\ 0 <= Team.bonusPoints team <= 2 * Team.played team.
Proof.
  intro Hin. destruct (ranked_consistent _ _ _ _ Hin) as (_ & H2 & _ & _ & _ & _ & H7).
  auto.
Qed.

(** X3. In the ranked list every team's points difference is its points for
    less its points against, and over the whole league the points for equal
    the points against, so the points differences add up to zero. *)
Theorem league_scores_balance (leagueID : N) (allFixtures : list Fixture.t)
    (allResults : list Result.t) :
  let ranked := rankedTeams leagueID allFixtures allResults in
  (forall team, In team ranked ->
                Team.pointsDifference team
                = Team.pointsFor team - Team.pointsAgainst team)
  /\ total Team.pointsFor ranked = total Team.pointsAgainst ranked
  /\ total Team.pointsDifference ranked = 0.
Proof.
  intro ranked.
  assert (Hpd : forall team, In team ranked ->
                             Team.pointsDifference team = netScore team).
  { intros team Hin. now destruct (ranked_consistent _ _ _ _ Hin) as (_ & _ & H3 & _). }
  assert (Hnet : total netScore ranked = 0).
  { subst ranked. unfold rankedTeams.
    rewrite ranked_total by (intros p x; reflexivity).
    now destruct (balanced_computeStandings leagueID allFixtures allResults)
      as (_ & _ & Hs & _). }
  split; [exact Hpd |]. split.
  - unfold netScore in Hnet. rewrite total_sub in Hnet. lia.
  - now rewrite (total_ext_in _ _ _ Hpd).
Qed.

(** X4. Over the ranked list of a league there are as many wins as
    defeats. *)
Theorem league_wins_balance (leagueID : N) (allFixtures : list Fixture.t)
    (allResults : list Result.t) :
  total Team.won (rankedTeams leagueID allFixtures allResults)
  = total Team.lost (rankedTeams leagueID allFixtures allResults).
Proof.
  assert (Hnet : total netWins (rankedTeams leagueID allFixtures allResults) = 0).
  { unfold rankedTeams. rewrite ranked_total by (intros p x; reflexivity).
    now destruct (balanced_computeStandings leagueID allFixtures allResults)
      as (_ & _ & _ & Hw). }
  unfold netWins in Hnet. rewrite total_sub in Hnet. lia.
Qed.

(** ** The results by fixture *)

Lemma get_set {A : Type} (o : JsObject.t A) (k k' : N) (v : A) :
  JsObject.get (JsObject.set o k v) k'
  = if (k =? k')%N then Some v else JsObject.get o k'.
Proof.
  induction o as [| [k0 v0] o IH]; simpl; [reflexivity |].
  destruct (k =? k0)%N eqn:E0.
  - apply N.eqb_eq in E0. subst k0. simpl.
    now destruct (k =? k')%N.
  - destruct (k <? k0)%N; simpl.
    + reflexivity.
    + rewrite IH. destruct (k0 =? k')%N eqn:E1; [| reflexivity].
      apply N.eqb_eq in E1. subst k0. now rewrite E0.
Qed.

Lemma resultsMap_get (allResults : list Result.t) (k : N) :
  JsObject.get (resultsMap allResults) k
  = find (fun r => (Result.fixtureID r =? k)%N) (rev allResults).
Proof.
  unfold resultsMap. rewrite <- fold_left_rev_right.
  induction (rev allResults) as [| r l IH]; simpl; [reflexivity |].
  now rewrite get_set, IH.
Qed.

Lemma resultsMap_none (allResults : list Result.t) (k : N) :
  (forall r, In r allResults -> Result.fixtureID r <> k) ->
  JsObject.get (resultsMap allResults) k = None.
Proof.
  intro Hnone. rewrite resultsMap_get.
  destruct (find _ (rev allResults)) as [r |] eqn:Hfind; [| reflexivity].
  apply find_some in Hfind. destruct Hfind as [Hin Heq].
  apply N.eqb_eq in Heq. apply in_rev in Hin. now destruct (Hnone r Hin).
Qed.

(** X5. The lookup of results by fixture keeps, for each fixture, the last
    row of the results table that refers to it, and has no entry for a
    fixture that no row refers to. *)
Theorem last_result_wins (allResults : list Result.t) :
  (forall before r after,
      allResults = before ++ r :: after ->
      (forall r', In r' after -> Result.fixtureID r' <> Result.fixtureID r) ->
      JsObject.get (resultsMap allResults) (Result.fixtureID r) = Some r)
  /\ (forall k,
         (forall r, In r allResults -> Result.fixtureID r <> k) ->
         JsObject.get (resultsMap allResults) k = None).
Proof.
  split.
  - intros before r after -> Hafter.
    rewrite resultsMap_get, rev_app_distr. simpl. rewrite <- app_assoc.
    rewrite find_app.
    destruct (find _ (rev after)) as [r' |] eqn:Hfind.
    + apply find_some in Hfind. destruct Hfind as [Hin Heq].
      apply N.eqb_eq in Heq. apply in_rev in Hin. now destruct (Hafter r' Hin).
    + simpl. now rewrite N.eqb_refl.
  - intros k Hnone. now apply resultsMap_none.
Qed.

Lemma fold_no_results (results : JsObject.t Result.t) (fixtures : list Fixture.t) :
  (forall f, In f fixtures -> JsObject.get results (Fixture.id f) = None) ->
  forall acc, fold_left (fixtureStep results) fixtures acc = acc.
Proof.
  induction fixtures as [| f fixtures IH]; intros Hnone acc; simpl; [reflexivity |].
  unfold fixtureStep at 2. rewrite (Hnone f (or_introl eq_refl)).
  apply IH. intros f' Hf'. apply Hnone. now right.
Qed.

(** X6. When no row of the results table refers to a completed fixture of
    the league, every team of those fixtures is ranked with all its counters
    at zero: completed fixtures without a result count for nothing. *)
Theorem fixtures_without_results (leagueID : N) (allFixtures : list Fixture.t)
    (allResults : list Result.t) (team : Team.t) :
  (forall f r,
      In f allFixtures -> Fixture.leagueID f = leagueID ->
      Fixture.status f = Completed -> In r allResults ->
      Result.fixtureID r <> Fixture.id f) ->
  In team (rankedTeams leagueID allFixtures allResults) ->
  untouched team
  /\ inCompletedFixture leagueID allFixtures (Team.teamID team).
Proof.
  intros Hnone Hin. split.
  - apply sortedTeams_from in Hin. destruct Hin as (x & Hx & Heq).
    unfold computeStandings in Hx. cbv zeta in Hx.
    rewrite fold_no_results in Hx.
    + cbn [fst] in Hx. unfold JsObject.values in Hx. apply in_map_iff in Hx.
      destruct Hx as ([k v] & Hv & He).
      pose proof (initStandings_zero (teamIDs (leagueFixtures leagueID allFixtures)))
        as Hz.
      rewrite Forall_forall in Hz. specialize (Hz (k, v) He). simpl in Hz, Hv.
      subst v x. destruct team. unfold Team.set_position, Team.zero in Heq.
      simpl in Heq. injection Heq as <- <- <- <- <- <- <- <- <- <-.
      unfold untouched. simpl. now repeat split.
    + intros f Hf. apply resultsMap_none.
      unfold leagueFixtures in Hf. apply filter_In in Hf. destruct Hf as [Hf Hc].
      apply andb_true_iff in Hc. destruct Hc as [Hl Hs].
      apply N.eqb_eq in Hl. apply Z.eqb_eq in Hs.
      intros r Hr. now apply (Hnone f r).
  - apply teamIDs_completed.
    apply (proj2 (rankedTeams_teamIDs leagueID allFixtures allResults)).
    now apply in_map.
Qed.

(** ** The payloads of a run *)

Lemma persistTeam_writes (leagueID : N) (team : Team.t) (w : World) :
  exists new,
    trace (snd (persistTeam leagueID team w)) = trace w ++ new
    /\ ((fst (persistTeam leagueID team w) = inl tt
         /\ writes new = [standingData leagueID team])
        \/ ((exists e, fst (persistTeam leagueID team w) = inr e)
            /\ (writes new = [] \/ writes new = [standingData leagueID team]))).
Proof.
  rewrite persistTeam_run. cbv zeta. cbn [pending record_request].
  destruct (hd Ok (pending w)) as [| | e1];
    destruct (hd Ok (tl (pending w))) as [| | e2];
    cbn [fst snd trace record_request with_standings];
    rewrite <- ?app_assoc; cbn [app];
    eexists; (split; [reflexivity |]);
    rewrite ?writes_writeRequest; eauto 6.
Qed.

(** The writes of the persistence loop are the payloads of the teams in
    order, up to the point where the loop stopped. *)
Lemma persist_all_writes (leagueID : N) (teams : list Team.t) :
  forall w,
  exists new rest,
    trace (snd (forEachM (persistTeam leagueID) teams w)) = trace w ++ new
    /\ writes new ++ rest = map (standingData leagueID) teams
    /\ (fst (forEachM (persistTeam leagueID) teams w) = inl tt -> rest = []).
Proof.
  induction teams as [| team teams IH]; intro w; simpl.
  - exists [], []. rewrite app_nil_r. auto.
  - unfold bind.
    destruct (persistTeam_writes leagueID team w) as (new1 & Htr1 & Hcase).
    destruct (persistTeam leagueID team w) as [[[] | e] w1]; simpl in *.
    + destruct Hcase as [[_ Hw1] | [[e He] _]]; [| discriminate].
      destruct (IH w1) as (new & rest & Htr & Hw & Hdone).
      exists (new1 ++ new), rest.
      rewrite Htr, Htr1, app_assoc, writes_app, Hw1. simpl.
      now rewrite Hw.
    + destruct Hcase as [[Hinl _] | [_ [Hw1 | Hw1]]]; [discriminate | |].
      * exists new1, (standingData leagueID team :: map (standingData leagueID) teams).
        rewrite Hw1. repeat split; auto. discriminate.
      * exists new1, (map (standingData leagueID) teams).
        rewrite Hw1. repeat split; auto. discriminate.
Qed.

(** The writes of a run are the payloads of the ranked teams in order, up
    to the point where the run stopped; none is left when the run reports
    that the standings were updated. *)
Lemma calc_writes (leagueID : N) (leagueSeason : string) (w : World) :
  exists new rest,
    trace (snd (calculateLeagueStandings leagueID leagueSeason w)) = trace w ++ new
    /\ writes new ++ rest
       = map (standingData leagueID)
             (rankedTeams leagueID (fixturesTable w) (resultsTable w))
    /\ (fst (calculateLeagueStandings leagueID leagueSeason w)
        = inl (mkResult true "Standings updated successfully") -> rest = []).
Proof.
  destruct (string_dec leagueSeason (CURRENT_SEASON w)) as [-> | Hne].
  - destruct (hd Ok (pending w)) as [| | e1] eqn:H1.
    + destruct (hd Ok (tl (pending w))) as [| | e2] eqn:H2.
      * rewrite (calc_main leagueID w H1 H2). cbv zeta.
        set (computed := computeStandings leagueID (fixturesTable w) (resultsTable w)).
        destruct (persist_all_writes leagueID (sortedTeams (fst computed))
                                     (afterReads (snd computed) w))
          as (new & rest & Htr & Hw & Hdone).
        exists ([(Read tblfixtures, Ok); (Read tblresults, Ok)] ++ new), rest.
        assert (Hw2 : writes ([(Read tblfixtures, Ok); (Read tblresults, Ok)] ++ new)
                      ++ rest
                      = map (standingData leagueID) (sortedTeams (fst computed)))
          by (rewrite writes_app; exact Hw).
        destruct (forEachM _ _ _) as [[[] | e] w']; cbn [fst snd] in *;
          unfold failed; cbn [fst snd trace with_console];
          rewrite Htr; unfold afterReads; cbn [trace with_console record_request];
          rewrite <- !app_assoc; (split; [reflexivity |]);
          (split; [exact Hw2 |]).
        -- intros _. now apply Hdone.
        -- discriminate.
      * rewrite (calc_results_fail leagueID w H1 H2). unfold failed. simpl.
        do 2 eexists. rewrite <- app_assoc. split; [reflexivity |].
        split; [reflexivity | discriminate].
      * rewrite (calc_results_throw leagueID w e2 H1 H2). unfold failed. simpl.
        do 2 eexists. rewrite <- app_assoc. split; [reflexivity |].
        split; [reflexivity | discriminate].
    + rewrite (calc_fixtures_fail leagueID w H1). unfold failed. simpl.
      do 2 eexists. split; [reflexivity |]. split; [reflexivity | discriminate].
    + rewrite (calc_fixtures_throw leagueID w e1 H1). unfold failed. simpl.
      do 2 eexists. split; [reflexivity |]. split; [reflexivity | discriminate].
  - rewrite (calc_skip leagueID leagueSeason w Hne). simpl.
    exists [], (map (standingData leagueID)
                    (rankedTeams leagueID (fixturesTable w) (resultsTable w))).
    rewrite app_nil_r. split; [reflexivity |]. split; [reflexivity | discriminate].
Qed.

(** X7. Whatever the outcomes of the requests, the creates and updates that
    a run sends carry the payloads of the ranked teams, in ranking order and
    each team at most once, up to the point where the run stopped; and a run
    that reports "Standings updated successfully" has sent one for every
    ranked team. *)
Theorem writes_follow_ranking (leagueID : N) (leagueSeason : string) (w : World)
    (new : list (Request * Outcome)) :
  trace (snd (calculateLeagueStandings leagueID leagueSeason w)) = trace w ++ new ->
  let payloads := map (standingData leagueID)
                      (rankedTeams leagueID (fixturesTable w) (resultsTable w)) in
  (exists rest, writes new ++ rest = payloads)
  /\ (fst (calculateLeagueStandings leagueID leagueSeason w)
      = inl (mkResult true "Standings updated successfully") ->
      writes new = payloads).
Proof.
  intros Htr payloads.
  destruct (calc_writes leagueID leagueSeason w) as (new' & rest & Htr' & Hw & Hdone).
  rewrite Htr in Htr'. apply app_inv_head in Htr'. subst new'.
  split; [now exists rest |].
  intro Hok. rewrite (Hdone Hok), app_nil_r in Hw. exact Hw.
Qed.

Lemma consistentData_standingData (leagueID : N) (team : Team.t) :
  consistent team -> consistentData (standingData leagueID team).
Proof. unfold consistent, consistentData. simpl. tauto. Qed.

(** X8. Whatever the outcomes of the requests, every row that a run creates
    or updates is a row of the league whose counters agree: played is won
    plus drawn plus lost, the league points are 4 per win, 2 per draw and 1
    per bonus point, and the points difference is the points for less the
    points against. *)
Theorem written_rows_consistent (leagueID : N) (leagueSeason : string) (w : World)
    (new : list (Request * Outcome)) (d : Standing.data) :
  trace (snd (calculateLeagueStandings leagueID leagueSeason w)) = trace w ++ new ->
  In d (writes new) ->
  Standing.leagueID d = leagueID /\ consistentData d.
Proof.
  intros Htr Hd.
  destruct (calc_writes leagueID leagueSeason w) as (new' & rest & Htr' & Hw & _).
  rewrite Htr in Htr'. apply app_inv_head in Htr'. subst new'.
  assert (Hin : In d (map (standingData leagueID)
                          (rankedTeams leagueID (fixturesTable w) (resultsTable w))))
    by (rewrite <- Hw; apply in_or_app; now left).
  apply in_map_iff in Hin. destruct Hin as (team & <- & Hteam).
  split; [reflexivity |].
  apply consistentData_standingData. eapply ranked_consistent; eauto.
Qed.

(** ** Teams that the comparator does not separate *)

Lemma compareTeams_opp (a b : Team.t) : compareTeams a b = - compareTeams b a.
Proof.
  unfold compareTeams.
  rewrite (Z.eqb_sym (Team.points a) (Team.points b)).
  rewrite (Z.eqb_sym (Team.pointsDifference a) (Team.pointsDifference b)).
  destruct (Team.points b =? Team.points a); simpl; [| lia].
  destruct (Team.pointsDifference b =? Team.pointsDifference a); simpl; lia.
Qed.

Lemma compareTeams_level (a b : Team.t) :
  Team.points a = Team.points b ->
  Team.pointsDifference a = Team.pointsDifference b ->
  Team.pointsFor a = Team.pointsFor b ->
  compareTeams a b = 0.
Proof.
  intros Hp Hd Hf. unfold compareTeams. rewrite Hp, Hd, Hf, !Z.eqb_refl. simpl. lia.
Qed.

Lemma js_insert_ties (x : Team.t) (l : list Team.t) :
  Forall (fun y => (Team.teamID x < Team.teamID y)%N) l ->
  Sorted tieOrder l -> Sorted tieOrder (js_insert compareTeams x l).
Proof.
  intros Hids Hs. induction Hs as [| y l Hs IH Hhd]; simpl.
  - repeat constructor.
  - apply Forall_cons_iff in Hids. destruct Hids as [Hy Hids].
    destruct (compareTeams x y <=? 0) eqn:Hxy.
    + apply Z.leb_le in Hxy. constructor; [now constructor |].
      constructor. split; auto.
    + apply Z.leb_gt in Hxy. constructor; [now apply IH |].
      destruct l as [| z l]; simpl.
      * constructor. unfold tieOrder. rewrite (compareTeams_opp y x). split; lia.
      * destruct (compareTeams x z <=? 0).
        -- constructor. unfold tieOrder. rewrite (compareTeams_opp y x). split; lia.
        -- constructor. now apply HdRel_inv in Hhd.
Qed.

Lemma js_sort_ties (l : list Team.t) :
  StronglySorted N.lt (map Team.teamID l) ->
  Sorted tieOrder (js_sort compareTeams l).
Proof.
  induction l as [| x l IH]; simpl; intro Hs; [constructor |].
  apply StronglySorted_inv in Hs. destruct Hs as [Hs Hall].
  apply js_insert_ties; [| now apply IH].
  rewrite Forall_forall. intros y Hy.
  eapply Permutation_in in Hy; [| apply Permutation_sym, js_sort_perm].
  rewrite Forall_forall in Hall. apply Hall. now apply in_map.
Qed.

(** X9. Two neighbours of the ranked list with the same league points, the
    same points difference and the same points for stand in ascending order
    of team id: the sort is stable and the accumulators are enumerated by
    ascending id. *)
Theorem level_teams_by_id (leagueID : N) (allFixtures : list Fixture.t)
    (allResults : list Result.t) (i : nat) (a b : Team.t) :
  let ranked := rankedTeams leagueID allFixtures allResults in
  nth_error ranked i = Some a ->
  nth_error ranked (S i) = Some b ->
  Team.points a = Team.points b ->
  Team.pointsDifference a = Team.pointsDifference b ->
  Team.pointsFor a = Team.pointsFor b ->
  (Team.teamID a < Team.teamID b)%N.
Proof.
  intros ranked Ha Hb Hp Hd Hf. subst ranked.
  unfold rankedTeams, sortedTeams in Ha, Hb.
  destruct (computeStandings_teams leagueID allFixtures allResults) as (W & Hkeys & _).
  set (st := fst (computeStandings leagueID allFixtures allResults)) in *.
  assert (Hsorted : Sorted tieOrder (js_sort compareTeams (JsObject.values st))).
  { apply js_sort_ties. rewrite (wellKeyed_values st W).
    apply Sorted_StronglySorted; [exact N.lt_trans | exact Hkeys]. }
  rewrite nth_error_assignPositions in Ha, Hb.
  destruct (nth_error (js_sort compareTeams (JsObject.values st)) i)
    as [a0 |] eqn:Ha0; [| discriminate].
  destruct (nth_error (js_sort compareTeams (JsObject.values st)) (S i))
    as [b0 |] eqn:Hb0; [| discriminate].
  simpl in Ha, Hb. injection Ha as <-. injection Hb as <-. simpl in *.
  destruct (Sorted_adjacent _ _ Hsorted i a0 b0 Ha0 Hb0) as [_ Htie].
  apply Htie. now apply compareTeams_level.
Qed.

(** ** updateStandingsForFixture *)

Lemma try_catch_total {A : Type} (m : M A) (handler : string -> M A) (w : World)
    (a : A) (w' : World) :
  m w = (inl a, w') -> try_catch m handler w = (inl a, w').
Proof. unfold try_catch. now intros ->. Qed.

Lemma update_fixtures_fail (leagues : list League.t) (fixtureID : N) (w : World) :
  hd Ok (pending w) = Fail ->
  updateStandingsForFixture leagues fixtureID w
  = failedUpdate "Failed to fetch fixture" (record_request (Read tblfixtures) Fail w).
Proof.
  intro Ho. unfold updateStandingsForFixture, try_catch, bind, crudRequest.
  rewrite Ho. reflexivity.
Qed.

Lemma update_fixtures_throw (leagues : list League.t) (fixtureID : N) (w : World)
    (e : string) :
  hd Ok (pending w) = Throw e ->
  updateStandingsForFixture leagues fixtureID w
  = failedUpdate e (record_request (Read tblfixtures) (Throw e) w).
Proof.
  intro Ho. unfold updateStandingsForFixture, try_catch, bind, crudRequest.
  rewrite Ho. reflexivity.
Qed.

Lemma update_fixture_missing (leagues : list League.t) (fixtureID : N) (w : World) :
  hd Ok (pending w) = Ok ->
  find (fun f => (Fixture.id f =? fixtureID)%N) (fixturesTable w) = None ->
  updateStandingsForFixture leagues fixtureID w
  = failedUpdate "Fixture not found" (record_request (Read tblfixtures) Ok w).
Proof.
  intros Ho Hfind. unfold updateStandingsForFixture, try_catch, bind, crudRequest.
  rewrite Ho. simpl. rewrite Hfind. reflexivity.
Qed.

Lemma update_leagues_fail (leagues : list League.t) (fixtureID : N) (w : World)
    (fixture : Fixture.t) :
  hd Ok (pending w) = Ok ->
  find (fun f => (Fixture.id f =? fixtureID)%N) (fixturesTable w) = Some fixture ->
  hd Ok (tl (pending w)) = Fail ->
  updateStandingsForFixture leagues fixtureID w
  = failedUpdate "Failed to fetch leagues" (afterLookups w).
Proof.
  intros Ho Hfind Ho2.
  unfold updateStandingsForFixture, try_catch, bind, crudRequest, readLeagues.
  rewrite Ho. simpl. rewrite Hfind. simpl. rewrite Ho2. reflexivity.
Qed.

Lemma update_leagues_throw (leagues : list League.t) (fixtureID : N) (w : World)
    (fixture : Fixture.t) (e : string) :
  hd Ok (pending w) = Ok ->
  find (fun f => (Fixture.id f =? fixtureID)%N) (fixturesTable w) = Some fixture ->
  hd Ok (tl (pending w)) = Throw e ->
  updateStandingsForFixture leagues fixtureID w = failedUpdate e (afterLookups w).
Proof.
  intros Ho Hfind Ho2.
  unfold updateStandingsForFixture, try_catch, bind, crudRequest, readLeagues.
  rewrite Ho. simpl. rewrite Hfind. simpl. rewrite Ho2. reflexivity.
Qed.

Lemma update_league_missing (leagues : list League.t) (fixtureID : N) (w : World)
    (fixture : Fixture.t) :
  hd Ok (pending w) = Ok ->
  find (fun f => (Fixture.id f =? fixtureID)%N) (fixturesTable w) = Some fixture ->
  hd Ok (tl (pending w)) = Ok ->
  find (fun l => (League.id l =? Fixture.leagueID fixture)%N) leagues = None ->
  updateStandingsForFixture leagues fixtureID w
  = failedUpdate "League not found" (afterLookups w).
Proof.
  intros Ho Hfind Ho2 Hleague.
  unfold updateStandingsForFixture, try_catch, bind, crudRequest, readLeagues.
  rewrite Ho. simpl. rewrite Hfind. simpl. rewrite Ho2. simpl.
  rewrite Hleague. reflexivity.
Qed.

Lemma update_found (leagues : list League.t) (fixtureID : N) (w : World)
    (fixture : Fixture.t) (league : League.t) :
  hd Ok (pending w) = Ok ->
  find (fun f => (Fixture.id f =? fixtureID)%N) (fixturesTable w) = Some fixture ->
  hd Ok (tl (pending w)) = Ok ->
  find (fun l => (League.id l =? Fixture.leagueID fixture)%N) leagues = Some league ->
  updateStandingsForFixture leagues fixtureID w
  = calculateLeagueStandings (Fixture.leagueID fixture) (League.leagueSeason league)
                             (afterLookups w).
Proof.
  intros Ho Hfind Ho2 Hleague.
  destruct (calc_total (Fixture.leagueID fixture) (League.leagueSeason league)
                       (afterLookups w)) as (r & w' & Hrun).
  rewrite Hrun. unfold updateStandingsForFixture. apply try_catch_total.
  unfold bind, crudRequest, readLeagues.
  rewrite Ho. simpl. rewrite Hfind. simpl. rewrite Ho2. simpl.
  rewrite Hleague. exact Hrun.
Qed.

(** The two ways in which [updateStandingsForFixture] ends: before the
    recalculation, with the tables as they were; or as the recalculation of
    the league of the fixture. *)
Lemma update_shape (leagues : list League.t) (fixtureID : N) (w : World) :
  (exists message w1,
      updateStandingsForFixture leagues fixtureID w = failedUpdate message w1
      /\ standingsTable w1 = standingsTable w
      /\ writes (trace w1) = writes (trace w))
  \/ (exists fixture league,
         find (fun f => (Fixture.id f =? fixtureID)%N) (fixturesTable w) = Some fixture
         /\ find (fun l => (League.id l =? Fixture.leagueID fixture)%N) leagues
            = Some league
         /\ updateStandingsForFixture leagues fixtureID w
            = calculateLeagueStandings (Fixture.leagueID fixture)
                (League.leagueSeason league) (afterLookups w)).
Proof.
  assert (Hwrites : forall o, writes (trace w ++ [(Read tblfixtures, o)])
                              = writes (trace w))
    by (intro o; rewrite writes_app; simpl; apply app_nil_r).
  destruct (hd Ok (pending w)) as [| | e1] eqn:H1.
  - destruct (find (fun f => (Fixture.id f =? fixtureID)%N) (fixturesTable w))
      as [fixture |] eqn:Hf.
    + destruct (hd Ok (tl (pending w))) as [| | e2] eqn:H2.
      * destruct (find (fun l => (League.id l =? Fixture.leagueID fixture)%N) leagues)
          as [league |] eqn:Hl.
        -- right. exists fixture, league. split; [reflexivity |]. split; [exact Hl |].
           now apply update_found.
        -- left. exists "League not found", (afterLookups w).
           split; [now apply (update_league_missing _ _ _ fixture) |]. simpl. auto.
      * left. exists "Failed to fetch leagues", (afterLookups w).
        split; [now apply (update_leagues_fail _ _ _ fixture) |]. simpl. auto.
      * left. exists e2, (afterLookups w).
        split; [now apply (update_leagues_throw _ _ _ fixture) |]. simpl. auto.
    + left. exists "Fixture not found", (record_request (Read tblfixtures) Ok w).
      split; [now apply update_fixture_missing |]. simpl. auto.
  - left. exists "Failed to fetch fixture", (record_request (Read tblfixtures) Fail w).
    split; [now apply update_fixtures_fail |]. simpl. auto.
  - left. exists e1, (record_request (Read tblfixtures) (Throw e1) w).
    split; [now apply update_fixtures_throw |]. simpl. auto.
Qed.

(** X10. When the fixture is not in the fixtures table, or its league is not
    in the leagues table, [updateStandingsForFixture] returns
    [success = false] with "Fixture not found", resp. "League not found": it
    sends no create or update, leaves the standings table as it is, and for a
    missing fixture does not even read the leagues. *)
Theorem update_lookup_failures (leagues : list League.t) (fixtureID : N) (w : World) :
  hd Ok (pending w) = Ok ->
  (find (fun f => (Fixture.id f =? fixtureID)%N) (fixturesTable w) = None ->
   exists w',
     updateStandingsForFixture leagues fixtureID w
     = (inl (mkResult false "Fixture not found"), w')
     /\ standingsTable w' = standingsTable w
     /\ trace w' = trace w ++ [(Read tblfixtures, Ok)]
     /\ pending w' = tl (pending w))
  /\ (forall fixture,
         find (fun f => (Fixture.id f =? fixtureID)%N) (fixturesTable w)
         = Some fixture ->
         hd Ok (tl (pending w)) = Ok ->
         find (fun l => (League.id l =? Fixture.leagueID fixture)%N) leagues = None ->
         exists w',
           updateStandingsForFixture leagues fixtureID w
           = (inl (mkResult false "League not found"), w')
           /\ standingsTable w' = standingsTable w
           /\ trace w' = trace w ++ [(Read tblfixtures, Ok)]
           /\ pending w' = tl (tl (pending w))).
Proof.
  intro Ho. split.
  - intro Hfind. rewrite (update_fixture_missing leagues fixtureID w Ho Hfind).
    eexists. split; [reflexivity |]. simpl. auto.
  - intros fixture Hfind Ho2 Hleague.
    rewrite (update_league_missing leagues fixtureID w fixture Ho Hfind Ho2 Hleague).
    eexists. split; [reflexivity |]. simpl. auto.
Qed.

(** X11. When the fixture and its league are found,
    [updateStandingsForFixture] is the recalculation of the whole league of
    the fixture, for the season stored with that league, in the world left
    by the two lookups; when that season is not the current season nothing
    is recalculated: the call returns success with "Not current season" and
    the standings table is as before. *)
Theorem update_delegates (leagues : list League.t) (fixtureID : N) (w : World)
    (fixture : Fixture.t) (league : League.t) :
  hd Ok (pending w) = Ok ->
  find (fun f => (Fixture.id f =? fixtureID)%N) (fixturesTable w) = Some fixture ->
  hd Ok (tl (pending w)) = Ok ->
  find (fun l => (League.id l =? Fixture.leagueID fixture)%N) leagues = Some league ->
  updateStandingsForFixture leagues fixtureID w
  = calculateLeagueStandings (Fixture.leagueID fixture) (League.leagueSeason league)
                             (afterLookups w)
  /\ (League.leagueSeason league <> CURRENT_SEASON w ->
      fst (updateStandingsForFixture leagues fixtureID w)
      = inl (mkResult true "Not current season")
      /\ standingsTable (snd (updateStandingsForFixture leagues fixtureID w))
         = standingsTable w
      /\ writes (trace (snd (updateStandingsForFixture leagues fixtureID w)))
         = writes (trace w)).
Proof.
  intros Ho Hfind Ho2 Hleague.
  rewrite (update_found leagues fixtureID w fixture league Ho Hfind Ho2 Hleague).
  split; [reflexivity |].
  intro Hne. rewrite calc_skip by exact Hne. simpl.
  repeat split. rewrite writes_app. simpl. apply app_nil_r.
Qed.

(** ** The frame of a recalculation, for the callers *)

Lemma calc_framed (leagueID : N) (leagueSeason : string) (w : World) :
  primaryKey (standingsTable w) ->
  framed leagueID (teamIDs (leagueFixtures leagueID (fixturesTable w))) w
         (snd (calculateLeagueStandings leagueID leagueSeason w)).
Proof.
  intro Hk. apply calc_preserves.
  - intros w0 lines H. exact H.
  - intros w0 table o (Hk0 & Hrows & Hf & Hr & new & Htr & Hnew).
    unfold framed. simpl. repeat split; auto.
    exists (new ++ [(Read table, o)]).
    rewrite Htr, <- app_assoc, writes_app. split; [reflexivity |].
    apply Forall_app. split; [exact Hnew | constructor].
  - intros team w0 Hteam. apply framed_persistTeam.
    destruct (rankedTeams_teamIDs leagueID (fixturesTable w) (resultsTable w))
      as [_ Hids].
    apply Hids. now apply in_map.
  - unfold framed. repeat split; auto.
    exists []. rewrite app_nil_r. split; [reflexivity | constructor].
Qed.

(** A recalculation keeps the ids of the rows distinct and every row of
    another league. *)
Lemma calc_other_leagues (leagueID : N) (leagueSeason : string) (w : World) :
  primaryKey (standingsTable w) ->
  primaryKey (standingsTable (snd (calculateLeagueStandings leagueID leagueSeason w)))
  /\ forall row,
       In row (standingsTable w) ->
       Standing.leagueID (Standing.fields row) <> leagueID ->
       In row (standingsTable (snd (calculateLeagueStandings leagueID leagueSeason w))).
Proof.
  intro Hk. destruct (calc_framed leagueID leagueSeason w Hk) as (Hk' & Hrows & _).
  split; [exact Hk' |].
  intros row Hrow Hne.
  set (teams := teamIDs (leagueFixtures leagueID (fixturesTable w))) in *.
  assert (Hin : In row (filter (untouchable leagueID teams) (standingsTable w))).
  { apply filter_In. split; [exact Hrow |].
    unfold untouchable, concerns. apply negb_true_iff, andb_false_iff.
    left. now apply N.eqb_neq. }
  rewrite <- Hrows in Hin. now apply filter_In in Hin.
Qed.

(** X12. Whatever the outcomes of the requests and whatever the leagues
    table holds, [updateStandingsForFixture] leaves every standings row of a
    league other than the league of the fixture in the table as it is. *)
Theorem update_frame (leagues : list League.t) (fixtureID : N) (w : World)
    (row : Standing.t) :
  primaryKey (standingsTable w) ->
  In row (standingsTable w) ->
  (forall fixture,
      find (fun f => (Fixture.id f =? fixtureID)%N) (fixturesTable w) = Some fixture ->
      Standing.leagueID (Standing.fields row) <> Fixture.leagueID fixture) ->
  In row (standingsTable (snd (updateStandingsForFixture leagues fixtureID w))).
Proof.
  intros Hk Hrow Hother.
  destruct (update_shape leagues fixtureID w)
    as [(message & w1 & -> & Hrows & _) | (fixture & league & Hf & _ & ->)].
  - simpl. now rewrite Hrows.
  - apply calc_other_leagues; [exact Hk | exact Hrow | now apply Hother].
Qed.

(** ** recalculateAll *)

Lemma persistTeam_season (leagueID : N) (team : Team.t) (w : World) :
  CURRENT_SEASON (snd (persistTeam leagueID team w)) = CURRENT_SEASON w.
Proof.
  rewrite persistTeam_run. cbv zeta. cbn [pending record_request].
  destruct (hd Ok (pending w)) as [| | e1];
    destruct (hd Ok (tl (pending w))) as [| | e2]; reflexivity.
Qed.

Lemma calc_season (leagueID : N) (leagueSeason : string) (w : World) :
  CURRENT_SEASON (snd (calculateLeagueStandings leagueID leagueSeason w))
  = CURRENT_SEASON w.
Proof.
  apply (calc_preserves (fun w' => CURRENT_SEASON w' = CURRENT_SEASON w)); auto.
  intros team w0 _ H. now rewrite persistTeam_season.
Qed.

(** What a recalculation can return: the skip for another season; for the
    current season, the update or a failure. *)
Lemma calc_result_kinds (leagueID : N) (leagueSeason : string) (w : World) :
  (leagueSeason <> CURRENT_SEASON w
   /\ fst (calculateLeagueStandings leagueID leagueSeason w)
      = inl (mkResult true "Not current season"))
  \/ (leagueSeason = CURRENT_SEASON w
      /\ (fst (calculateLeagueStandings leagueID leagueSeason w)
          = inl (mkResult true "Standings updated successfully")
          \/ exists message,
               fst (calculateLeagueStandings leagueID leagueSeason w)
               = inl (mkResult false message))).
Proof.
  destruct (string_dec leagueSeason (CURRENT_SEASON w)) as [-> | Hne].
  - right. split; [reflexivity |].
    destruct (hd Ok (pending w)) as [| | e1] eqn:H1.
    + destruct (hd Ok (tl (pending w))) as [| | e2] eqn:H2.
      * rewrite (calc_main leagueID w H1 H2). cbv zeta.
        destruct (forEachM _ _ _) as [[[] | e] w']; simpl; eauto.
      * rewrite (calc_results_fail leagueID w H1 H2). simpl. eauto.
      * rewrite (calc_results_throw leagueID w e2 H1 H2). simpl. eauto.
    + rewrite (calc_fixtures_fail leagueID w H1). simpl. eauto.
    + rewrite (calc_fixtures_throw leagueID w e1 H1). simpl. eauto.
  - left. split; [exact Hne |]. now rewrite calc_skip.
Qed.

Lemma tallyLeague_run (acc : Tally) (league : League.t) (w : World) :
  exists result w',
    calculateLeagueStandings (League.id league) (League.leagueSeason league)
      (with_console (console w ++ [recalculatingLine league]) w)
    = (inl result, w')
    /\ tallyLeague acc league w
       = (inl (if success result then
                 if (message result =? "Not current season")%string then
                   mkTally (successCount acc) (S (skipCount acc))
                           (currentSeasonProcessed acc)
                 else
                   mkTally (S (successCount acc)) (skipCount acc)
                           (Some (League.leagueSeason league))
               else acc), w').
Proof.
  destruct (calc_total (League.id league) (League.leagueSeason league)
                       (with_console (console w ++ [recalculatingLine league]) w))
    as (result & w' & Hrun).
  exists result, w'. split; [exact Hrun |].
  unfold tallyLeague, bind, console_write. rewrite Hrun. reflexivity.
Qed.

(** The counters after the loop over the leagues, whatever the outcomes of
    the requests. *)
Lemma tallyLeagues_counts (leagues : list League.t) :
  forall acc w,
  exists tally w',
    tallyLeagues acc leagues w = (inl tally, w')
    /\ CURRENT_SEASON w' = CURRENT_SEASON w
    /\ skipCount tally
       = (skipCount acc
          + List.length (filter (fun l => negb (inSeason (CURRENT_SEASON w) l)) leagues))%nat
    /\ (successCount acc <= successCount tally
        <= successCount acc
           + List.length (filter (inSeason (CURRENT_SEASON w)) leagues))%nat
    /\ (currentSeasonProcessed tally = currentSeasonProcessed acc
        \/ currentSeasonProcessed tally = Some (CURRENT_SEASON w))
    /\ ((successCount acc < successCount tally)%nat ->
        currentSeasonProcessed tally = Some (CURRENT_SEASON w)).
Proof.
  induction leagues as [| league leagues IH]; intros acc w.
  - exists acc, w. simpl. repeat split; auto; lia.
  - destruct (tallyLeague_run acc league w) as (result & w1 & Hcalc & Hstep).
    pose proof (calc_season (League.id league) (League.leagueSeason league)
                  (with_console (console w ++ [recalculatingLine league]) w)) as Hs.
    pose proof (calc_result_kinds (League.id league) (League.leagueSeason league)
                  (with_console (console w ++ [recalculatingLine league]) w)) as Hkind.
    rewrite Hcalc in Hs, Hkind. cbn [fst snd CURRENT_SEASON with_console] in Hs, Hkind.
    cbn [tallyLeagues]. unfold bind. rewrite Hstep.
    match goal with
    | |- context [tallyLeagues ?a leagues w1] =>
        destruct (IH a w1) as (tally & w' & Hrun & Hs' & Hskip & Hsucc & Hcur & Hnew)
    end.
    exists tally, w'. rewrite Hrun, Hs', Hs. split; [reflexivity |].
    split; [reflexivity |].
    rewrite Hs in Hskip, Hsucc, Hcur, Hnew.
    cbn [filter].
    change (inSeason (CURRENT_SEASON w) league)
      with (League.leagueSeason league =? CURRENT_SEASON w)%string.
    destruct Hkind as [[Hne Hres] | [Heq [Hres | [m Hres]]]];
      injection Hres as ->; cbn [success message] in *.
    + apply String.eqb_neq in Hne. rewrite Hne. cbn [negb List.length].
      rewrite String.eqb_refl in *. cbn [successCount skipCount currentSeasonProcessed] in *.
      repeat split; auto; lia.
    + rewrite Heq, String.eqb_refl. cbn [negb List.length].
      change ("Standings updated successfully" =? "Not current season")%string
        with false in *.
      cbn [successCount skipCount currentSeasonProcessed] in *.
      rewrite Heq in *.
      repeat split; auto; try lia;
        destruct Hcur as [Hcur | Hcur]; auto.
    + rewrite Heq, String.eqb_refl. cbn [negb List.length].
      repeat split; auto; try lia.
Qed.

Lemma recalculate_run (leagues : list League.t) (w : World) :
  hd Ok (pending w) = Ok ->
  exists tally w',
    tallyLeagues (mkTally 0 0 None) leagues (consume_outcome w) = (inl tally, w')
    /\ recalculateAll leagues w
       = (inl (Recalculated (successCount tally) (skipCount tally)
                            (notifiedSeason tally)), w').
Proof.
  intro Ho.
  destruct (tallyLeagues_counts leagues (mkTally 0 0 None) (consume_outcome w))
    as (tally & w' & Hrun & _).
  exists tally, w'. split; [exact Hrun |].
  unfold recalculateAll, try_catch, bind, readLeagues. rewrite Ho. simpl.
  rewrite Hrun. reflexivity.
Qed.

(** X13. Whatever the outcomes of the later requests, once the leagues were
    read [recalculateAll] reports as skipped exactly the leagues whose
    season is not the current season and as updated at most the leagues of
    the current season; it sends notifications only when it updated a
    league, and then for the current season. *)
Theorem recalculate_tally (leagues : list League.t) (w : World) :
  hd Ok (pending w) = Ok ->
  exists updated skipped notified w',
    recalculateAll leagues w = (inl (Recalculated updated skipped notified), w')
    /\ skipped
       = List.length (filter (fun l => negb (inSeason (CURRENT_SEASON w) l)) leagues)
    /\ (updated <= List.length (filter (inSeason (CURRENT_SEASON w)) leagues))%nat
    /\ (forall season,
           notified = Some season ->
           season = CURRENT_SEASON w /\ (0 < updated)%nat /\ season <> "").
Proof.
  intro Ho.
  destruct (recalculate_run leagues w Ho) as (tally & w' & Hrun & Hall).
  destruct (tallyLeagues_counts leagues (mkTally 0 0 None) (consume_outcome w))
    as (tally' & w'' & Hrun' & _ & Hskip & Hsucc & Hcur & _).
  rewrite Hrun in Hrun'. injection Hrun' as <- <-.
  cbn [successCount skipCount currentSeasonProcessed CURRENT_SEASON consume_outcome]
    in Hskip, Hsucc, Hcur.
  do 4 eexists. split; [exact Hall |].
  split; [exact Hskip |]. split; [lia |].
  intros season Hn. unfold notifiedSeason in Hn.
  destruct (currentSeasonProcessed tally) as [s |] eqn:Hs; [| discriminate].
  destruct (0 <? successCount tally)%nat eqn:Hpos; [| discriminate].
  destruct (s =? "")%string eqn:He; [discriminate |].
  simpl in Hn. injection Hn as <-.
  destruct Hcur as [Hcur | Hcur]; [discriminate |]. injection Hcur as ->.
  apply Nat.ltb_lt in Hpos. apply String.eqb_neq in He. auto.
Qed.

(** A recalculation for the current season succeeds when every request
    succeeds, and leaves a world in which again every request succeeds. *)
Lemma calc_ok (leagueID : N) (w : World) :
  pending w = [] ->
  exists w',
    calculateLeagueStandings leagueID (CURRENT_SEASON w) w
    = (inl (mkResult true "Standings updated successfully"), w')
    /\ pending w' = []
    /\ CURRENT_SEASON w' = CURRENT_SEASON w.
Proof.
  intro Hp. rewrite (calc_main leagueID w) by (rewrite Hp; reflexivity). cbv zeta.
  set (computed := computeStandings leagueID (fixturesTable w) (resultsTable w)).
  destruct (persist_all_ok leagueID (sortedTeams (fst computed))
                           (afterReads (snd computed) w))
    as (w' & Hrun & _ & Hp' & Hs & _).
  { simpl. now rewrite Hp. }
  exists w'. rewrite Hrun. simpl in Hs. auto.
Qed.

Lemma tallyLeagues_ok (leagues : list League.t) :
  forall acc w,
    pending w = [] ->
    exists tally w',
      tallyLeagues acc leagues w = (inl tally, w')
      /\ successCount tally
         = (successCount acc
            + List.length (filter (inSeason (CURRENT_SEASON w)) leagues))%nat
      /\ (filter (inSeason (CURRENT_SEASON w)) leagues <> [] ->
          currentSeasonProcessed tally = Some (CURRENT_SEASON w)).
Proof.
  induction leagues as [| league leagues IH]; intros acc w Hp.
  - exists acc, w. simpl. repeat split; auto. congruence.
  - destruct (tallyLeague_run acc league w) as (result & w1 & Hcalc & Hstep).
    cbn [tallyLeagues]. unfold bind. rewrite Hstep. cbn [filter].
    change (inSeason (CURRENT_SEASON w) league)
      with (League.leagueSeason league =? CURRENT_SEASON w)%string.
    destruct (String.eqb_spec (League.leagueSeason league) (CURRENT_SEASON w))
      as [Heq | Hne].
    + rewrite Heq in Hcalc.
      destruct (calc_ok (League.id league)
                  (with_console (console w ++ [recalculatingLine league]) w) Hp)
        as (w1' & Hok & Hp1 & Hs1).
      cbn [CURRENT_SEASON with_console] in Hok, Hs1.
      rewrite Hok in Hcalc. injection Hcalc as <- <-.
      cbn [success message].
      change ("Standings updated successfully" =? "Not current season")%string
        with false.
      match goal with
      | |- context [tallyLeagues ?a leagues w1'] =>
          destruct (IH a w1' Hp1) as (tally & w' & Hrun & Hsucc & Hcur)
      end.
      destruct (tallyLeagues_counts leagues
                  (mkTally (S (successCount acc)) (skipCount acc)
                           (Some (League.leagueSeason league))) w1')
        as (tally' & w'' & Hrun' & _ & _ & _ & Hkeep & _).
      rewrite Hrun in Hrun'. injection Hrun' as <- <-.
      rewrite Hs1 in Hsucc, Hcur, Hkeep.
      cbn [successCount currentSeasonProcessed] in Hsucc, Hkeep.
      exists tally, w'. rewrite Hrun. split; [reflexivity |].
      cbn [List.length]. split; [lia |].
      intros _. rewrite Heq in Hkeep. now destruct Hkeep.
    + pose proof (calc_skip (League.id league) (League.leagueSeason league)
                    (with_console (console w ++ [recalculatingLine league]) w) Hne)
        as Hskip.
      rewrite Hskip in Hcalc. injection Hcalc as <- <-.
      cbn [success message]. rewrite String.eqb_refl.
      match goal with
      | |- context [tallyLeagues ?a leagues ?w1] =>
          destruct (IH a w1 Hp) as (tally & w' & Hrun & Hsucc & Hcur)
      end.
      exists tally, w'. rewrite Hrun. split; [reflexivity |].
      cbn [CURRENT_SEASON with_console successCount] in Hsucc, Hcur.
      auto.
Qed.

(** X14. When every request succeeds, [recalculateAll] reports as updated
    exactly the leagues of the current season and as skipped exactly the
    others, and it sends the notifications, for the current season, exactly
    when there is a league of the current season (and the name of the season
    is not empty). *)
Theorem recalculate_all_ok (leagues : list League.t) (w : World) :
  pending w = [] ->
  let current := filter (inSeason (CURRENT_SEASON w)) leagues in
  let others := filter (fun l => negb (inSeason (CURRENT_SEASON w) l)) leagues in
  exists w',
    recalculateAll leagues w
    = (inl (Recalculated (List.length current) (List.length others)
              (if (0 <? List.length current)%nat
                  && negb (CURRENT_SEASON w =? "")%string
               then Some (CURRENT_SEASON w) else None)), w').
Proof.
  intros Hp current others.
  destruct (recalculate_run leagues w) as (tally & w' & Hrun & Hall);
    [now rewrite Hp |].
  destruct (tallyLeagues_ok leagues (mkTally 0 0 None) (consume_outcome w))
    as (t1 & w1 & Hrun1 & Hsucc & Hcur); [simpl; now rewrite Hp |].
  destruct (tallyLeagues_counts leagues (mkTally 0 0 None) (consume_outcome w))
    as (t2 & w2 & Hrun2 & _ & Hskip & _ & Hkeep & _).
  rewrite Hrun in Hrun1, Hrun2. injection Hrun1 as <- <-. injection Hrun2 as <- _.
  cbn [successCount skipCount currentSeasonProcessed CURRENT_SEASON consume_outcome]
    in Hsucc, Hcur, Hskip, Hkeep.
  fold current in Hsucc, Hcur. fold others in Hskip.
  exists w'. rewrite Hall. do 2 f_equal.
  rewrite Hsucc, Hskip. f_equal.
  unfold notifiedSeason. rewrite Hsucc.
  destruct current as [| league current'] eqn:Hc.
  - simpl. destruct Hkeep as [-> | ->]; [reflexivity |].
    simpl. reflexivity.
  - rewrite Hcur by discriminate. reflexivity.
Qed.

(** X15. Whatever the outcomes of the requests, [recalculateAll] leaves every
    standings row in the table as it is, unless the row belongs to a league
    of the leagues table whose season is the current season. *)
Theorem recalculate_frame (leagues : list League.t) (w : World) (row : Standing.t) :
  primaryKey (standingsTable w) ->
  In row (standingsTable w) ->
  (forall league,
      In league leagues ->
      League.id league = Standing.leagueID (Standing.fields row) ->
      League.leagueSeason league <> CURRENT_SEASON w) ->
  In row (standingsTable (snd (recalculateAll leagues w))).
Proof.
  intros Hk Hrow Hother.
  assert (Hloop : forall ls acc w0,
             (forall l, In l ls -> In l leagues) ->
             CURRENT_SEASON w0 = CURRENT_SEASON w ->
             primaryKey (standingsTable w0) ->
             In row (standingsTable w0) ->
             In row (standingsTable (snd (tallyLeagues acc ls w0)))).
  { induction ls as [| league ls IH]; intros acc w0 Hsub Hs0 Hk0 Hrow0; [exact Hrow0 |].
    destruct (tallyLeague_run acc league w0) as (result & w1 & Hcalc & Hstep).
    cbn [tallyLeagues]. unfold bind. rewrite Hstep.
    set (w0' := with_console (console w0 ++ [recalculatingLine league]) w0) in *.
    pose proof (calc_season (League.id league) (League.leagueSeason league) w0') as Hs1.
    assert (Hk0' : primaryKey (standingsTable w0')) by exact Hk0.
    destruct (calc_other_leagues (League.id league) (League.leagueSeason league)
                                 w0' Hk0') as [Hk1 Hkeep].
    rewrite Hcalc in Hs1, Hk1, Hkeep. cbn [snd] in Hs1, Hk1, Hkeep.
    apply IH.
    - intros l Hl. apply Hsub. now right.
    - rewrite Hs1. exact Hs0.
    - exact Hk1.
    - destruct (N.eq_dec (Standing.leagueID (Standing.fields row)) (League.id league))
        as [Heq | Hne].
      + assert (Hseason : League.leagueSeason league <> CURRENT_SEASON w0').
        { cbn [w0' CURRENT_SEASON with_console]. rewrite Hs0.
          apply Hother; [apply Hsub; now left | now symmetry]. }
        rewrite (calc_skip _ _ _ Hseason) in Hcalc. injection Hcalc as _ <-.
        exact Hrow0.
      + apply Hkeep; [exact Hrow0 | exact Hne]. }
  unfold recalculateAll, try_catch, bind, readLeagues.
  destruct (hd Ok (pending w)) as [| | e]; simpl; try exact Hrow.
  pose proof (Hloop leagues (mkTally 0 0 None) (consume_outcome w)
                (fun l H => H) eq_refl Hk Hrow) as H.
  destruct (tallyLeagues _ leagues (consume_outcome w)) as [[tally | e] w']; exact H.
Qed.

(** X16. When the read of the leagues table fails, with a failure status or
    with a thrown error, [recalculateAll] recalculates no league: it shows
    the error ["Failed to recalculate standings: "] followed by the message
    of the error, sends no request on the tables of the engine and leaves
    the standings as they are. *)
Theorem recalculate_read_failure (leagues : list League.t) (w : World) :
  hd Ok (pending w) <> Ok ->
  exists error w',
    recalculateAll leagues w
    = (inl (RecalculationFailed
              (String.append "Failed to recalculate standings: " error)), w')
    /\ (hd Ok (pending w) = Fail -> error = "Failed to fetch leagues")
    /\ (forall message, hd Ok (pending w) = Throw message -> error = message)
    /\ trace w' = trace w
    /\ standingsTable w' = standingsTable w
    /\ pending w' = tl (pending w).
Proof.
  intro Hno.
  unfold recalculateAll, try_catch, bind, readLeagues.
  destruct (hd Ok (pending w)) as [| | e] eqn:Ho; [congruence | |].
  - exists "Failed to fetch leagues". eexists. simpl.
    split; [reflexivity |]. repeat split; auto. intros m Hm. discriminate.
  - exists e. eexists. simpl.
    split; [reflexivity |]. repeat split; auto.
    + intro H. discriminate.
    + intros m Hm. now injection Hm.
Qed.

End Engine.

(** * The authenticated requests *)

Lemma valid_operation (operation : string) :
  existsb (String.eqb operation) Auth.validOperations = true
  <-> In operation Auth.validOperations.
Proof.
  rewrite existsb_exists. split.
  - intros (x & Hin & Heq). apply String.eqb_eq in Heq. now subst.
  - intro Hin. exists operation. split; [exact Hin | apply String.eqb_refl].
Qed.

Lemma refused_without_token (endpoint method : string) (body : option string)
    (b : Auth.Browser) :
  Auth.isAuthenticated b = false ->
  Auth.makeAuthenticatedRequest endpoint method body b
  = (inr "No authentication token found", b).
Proof.
  unfold Auth.isAuthenticated, Auth.makeAuthenticatedRequest.
  destruct (Auth.getAuthToken b) as [token |]; [| reflexivity].
  destruct (token =? "")%string; [reflexivity | discriminate].
Qed.

(** X17. [crudRequest] sends a request to the server only for one of the
    four operations and only when a token is stored: it then sends exactly
    one request, a POST to [/api/crud/<operation>] under [API_BASE_URL] with
    the stored token as bearer. In every other case it throws and leaves the
    browser as it is: nothing is sent and no reply is consumed. *)
Theorem crud_request_guard (operation : string) (data : option string)
    (b : Auth.Browser) :
  let run := Auth.crudRequest operation data b in
  (In operation Auth.validOperations
   /\ Auth.isAuthenticated b = true
   /\ exists token,
        Auth.authToken b = Some token
        /\ Auth.sent (snd run)
           = Auth.sent b
             ++ [Auth.mkSent
                   (String.append (Auth.API_BASE_URL b)
                      (String.append "/api/crud/" operation))
                   "POST" (String.append "Bearer " token) data]
        /\ Auth.replies (snd run) = tl (Auth.replies b))
  \/ ((~ In operation Auth.validOperations \/ Auth.isAuthenticated b = false)
      /\ snd run = b
      /\ exists message, fst run = inr message).
Proof.
  intro run. unfold run, Auth.crudRequest.
  destruct (existsb (String.eqb operation) Auth.validOperations) eqn:Hop.
  - apply valid_operation in Hop.
    destruct (Auth.isAuthenticated b) eqn:Hauth.
    + left. split; [exact Hop |]. split; [reflexivity |].
      unfold Auth.isAuthenticated, Auth.getAuthToken in Hauth.
      unfold Auth.makeAuthenticatedRequest, Auth.getAuthToken.
      destruct (Auth.authToken b) as [token |]; [| discriminate].
      exists token. split; [reflexivity |].
      destruct (token =? "")%string; [discriminate |].
      unfold Auth.fetch.
      destruct (hd (Auth.Answer 200 "") (Auth.replies b)) as [code answer | message];
        [destruct (code =? 403) |]; split; reflexivity.
    + right. rewrite refused_without_token by exact Hauth.
      split; [now right |]. split; [reflexivity |]. eexists. reflexivity.
  - right. split.
    + left. intro Hin. apply valid_operation in Hin. congruence.
    + split; [reflexivity |]. eexists. reflexivity.
Qed.

(** X18. The session ends exactly on a 403: when a logged-in user's request
    is answered with status code 403, the token and the user are removed, the
    page goes to [/login], the request throws
    ["Session expired. Please login again."], and from then on every
    [crudRequest] throws without sending anything. Any other answer is
    returned as it is, and neither it nor a rejected request touches the
    token, the user or the page. *)
Theorem session_ends_on_403 (operation : string) (data : option string)
    (b : Auth.Browser) :
  Auth.isAuthenticated b = true ->
  In operation Auth.validOperations ->
  let run := Auth.crudRequest operation data b in
  match hd (Auth.Answer 200 "") (Auth.replies b) with
  | Auth.Answer status_code answer =>
      if status_code =? 403 then
        fst run = inr "Session expired. Please login again."
        /\ Auth.authToken (snd run) = None
        /\ Auth.user (snd run) = None
        /\ Auth.location (snd run) = "/login"
        /\ forall operation' data',
             snd (Auth.crudRequest operation' data' (snd run)) = snd run
             /\ exists message,
                  fst (Auth.crudRequest operation' data' (snd run)) = inr message
      else
        fst run = inl (status_code, answer)
        /\ Auth.authToken (snd run) = Auth.authToken b
        /\ Auth.user (snd run) = Auth.user b
        /\ Auth.location (snd run) = Auth.location b
  | Auth.Rejected message =>
      fst run = inr message
      /\ Auth.authToken (snd run) = Auth.authToken b
      /\ Auth.user (snd run) = Auth.user b
      /\ Auth.location (snd run) = Auth.location b
  end.
Proof.
  intros Hauth Hop run. unfold run, Auth.crudRequest.
  apply valid_operation in Hop. rewrite Hop.
  unfold Auth.isAuthenticated, Auth.getAuthToken in Hauth.
  unfold Auth.makeAuthenticatedRequest, Auth.getAuthToken.
  destruct (Auth.authToken b) as [token |] eqn:Htoken; [| discriminate].
  destruct (token =? "")%string; [discriminate |].
  unfold Auth.fetch.
  destruct (hd (Auth.Answer 200 "") (Auth.replies b)) as [code answer | message].
  - destruct (code =? 403).
    + cbn [fst snd]. repeat split.
      * unfold Auth.crudRequest.
        destruct (existsb (String.eqb operation') Auth.validOperations);
          reflexivity.
      * unfold Auth.crudRequest.
        destruct (existsb (String.eqb operation') Auth.validOperations);
          eexists; reflexivity.
    + cbn [fst snd]. repeat split. exact Htoken.
  - cbn [fst snd]. repeat split. exact Htoken.
Qed.

(** * The properties on sample data *)

(** C1, on the table of league 1 after team 1 beat team 2 by 20 to 13. *)
Lemma ranking_invariant_witness :
  exists a b,
    nth_error (rankedTeams sampleParse 1 [fixture12] [result2013]) 0 = Some a
    /\ nth_error (rankedTeams sampleParse 1 [fixture12] [result2013]) 1 = Some b
    /\ rankedAbove a b
    /\ Team.position a = Some 1
    /\ Team.position b = Some 2.
Proof.
  destruct (ranking_invariant sampleParse 1 [fixture12] [result2013]) as [Hadj Hpos].
  do 2 eexists.
  split; [vm_compute; reflexivity |]. split; [vm_compute; reflexivity |].
  split; [apply (Hadj 0%nat); vm_compute; reflexivity |].
  split; [apply (Hpos 0%nat) | apply (Hpos 1%nat)]; vm_compute; reflexivity.
Defined.

(** C2: two runs in a row on unchanged fixtures and results, with a request
    that fails. First case: every request of the first run succeeds and, in
    the second run, the re-read of the standings for team 1 comes back with
    a failure status; the second run adds a second row for (league 1,
    team 1). Second case: the create for team 1 is refused in the first run
    and the row is first written by the second run. In both cases both runs
    report success and the table after the second run is not the table
    after the first. *)
Lemma recalculation_counterexample :
  (let w := worldOf [fixture12] [result2013] [row1]
                    [Ok; Ok; Ok; Ok; Ok; Ok; Ok; Ok; Fail] in
   let run1 := calculateLeagueStandings sampleParse 1 "2025-26" w in
   let run2 := calculateLeagueStandings sampleParse 1 "2025-26" (snd run1) in
   primaryKey (standingsTable w)
   /\ fixturesTable (snd run1) = fixturesTable w
   /\ resultsTable (snd run1) = resultsTable w
   /\ fst run1 = inl (mkResult true "Standings updated successfully")
   /\ fst run2 = inl (mkResult true "Standings updated successfully")
   /\ map standingKey (standingsTable (snd run1)) = [(1, 1); (1, 2)]%N
   /\ map standingKey (standingsTable (snd run2)) = [(1, 1); (1, 2); (1, 1)]%N
   /\ standingsTable (snd run2) <> standingsTable (snd run1))
  /\ (let w := worldOf [fixture12] [result2013] [] [Ok; Ok; Ok; Fail] in
      let run1 := calculateLeagueStandings sampleParse 1 "2025-26" w in
      let run2 := calculateLeagueStandings sampleParse 1 "2025-26" (snd run1) in
      fst run1 = inl (mkResult true "Standings updated successfully")
      /\ fst run2 = inl (mkResult true "Standings updated successfully")
      /\ map standingKey (standingsTable (snd run1)) = [(1, 2)]%N
      /\ map standingKey (standingsTable (snd run2)) = [(1, 2); (1, 1)]%N
      /\ standingsTable (snd run2) <> standingsTable (snd run1)).
Proof.
  cbv zeta. split.
  - split; [unfold primaryKey; vm_compute; repeat constructor; simpl; tauto |].
    split; [vm_compute; reflexivity |]. split; [vm_compute; reflexivity |].
    split; [vm_compute; reflexivity |]. split; [vm_compute; reflexivity |].
    split; [vm_compute; reflexivity |]. split; [vm_compute; reflexivity |].
    vm_compute. discriminate.
  - split; [vm_compute; reflexivity |]. split; [vm_compute; reflexivity |].
    split; [vm_compute; reflexivity |]. split; [vm_compute; reflexivity |].
    vm_compute. discriminate.
Qed.

(** C2 (amended), on a world in which team 1 already has a row. *)
Lemma recalculation_idempotent_witness :
  let w := worldOf [fixture12] [result2013] [row1] [] in
  let w1 := snd (calculateLeagueStandings sampleParse 1 "2025-26" w) in
  let w2 := snd (calculateLeagueStandings sampleParse 1 "2025-26" w1) in
  primaryKey (standingsTable w)
  /\ pending w = []
  /\ standingsTable w2 = standingsTable w1.
Proof.
  intros w w1 w2.
  assert (Hk : primaryKey (standingsTable w)).
  { unfold primaryKey. vm_compute. repeat constructor. simpl. tauto. }
  split; [exact Hk |]. split; [reflexivity |].
  exact (proj1 (proj2 (proj2
           (recalculation_idempotent sampleParse 1 "2025-26" w Hk eq_refl)))).
Defined.

(** C3: a fixture in which the loser, beaten by exactly 7 points, also
    scored four tries. The loser ends with 2 bonus points and 2 league
    points, not with exactly 1 of each. *)
Lemma losing_bonus_counterexample :
  let st := fst (computeStandings sampleParse 1 [fixture12] [result2720]) in
  parseIntOr0 (Result.homeScore result2720)
  = parseIntOr0 (Result.awayScore result2720) + 7
  /\ exists loser,
       JsObject.get st 2 = Some loser
       /\ Team.won loser = 0
       /\ Team.lost loser = 1
       /\ Team.bonusPoints loser = 2
       /\ Team.points loser = 2
       /\ ~ (Team.bonusPoints loser = 1 /\ Team.points loser = 1).
Proof.
  cbv zeta. split; [vm_compute; reflexivity |].
  eexists. split; [vm_compute; reflexivity |].
  vm_compute. repeat split. intros [H _]. discriminate H.
Qed.

(** C3 (amended), on the 20 to 13 win of team 1 over team 2. *)
Lemma losing_bonus_boundary_witness :
  exists h' a',
    JsObject.get (fst (processFixture sampleParse twoTeams fixture12 result2013)) 1
    = Some h'
    /\ JsObject.get (fst (processFixture sampleParse twoTeams fixture12 result2013)) 2
       = Some a'
    /\ Team.won h' = 1 /\ Team.points h' = 4
    /\ Team.won a' = 0 /\ Team.lost a' = 1
    /\ Team.bonusPoints a' = 1 /\ Team.points a' = 1.
Proof.
  destruct (losing_bonus_boundary sampleParse twoTeams fixture12 result2013
              (Team.zero 1) (Team.zero 2))
    as (h' & a' & Hh & Ha & Hhome & _).
  - discriminate.
  - reflexivity.
  - reflexivity.
  - exists h', a'. split; [exact Hh |]. split; [exact Ha |].
    destruct Hhome as (Hw & Hp & Hw' & Hl & H7 & _).
    + vm_compute. discriminate.
    + destruct H7 as [Hb Hq]; [vm_compute; reflexivity |].
      vm_compute in Hw, Hp, Hw', Hl, Hb, Hq. repeat split; assumption.
Defined.

(** C4: a run on a table that holds the row of team 1, in which the re-read
    of the standings table for team 1 comes back with a failure status.
    Before the run there is one row per (leagueID, teamID); the run reports
    success and leaves two rows for (league 1, team 1). *)
Theorem failed_reread_duplicates :
  let w := worldOf [fixture12] [] [row1] [Ok; Ok; Fail] in
  let run := calculateLeagueStandings sampleParse 1 "2025-26" w in
  primaryKey (standingsTable w)
  /\ uniqueStandings (standingsTable w)
  /\ fst run = inl (mkResult true "Standings updated successfully")
  /\ map fst (trace (snd run))
     = [Read tblfixtures; Read tblresults;
        Read tblstandings; Create (standingData 1 (Team.zero 1));
        Read tblstandings; Create (standingData 1 (Team.zero 2))]
  /\ map standingKey (standingsTable (snd run)) = [(1, 1); (1, 1); (1, 2)]%N
  /\ ~ uniqueStandings (standingsTable (snd run)).
Proof.
  cbv zeta.
  split; [unfold primaryKey; vm_compute; repeat constructor; simpl; tauto |].
  split; [unfold uniqueStandings; vm_compute; repeat constructor; simpl; tauto |].
  split; [vm_compute; reflexivity |].
  split; [vm_compute; reflexivity |].
  assert (Hkeys : map standingKey
                    (standingsTable
                       (snd (calculateLeagueStandings sampleParse 1 "2025-26"
                               (worldOf [fixture12] [] [row1] [Ok; Ok; Fail]))))
                  = [(1, 1); (1, 1); (1, 2)]%N)
    by (vm_compute; reflexivity).
  split; [exact Hkeys |].
  unfold uniqueStandings. rewrite Hkeys.
  intro H. apply NoDup_cons_iff in H. destruct H as [H _]. apply H. now left.
Qed.

(** C5, on a call for the season 2024-25 while the current one is 2025-26. *)
Lemma season_gate_witness :
  let w := worldOf [fixture12] [result2013] [row1] [] in
  exists w',
    calculateLeagueStandings sampleParse 1 "2024-25" w
    = (inl (mkResult true "Not current season"), w')
    /\ standingsTable w' = standingsTable w
    /\ trace w' = trace w.
Proof.
  intro w.
  destruct (season_gate sampleParse 1 "2024-25" w) as (w' & Hrun & _ & _ & Hs & Ht & _).
  - vm_compute. discriminate.
  - exists w'. auto.
Defined.

(** C6, on a run whose read of the fixtures fails. *)
Lemma read_failure_aborts_witness :
  let w := worldOf [fixture12] [result2013] [row1] [Fail] in
  exists w',
    calculateLeagueStandings sampleParse 1 "2025-26" w
    = (inl (mkResult false "Failed to fetch fixtures"), w')
    /\ trace w' = [(Read tblfixtures, Fail)]
    /\ standingsTable w' = [row1].
Proof.
  intro w.
  destruct (read_failure_aborts sampleParse 1 w)
    as (message & w' & Hrun & Hfix & _ & _ & Hs & _).
  - left. reflexivity.
  - destruct Hfix as [Hm Ht]; [reflexivity |].
    exists w'. rewrite <- Hm. auto.
Defined.

(** C7: the create for the first of two teams throws. The run returns
    [success = false] with the message of the error and the second team is
    never processed: the trace ends with the request that threw. *)
Lemma write_throw_counterexample :
  let w := worldOf [fixture12] [result2013] [] [Ok; Ok; Ok; Throw "Network error"] in
  let run := calculateLeagueStandings sampleParse 1 "2025-26" w in
  List.length (rankedTeams sampleParse 1 [fixture12] [result2013]) = 2%nat
  /\ fst run = inl (mkResult false "Network error")
  /\ map fst (trace (snd run))
     = [Read tblfixtures; Read tblresults; Read tblstandings;
        Create (standingData 1
                  (Team.mk 1 1 1 0 0 20 13 7 0 4 (Some 1)))]
  /\ standingsTable (snd run) = []
  /\ fst run <> inl (mkResult true "Standings updated successfully").
Proof.
  cbv zeta.
  split; [vm_compute; reflexivity |]. split; [vm_compute; reflexivity |].
  split; [vm_compute; reflexivity |]. split; [vm_compute; reflexivity |].
  vm_compute. discriminate.
Qed.

(** C7 (amended), on a run in which the create for the first of two teams
    comes back with a failure status. *)
Lemma write_failures_ignored_witness :
  let w := worldOf [fixture12] [result2013] [] [Ok; Ok; Ok; Fail] in
  exists w' new,
    calculateLeagueStandings sampleParse 1 "2025-26" w
    = (inl (mkResult true "Standings updated successfully"), w')
    /\ trace w' = [(Read tblfixtures, Ok); (Read tblresults, Ok)] ++ new
    /\ List.length (writes new) = 2%nat
    /\ console w' = [].
Proof.
  intro w.
  destruct (proj1 (write_failures_ignored sampleParse 1 w))
    as (w' & new & Hrun & Ht & Hw & Hc).
  - reflexivity.
  - reflexivity.
  - repeat constructor.
  - exists w', new. split; [exact Hrun |]. split; [exact Ht |].
    split; [rewrite Hw; vm_compute; reflexivity |].
    rewrite Hc. vm_compute. reflexivity.
Defined.



(** C9: team 1 wins by 30 to 20 with four tries of its own, and the scorers
    of team 2 are not valid JSON. The winner ends with 4 league points and
    no bonus point, not with 5 and 1. *)
Lemma bonus_independence_counterexample :
  let st := fst (computeStandings sampleParse 1 [fixture12] [result3020tries]) in
  Result.homeScorers result3020tries = FieldParsed (JArray [aTry; aTry; aTry; aTry])
  /\ triesIn [aTry; aTry; aTry; aTry] = 4
  /\ decodeScorers sampleParse (Result.awayScorers result3020tries) = None
  /\ exists winner,
       JsObject.get st 1 = Some winner
       /\ Team.won winner = 1
       /\ Team.points winner = 4
       /\ Team.bonusPoints winner = 0
       /\ ~ (Team.points winner = 5 /\ Team.bonusPoints winner = 1).
Proof.
  cbv zeta. split; [reflexivity |]. split; [vm_compute; reflexivity |].
  split; [vm_compute; reflexivity |].
  eexists. split; [vm_compute; reflexivity |].
  vm_compute. repeat split. intros [H _]. discriminate H.
Qed.

(** C9 (amended), on the 27 to 20 win of team 1 over team 2 with four tries
    for the loser: the loser collects the losing bonus and the try bonus;
    and on the 30 to 20 win in which the scorers of team 2 are not valid
    JSON: the four tries of the winner bring nothing. *)
Lemma bonus_independence_witness :
  (exists h' a',
      JsObject.get (fst (processFixture sampleParse twoTeams fixture12 result2720)) 1
      = Some h'
      /\ JsObject.get (fst (processFixture sampleParse twoTeams fixture12 result2720)) 2
         = Some a'
      /\ Team.points h' = 4
      /\ Team.points a' = 2
      /\ Team.bonusPoints a' = 2)
  /\ (exists h',
         JsObject.get (fst (processFixture sampleParse twoTeams fixture12
                                           result3020tries)) 1
         = Some h'
         /\ Team.points h' = 4
         /\ Team.bonusPoints h' = 0).
Proof.
  split.
  - destruct (bonus_independence sampleParse twoTeams fixture12 result2720
                (Team.zero 1) (Team.zero 2))
      as (h' & a' & Hh & Ha & Hlists & _).
    + discriminate.
    + reflexivity.
    + reflexivity.
    + exists h', a'. split; [exact Hh |]. split; [exact Ha |].
      destruct (Hlists [] [aTry; aTry; aTry; aTry])
        as (_ & Hp & _ & _ & _ & _ & Hboth & _).
      * reflexivity.
      * reflexivity.
      * split; [exact Hp |].
        destruct Hboth as [H1 H2].
        -- vm_compute. split; [reflexivity | discriminate].
        -- vm_compute. discriminate.
        -- vm_compute in H1, H2. auto.
  - destruct (bonus_independence sampleParse twoTeams fixture12 result3020tries
                (Team.zero 1) (Team.zero 2))
      as (h' & a' & Hh & _ & _ & Hbad).
    + discriminate.
    + reflexivity.
    + reflexivity.
    + exists h'. split; [exact Hh |].
      destruct Hbad as (Hb & Hp & _).
      * right. split; [discriminate | left; reflexivity].
      * vm_compute in Hb, Hp. auto.
Defined.

(** C10, on a run for league 1 over a table that also holds a row of
    league 2 and a row of team 3, which is in no completed fixture. *)
Lemma standings_frame_witness :
  let other := Standing.mk 2 (standingData 2 (Team.zero 1)) in
  let idle := Standing.mk 3 (standingData 1 (Team.zero 3)) in
  let w := worldOf [fixture12; Fixture.mk 11 1 3 1 0] [result2013]
                   [row1; other; idle] [] in
  let w' := snd (calculateLeagueStandings sampleParse 1 "2025-26" w) in
  primaryKey (standingsTable w)
  /\ In other (standingsTable w')
  /\ In idle (standingsTable w')
  /\ fixturesTable w' = fixturesTable w.
Proof.
  intros other idle w w'.
  assert (Hk : primaryKey (standingsTable w)).
  { unfold primaryKey. vm_compute. repeat constructor; simpl; intuition discriminate. }
  split; [exact Hk |].
  destruct (standings_frame sampleParse 1 "2025-26" w Hk)
    as (_ & Hrows & _ & Hf & _).
  split; [| split; [| exact Hf]].
  - apply Hrows; [simpl; auto |]. left. discriminate.
  - apply Hrows; [simpl; auto |]. right.
    intros (f & Hin & _ & Hs & Hteam). simpl in Hin.
    destruct Hin as [<- | [<- | []]].
    + vm_compute in Hteam. destruct Hteam; discriminate.
    + vm_compute in Hs. discriminate.
Defined.

(** X1, on the table of league 1 after team 1 beat team 2 by 20 to 13. *)
Lemma ranked_matches_add_up_witness :
  exists team,
    nth_error (rankedTeams sampleParse 1 [fixture12] [result2013]) 0 = Some team
    /\ Team.played team = 1
    /\ Team.played team = Team.won team + Team.drawn team + Team.lost team.
Proof.
  eexists. split; [vm_compute; reflexivity |]. split; [vm_compute; reflexivity |].
  apply (ranked_matches_add_up sampleParse 1 [fixture12] [result2013]).
  vm_compute. left. reflexivity.
Defined.

(** X2, on the loser of the 27 to 20 match, who scored four tries. *)
Lemma ranked_points_formula_witness :
  exists team,
    nth_error (rankedTeams sampleParse 1 [fixture12] [result2720]) 1 = Some team
    /\ Team.bonusPoints team = 2
    /\ Team.points team
       = 4 * Team.won team + 2 * Team.drawn team + Team.bonusPoints team.
Proof.
  eexists. split; [vm_compute; reflexivity |]. split; [vm_compute; reflexivity |].
  apply (ranked_points_formula sampleParse 1 [fixture12] [result2720]).
  vm_compute. right. left. reflexivity.
Defined.

(** X3, on the same table. *)
Lemma league_scores_balance_witness :
  exists team,
    nth_error (rankedTeams sampleParse 1 [fixture12] [result2720]) 0 = Some team
    /\ Team.pointsDifference team = Team.pointsFor team - Team.pointsAgainst team
    /\ total Team.pointsDifference
             (rankedTeams sampleParse 1 [fixture12] [result2720]) = 0.
Proof.
  destruct (league_scores_balance sampleParse 1 [fixture12] [result2720])
    as (Hpd & _ & Hzero).
  eexists. split; [vm_compute; reflexivity |].
  split; [apply Hpd; vm_compute; left; reflexivity | exact Hzero].
Defined.

(** X5, on a results table with two rows for fixture 10. *)
Lemma last_result_wins_witness :
  JsObject.get (resultsMap [result2013; result2720]) 10 = Some result2720
  /\ JsObject.get (resultsMap [result2013; result2720]) 11 = None.
Proof.
  destruct (last_result_wins [result2013; result2720]) as [Hlast Hnone].
  split.
  - apply (Hlast [result2013] result2720 []); [reflexivity |].
    intros r' [].
  - apply Hnone. intros r [<- | [<- | []]]; vm_compute; discriminate.
Defined.

(** X6, on league 1 with its completed fixture and an empty results
    table. *)
Lemma fixtures_without_results_witness :
  exists team,
    nth_error (rankedTeams sampleParse 1 [fixture12] []) 0 = Some team
    /\ untouched team.
Proof.
  eexists. split; [vm_compute; reflexivity |].
  apply (fixtures_without_results sampleParse 1 [fixture12] []).
  - intros f r _ _ _ [].
  - vm_compute. left. reflexivity.
Defined.

(** X7, on a run in which every request succeeds. *)
Lemma writes_follow_ranking_witness :
  let w := worldOf [fixture12] [result2013] [] [] in
  let run := calculateLeagueStandings sampleParse 1 "2025-26" w in
  writes (trace (snd run))
  = map (standingData 1) (rankedTeams sampleParse 1 [fixture12] [result2013]).
Proof.
  intros w run.
  assert (Htrace : trace (snd run) = trace w ++ trace (snd run))
    by (vm_compute; reflexivity).
  assert (Hok : fst run = inl (mkResult true "Standings updated successfully"))
    by (vm_compute; reflexivity).
  exact (proj2 (writes_follow_ranking sampleParse 1 "2025-26" w
                  (trace (snd run)) Htrace) Hok).
Defined.

(** X8, on a run in which the create for the first team throws. *)
Lemma written_rows_consistent_witness :
  let w := worldOf [fixture12] [result2013] [] [Ok; Ok; Ok; Throw "Network error"] in
  let run := calculateLeagueStandings sampleParse 1 "2025-26" w in
  let d := standingData 1 (Team.mk 1 1 1 0 0 20 13 7 0 4 (Some 1)) in
  writes (trace (snd run)) = [d]
  /\ consistentData d.
Proof.
  intros w run d.
  assert (Hw : writes (trace (snd run)) = [d]) by (vm_compute; reflexivity).
  split; [exact Hw |].
  apply (written_rows_consistent sampleParse 1 "2025-26" w (trace (snd run)) d).
  - vm_compute. reflexivity.
  - rewrite Hw. left. reflexivity.
Defined.

(** X9, on league 1 before any result: teams 1 and 2 are level. *)
Lemma level_teams_by_id_witness :
  exists a b,
    nth_error (rankedTeams sampleParse 1 [fixture12] []) 0 = Some a
    /\ nth_error (rankedTeams sampleParse 1 [fixture12] []) 1 = Some b
    /\ Team.points a = Team.points b
    /\ (Team.teamID a < Team.teamID b)%N.
Proof.
  do 2 eexists.
  split; [vm_compute; reflexivity |]. split; [vm_compute; reflexivity |].
  split; [vm_compute; reflexivity |].
  apply (level_teams_by_id sampleParse 1 [fixture12] [] 0%nat);
    vm_compute; reflexivity.
Defined.

(** X10, on a call for fixture 99, which is not in the table, and on a call
    for fixture 10 with an empty leagues table. *)
Lemma update_lookup_failures_witness :
  let w := worldOf [fixture12] [result2013] [row1] [] in
  (exists w',
      updateStandingsForFixture sampleParse sampleLeagues 99 w
      = (inl (mkResult false "Fixture not found"), w')
      /\ standingsTable w' = [row1])
  /\ (exists w',
         updateStandingsForFixture sampleParse [] 10 w
         = (inl (mkResult false "League not found"), w')
         /\ standingsTable w' = [row1]).
Proof.
  intro w. split.
  - destruct (proj1 (update_lookup_failures sampleParse sampleLeagues 99 w eq_refl))
      as (w' & Hrun & Hs & _); [reflexivity |].
    exists w'. split; [exact Hrun | exact Hs].
  - destruct (proj2 (update_lookup_failures sampleParse [] 10 w eq_refl) fixture12)
      as (w' & Hrun & Hs & _); [reflexivity | reflexivity | reflexivity |].
    exists w'. split; [exact Hrun | exact Hs].
Defined.

(** X11, on a call for fixture 10 of league 1. *)
Lemma update_delegates_witness :
  let w := worldOf [fixture12] [result2013] [row1] [] in
  updateStandingsForFixture sampleParse sampleLeagues 10 w
  = calculateLeagueStandings sampleParse 1 "2025-26" (afterLookups w).
Proof.
  intro w.
  exact (proj1 (update_delegates sampleParse sampleLeagues 10 w fixture12
                  (League.mk 1 "Colts East" "2025-26")
                  eq_refl eq_refl eq_refl eq_refl)).
Defined.

(** X12, on a call for fixture 10 of league 1 over a table that also holds
    a row of league 2. *)
Lemma update_frame_witness :
  let w := worldOf [fixture12] [result2013] [row1; rowOther] [] in
  primaryKey (standingsTable w)
  /\ In rowOther
        (standingsTable (snd (updateStandingsForFixture sampleParse sampleLeagues 10 w))).
Proof.
  intro w.
  assert (Hk : primaryKey (standingsTable w)).
  { unfold primaryKey. vm_compute. repeat constructor; simpl; intuition discriminate. }
  split; [exact Hk |].
  apply (update_frame sampleParse sampleLeagues 10 w rowOther Hk).
  - right. left. reflexivity.
  - intros fixture Hfind. vm_compute in Hfind. injection Hfind as <-.
    vm_compute. discriminate.
Defined.

(** X13, on the two leagues of the sample data, with a failing read of the
    results: league 2 is skipped and league 1 is not updated. *)
Lemma recalculate_tally_witness :
  let w := worldOf [fixture12] [result2013] [row1] [Ok; Ok; Fail] in
  exists w',
    recalculateAll sampleParse sampleLeagues w = (inl (Recalculated 0 1 None), w').
Proof.
  intro w.
  destruct (recalculate_tally sampleParse sampleLeagues w)
    as (updated & skipped & notified & w' & Hrun & _); [reflexivity |].
  exists w'. rewrite Hrun. vm_compute in Hrun. injection Hrun as <- <- <- _.
  reflexivity.
Defined.

(** X14, on the two leagues of the sample data. *)
Lemma recalculate_all_ok_witness :
  let w := worldOf [fixture12] [result2013] [row1] [] in
  exists w',
    recalculateAll sampleParse sampleLeagues w
    = (inl (Recalculated 1 1 (Some "2025-26")), w').
Proof.
  intro w.
  destruct (recalculate_all_ok sampleParse sampleLeagues w eq_refl) as (w' & Hrun).
  exists w'. exact Hrun.
Defined.

(** X15, on a table that holds a row of league 2, of the season before. *)
Lemma recalculate_frame_witness :
  let w := worldOf [fixture12] [result2013] [row1; rowOther] [] in
  primaryKey (standingsTable w)
  /\ In rowOther (standingsTable (snd (recalculateAll sampleParse sampleLeagues w))).
Proof.
  intro w.
  assert (Hk : primaryKey (standingsTable w)).
  { unfold primaryKey. vm_compute. repeat constructor; simpl; intuition discriminate. }
  split; [exact Hk |].
  apply (recalculate_frame sampleParse sampleLeagues w rowOther Hk).
  - right. left. reflexivity.
  - intros league [<- | [<- | []]] Hid.
    + vm_compute in Hid. discriminate.
    + vm_compute. discriminate.
Defined.

(** X16, on a read of the leagues that comes back with a failure status. *)
Lemma recalculate_read_failure_witness :
  let w := worldOf [fixture12] [result2013] [row1] [Fail] in
  exists w',
    recalculateAll sampleParse sampleLeagues w
    = (inl (RecalculationFailed
              "Failed to recalculate standings: Failed to fetch leagues"), w')
    /\ standingsTable w' = [row1].
Proof.
  intro w.
  destruct (recalculate_read_failure sampleParse sampleLeagues w)
    as (error & w' & Hrun & Hfail & _ & _ & Hs & _); [discriminate |].
  exists w'. rewrite Hrun, (Hfail eq_refl). split; [reflexivity | exact Hs].
Defined.

(** X18, on a read that the server answers with status code 403. *)
Lemma session_ends_on_403_witness :
  let run := Auth.crudRequest "read" None (Auth.loggedIn [Auth.Answer 403 ""]) in
  fst run = inr "Session expired. Please login again."
  /\ Auth.isAuthenticated (snd run) = false
  /\ Auth.location (snd run) = "/login".
Proof.
  intro run.
  pose proof (session_ends_on_403 "read" None (Auth.loggedIn [Auth.Answer 403 ""])
                eq_refl (or_introl eq_refl)) as H.
  cbv zeta in H. cbn [hd Auth.replies Auth.loggedIn] in H.
  change (403 =? 403) with true in H. cbv iota in H.
  destruct H as (Hthrow & Htoken & _ & Hlocation & _).
  split; [exact Hthrow |]. split; [| exact Hlocation].
  unfold Auth.isAuthenticated, Auth.getAuthToken. subst run. now rewrite Htoken.
Defined.
